(** * EgressIP OVN rule analyzer and metrics trend: a shallow embedding

    The development follows [tools/egressip/egressip_ovn_rule_analyzer.py]
    (class [EgressIPOVNRuleAnalyzer]) and the trend helper of
    [tools/egressip/egressip_metrics_collector.py].  Python values are
    modelled as follows.

    - [str] is [string]; a character is a code point below 256, so that the
      character classes of [str.split], [str.strip], [str.lower], [repr] and
      of the [re] module are the ones Python has on that range.
    - [set] of [str] is [gset string]; a [list] built from a set
      ([list(some_set)]) has no specified order and is kept as the set.
    - a [dict] whose keys are fixed by the code is a record with an [option]
      per key that may be absent; a [dict] keyed by node names is an
      association list in insertion order.
    - [int] is [Z] or [nat] (for lengths).
    - [float] is binary64 in the trend of a series, where rounding decides
      results on short series of small integers.  The consistency score, one
      division of the sizes of two sets compared with 0.8 and 0.5, is kept as
      the exact rational [Q]: rounding the quotient of two integers below
      2^50 to the nearest double does not move it across 0.5 or the double
      nearest to 0.8. *)

From Stdlib Require Import ZArith QArith Lia List Ascii String SpecFloat.
From stdpp Require Import gmap strings list sorting pretty.

Local Open Scope string_scope.
Local Open Scope Z_scope.
Local Open Scope list_scope.

(** ** Python strings on code points below 256 *)

Module PyStr.

Definition code (c : ascii) : N := N_of_ascii c.

Definition in_range (lo hi : N) (c : ascii) : bool :=
  ((lo <=? code c) && (code c <=? hi))%N.

(** [str.isspace] on one character. *)
Definition isspace (c : ascii) : bool :=
  in_range 9 13 c || in_range 28 32 c || (code c =? 133)%N || (code c =? 160)%N.

(** [\d] of [re] (and the decimal digits [int] accepts). *)
Definition isdigit (c : ascii) : bool := in_range 48 57 c.

(** [\w] of [re] on [str] patterns: alphanumeric characters and [_]. *)
Definition isword (c : ascii) : bool :=
  isdigit c || in_range 65 90 c || (code c =? 95)%N || in_range 97 122 c
  || (code c =? 170)%N || (code c =? 178)%N || (code c =? 179)%N
  || (code c =? 181)%N || (code c =? 185)%N || (code c =? 186)%N
  || in_range 188 190 c || in_range 192 214 c || in_range 216 246 c
  || in_range 248 255 c.

(** [str.isprintable] on one character. *)
Definition isprintable (c : ascii) : bool :=
  negb (in_range 0 31 c || in_range 127 160 c || (code c =? 173)%N).

Definition lower_char (c : ascii) : ascii :=
  if in_range 65 90 c || in_range 192 214 c || in_range 216 222 c
  then ascii_of_N (code c + 32) else c.

Definition chars (s : string) : list ascii := list_ascii_of_string s.
Definition str (l : list ascii) : string := string_of_list_ascii l.

(** [s.lower()] *)
Definition lower (s : string) : string := str (map lower_char (chars s)).

Fixpoint lstrip_chars (l : list ascii) : list ascii :=
  match l with
  | c :: l' => if isspace c then lstrip_chars l' else l
  | [] => []
  end.

(** [s.strip()] *)
Definition strip (s : string) : string :=
  str (rev (lstrip_chars (rev (lstrip_chars (chars s))))).

(** The run of non-space characters at the head of [l], and what follows. *)
Fixpoint span_token (l : list ascii) : list ascii * list ascii :=
  match l with
  | c :: l' =>
      if isspace c then ([], l)
      else let '(t, r) := span_token l' in (c :: t, r)
  | [] => ([], [])
  end.

(** [s.split()]: [cur] holds, reversed, the token being read. *)
Fixpoint split_go (cur : list ascii) (l : list ascii) : list string :=
  match l with
  | [] => match cur with [] => [] | _ => [str (rev cur)] end
  | c :: l' =>
      if isspace c
      then match cur with
           | [] => split_go [] l'
           | _ => str (rev cur) :: split_go [] l'
           end
      else split_go (c :: cur) l'
  end.

Definition split (s : string) : list string := split_go [] (chars s).

(** [s.split(None, maxsplit)]: after [maxsplit] tokens the rest of the
    string, leading white space removed, is the last element. *)
Fixpoint split_max_go (maxsplit : nat) (l : list ascii) : list string :=
  match lstrip_chars l with
  | [] => []
  | c :: r =>
      match maxsplit with
      | O => [str (c :: r)]
      | S n => let '(t, rest) := span_token (c :: r) in
               str t :: split_max_go n rest
      end
  end.

Definition split_max (s : string) (maxsplit : nat) : list string :=
  split_max_go maxsplit (chars s).

(** [s.split(sep)] for a one-character separator. *)
Fixpoint split_on_go (sep : ascii) (cur : list ascii) (l : list ascii)
  : list string :=
  match l with
  | [] => [str (rev cur)]
  | c :: l' =>
      if Ascii.eqb c sep then str (rev cur) :: split_on_go sep [] l'
      else split_on_go sep (c :: cur) l'
  end.

Definition split_on (sep : ascii) (s : string) : list string :=
  split_on_go sep [] (chars s).

Fixpoint starts_with (p l : list ascii) : bool :=
  match p, l with
  | [], _ => true
  | a :: p', b :: l' => Ascii.eqb a b && starts_with p' l'
  | _ :: _, [] => false
  end.

Fixpoint contains_go (p l : list ascii) : bool :=
  starts_with p l ||
  match l with
  | [] => false
  | _ :: l' => contains_go p l'
  end.

(** [sub in s] *)
Definition contains (sub s : string) : bool := contains_go (chars sub) (chars s).

(** [s.startswith(p)] *)
Definition startswith (s p : string) : bool := starts_with (chars p) (chars s).

(** Truth value of a [str]. *)
Definition truthy (s : string) : bool :=
  match s with EmptyString => false | _ => true end.

End PyStr.


(** ** [repr], [str] of a list and [int] of a string *)

Module PyRepr.
Import PyStr.

Definition backslash : ascii := ascii_of_N 92.
Definition squote : ascii := ascii_of_N 39.
Definition dquote : ascii := ascii_of_N 34.

Definition hex_digit (n : N) : ascii :=
  if (n <? 10)%N then ascii_of_N (48 + n) else ascii_of_N (87 + n).

(** One character inside the quotes of [repr(s)]. *)
Definition escape_char (quote : ascii) (c : ascii) : list ascii :=
  if Ascii.eqb c quote || Ascii.eqb c "\"%char then ["\"%char; c]
  else if (code c =? 9)%N then ["\"%char; "t"%char]
  else if (code c =? 10)%N then ["\"%char; "n"%char]
  else if (code c =? 13)%N then ["\"%char; "r"%char]
  else if isprintable c then [c]
  else ["\"%char; "x"%char; hex_digit (code c / 16); hex_digit (code c mod 16)].

Definition has_char (c : ascii) (l : list ascii) : bool :=
  existsb (Ascii.eqb c) l.

(** [repr(s)]: single quotes, unless the string has a single quote and no
    double quote. *)
Definition repr (s : string) : string :=
  let l := chars s in
  let quote :=
    if has_char squote l && negb (has_char dquote l)
    then dquote else squote in
  str (quote :: flat_map (escape_char quote) l ++ [quote]).

Fixpoint join (sep : string) (l : list string) : string :=
  match l with
  | [] => ""
  | [x] => x
  | x :: l' => x +:+ sep +:+ join sep l'
  end.

(** [str(l)] for a list of strings. *)
Definition str_list (l : list string) : string :=
  "[" +:+ join ", " (map repr l) +:+ "]".

Definition digit_val (c : ascii) : Z := Z.of_N (code c) - 48.

(** Digits with single underscores between them, most significant first:
    [acc] is the value read so far, [after_digit] tells whether the last
    character was a digit. *)
Fixpoint int_digits (acc : Z) (after_digit : bool) (l : list ascii)
  : option Z :=
  match l with
  | [] => if after_digit then Some acc else None
  | c :: l' =>
      if isdigit c then int_digits (10 * acc + digit_val c) true l'
      else if (code c =? 95)%N && after_digit then int_digits acc false l'
      else None
  end.

(** The most digits [int] converts (the default of
    [sys.get_int_max_str_digits()]). *)
Definition int_max_str_digits : Z := 4300.

(** The white space [int] skips at both ends of a [str]: the ASCII white
    space, and the two characters beyond ASCII that [str.isspace] accepts,
    which are turned into spaces before the number is read.  The separators
    28 to 31 are white space for [str.strip] but not for [int]. *)
Definition int_isspace (c : ascii) : bool :=
  in_range 9 13 c || (code c =? 32)%N || (code c =? 133)%N || (code c =? 160)%N.

Fixpoint int_lstrip (l : list ascii) : list ascii :=
  match l with
  | c :: l' => if int_isspace c then int_lstrip l' else l
  | [] => []
  end.

(** [int(s)]: [None] stands for [ValueError]. *)
Definition int (s : string) : option Z :=
  let l := rev (int_lstrip (rev (int_lstrip (chars s)))) in
  if int_max_str_digits <? Z.of_nat (length (filter (fun c => isdigit c = true) l))
  then None
  else match l with
       | c :: l' =>
           if (code c =? 45)%N then Z.opp <$> int_digits 0 false l'
           else if (code c =? 43)%N then int_digits 0 false l'
           else int_digits 0 false (c :: l')
       | [] => None
       end.

End PyRepr.

(** ** The two regular expressions of the analyzer

    The patterns are sequences of atoms; matching is the backtracking search
    of [re]: a bounded repetition is greedy and gives characters back one at
    a time until the rest of the pattern matches. *)

Module PyRe.
Import PyStr.

Inductive atom :=
| Boundary                    (* \b *)
| Chr (c : ascii)             (* an escaped literal, here \. *)
| Digits (lo hi : nat).       (* \d{lo,hi} *)

Definition is_word_opt (c : option ascii) : bool :=
  match c with Some c => isword c | None => false end.

(** [\b]: exactly one of the characters around the position is a word
    character; outside the string there is none. *)
Definition at_boundary (prev : option ascii) (l : list ascii) : bool :=
  xorb (is_word_opt prev) (is_word_opt (head l)).

(** Number of leading digits of [l], at most [hi]. *)
Fixpoint count_digits (hi : nat) (l : list ascii) : nat :=
  match hi, l with
  | S hi', c :: l' => if isdigit c then S (count_digits hi' l') else O
  | _, _ => O
  end.

(** The character before the position reached after [n] more characters. *)
Definition prev_after (prev : option ascii) (l : list ascii) (n : nat)
  : option ascii :=
  match n with
  | O => prev
  | S n' => nth_error l n'
  end.

(** First success of [f], trying [n], [n - 1], ..., [lo]. *)
Fixpoint first_down (f : nat -> option nat) (lo n : nat) : option nat :=
  if (n <? lo)%nat then None
  else match f n with
       | Some r => Some r
       | None => match n with
                 | O => None
                 | S n' => first_down f lo n'
                 end
       end.

(** [match_here p prev l]: length of the match of [p] that starts at the
    head of [l], where [prev] is the character before it. *)
Fixpoint match_here (p : list atom) (prev : option ascii) (l : list ascii)
  : option nat :=
  match p with
  | [] => Some O
  | Boundary :: p' =>
      if at_boundary prev l then match_here p' prev l else None
  | Chr c :: p' =>
      match l with
      | c' :: l' =>
          if Ascii.eqb c c' then S <$> match_here p' (Some c') l' else None
      | [] => None
      end
  | Digits lo hi :: p' =>
      first_down
        (fun n => Nat.add n <$> match_here p' (prev_after prev l n) (drop n l))
        lo (count_digits hi l)
  end.

(** [re.search(p, s)] as a truth value: a match starts somewhere. *)
Fixpoint search_go (p : list atom) (prev : option ascii) (l : list ascii)
  : bool :=
  match match_here p prev l with
  | Some _ => true
  | None => match l with
            | [] => false
            | c :: l' => search_go p (Some c) l'
            end
  end.

Definition search (p : list atom) (s : string) : bool :=
  search_go p None (chars s).

(** [re.findall(p, s)] for a pattern without groups whose matches are not
    empty: matches from left to right, the search resuming where the last
    match ended; [skip] counts the characters of that match still to pass. *)
Fixpoint findall_go (p : list atom) (prev : option ascii) (l : list ascii)
  (skip : nat) : list string :=
  match l with
  | [] => []
  | c :: l' =>
      match skip with
      | S k => findall_go p (Some c) l' k
      | O =>
          match match_here p prev l with
          | Some n => str (take n l) :: findall_go p (Some c) l' (pred n)
          | None => findall_go p (Some c) l' O
          end
      end
  end.

Definition findall (p : list atom) (s : string) : list string :=
  findall_go p None (chars s) O.

Definition dot : ascii := ascii_of_N 46.

(** [r'\d{1,3}\.\d{1,3}\.\d{1,3}\.\d{1,3}'] *)
Definition ipv4_pattern : list atom :=
  [Digits 1 3; Chr dot; Digits 1 3; Chr dot; Digits 1 3; Chr dot; Digits 1 3].

(** [r'\b\d{1,3}\.\d{1,3}\.\d{1,3}\.\d{1,3}\b'] *)
Definition ipv4_word_pattern : list atom :=
  Boundary :: ipv4_pattern ++ [Boundary].

End PyRe.

(** ** The built-in [hash] of a [str]

    CPython hashes the bytes of a string with SipHash-1-3 under a key of two
    64-bit words that is fixed when the interpreter starts: drawn at random,
    or derived from the variable PYTHONHASHSEED when it is set.  With code
    points below 256 a string is stored one byte per character. *)

Module PyHash.
Import PyStr.

Definition mask64 : Z := Z.ones 64.
Definition wrap64 (x : Z) : Z := Z.land x mask64.
Definition add64 (a b : Z) : Z := wrap64 (a + b).
Definition rotl64 (x : Z) (b : Z) : Z :=
  wrap64 (Z.lor (Z.shiftl x b) (Z.shiftr x (64 - b))).

Record sipstate := { v0 : Z; v1 : Z; v2 : Z; v3 : Z }.

(** [HALF_ROUND(a,b,c,d,s,t)], returning the new [(a, b, c, d)]. *)
Definition half_round (a b c d s t : Z) : Z * Z * Z * Z :=
  let a := add64 a b in
  let c := add64 c d in
  let b := Z.lxor (rotl64 b s) a in
  let d := Z.lxor (rotl64 d t) c in
  let a := rotl64 a 32 in
  (a, b, c, d).

(** [SINGLE_ROUND(v0,v1,v2,v3)] *)
Definition single_round (st : sipstate) : sipstate :=
  let '(a0, a1, a2, a3) := half_round (v0 st) (v1 st) (v2 st) (v3 st) 13 16 in
  let '(b2, b1, b0, b3) := half_round a2 a1 a0 a3 17 21 in
  {| v0 := b0; v1 := b1; v2 := b2; v3 := b3 |}.

(** Little-endian value of at most eight bytes. *)
Fixpoint le_word (l : list ascii) : Z :=
  match l with
  | [] => 0
  | c :: l' => Z.lor (Z.of_N (code c)) (Z.shiftl (le_word l') 8)
  end.

Definition absorb (st : sipstate) (m : Z) : sipstate :=
  let st1 := single_round
    {| v0 := v0 st; v1 := v1 st; v2 := v2 st; v3 := Z.lxor (v3 st) m |} in
  {| v0 := Z.lxor (v0 st1) m; v1 := v1 st1; v2 := v2 st1; v3 := v3 st1 |}.

(** The loop over whole 8-byte words; returns the state and the tail of
    fewer than eight bytes.  [blocks] bounds the number of words. *)
Fixpoint absorb_words (blocks : nat) (st : sipstate) (l : list ascii)
  : sipstate * list ascii :=
  match blocks with
  | O => (st, l)
  | S n =>
      if (8 <=? length l)%nat
      then absorb_words n (absorb st (le_word (take 8 l))) (drop 8 l)
      else (st, l)
  end.

Definition siphash13 (k0 k1 : Z) (src : list ascii) : Z :=
  let b := wrap64 (Z.shiftl (Z.of_nat (length src)) 56) in
  let st := {| v0 := Z.lxor k0 0x736f6d6570736575;
               v1 := Z.lxor k1 0x646f72616e646f6d;
               v2 := Z.lxor k0 0x6c7967656e657261;
               v3 := Z.lxor k1 0x7465646279746573 |} in
  let '(st, tail) := absorb_words (length src) st src in
  let b := Z.lor b (le_word tail) in
  let st := absorb st b in
  let st := {| v0 := v0 st; v1 := v1 st;
               v2 := Z.lxor (v2 st) 0xff; v3 := v3 st |} in
  let st := single_round (single_round (single_round st)) in
  Z.lxor (Z.lxor (v0 st) (v1 st)) (Z.lxor (v2 st) (v3 st)).

(** An unsigned 64-bit value read as the signed [Py_hash_t]. *)
Definition to_signed64 (x : Z) : Z :=
  if x <? 2 ^ 63 then x else x - 2 ^ 64.

(** The key of one interpreter run. *)
Record secret := { k0 : Z; k1 : Z }.

(** [hash(s)] in a run whose key is [sec]: 0 for the empty string, and -1 is
    never a hash value. *)
Definition hash (sec : secret) (s : string) : Z :=
  match chars s with
  | [] => 0
  | src =>
      let x := to_signed64 (siphash13 (k0 sec) (k1 sec) src) in
      if x =? -1 then -2 else x
  end.

(** The key bytes CPython derives from a non-zero PYTHONHASHSEED: a linear
    congruential generator on 32-bit words, one byte taken per step. *)
Fixpoint lcg_urandom (x : Z) (size : nat) : list ascii :=
  match size with
  | O => []
  | S n =>
      let x := Z.land (x * 214013 + 2531011) (Z.ones 32) in
      ascii_of_N (Z.to_N (Z.land (Z.shiftr x 16) 255)) :: lcg_urandom x n
  end.

Definition secret_of_seed (seed : Z) : secret :=
  if seed =? 0 then {| k0 := 0; k1 := 0 |}
  else let bytes := lcg_urandom seed 16 in
       {| k0 := le_word (take 8 bytes); k1 := le_word (drop 8 bytes) |}.

End PyHash.

(** ** Rule records and the two line parsers *)

Module Analyzer.
Import PyStr.

(** A parsed rule (a [dict]): the keys a failed parse leaves out are [None].
    [rule_type] and [rule_match] are the keys [type] and [match]. *)
Record rule := {
  rule_type : string;
  external_ip : option string;
  logical_ip : option string;
  logical_port : option string;
  priority : option string;
  rule_match : option string;
  action : option string;
  raw_rule : string;
  parsed_successfully : bool;
  egressip_related : bool
}.

(** Truth value of [d.get(key)] for a key holding a string. *)
Definition get_truthy (o : option string) : bool :=
  match o with Some s => truthy s | None => false end.

(** [d.get(key, '')] *)
Definition get_or_empty (o : option string) : string := default "" o.

Definition _is_egressip_related_snat (rule_line : string) : bool :=
  contains "egressip" (lower rule_line)
  || (contains "egress" (lower rule_line) && contains "ip" (lower rule_line))
  || PyRe.search PyRe.ipv4_pattern rule_line.

Definition _is_egressip_related_lrp (rule_line : string) : bool :=
  contains "egressip" (lower rule_line)
  || (contains "egress" (lower rule_line) && contains "ip" (lower rule_line))
  || contains "reroute" (lower rule_line)
  || PyRe.search PyRe.ipv4_pattern rule_line.

(** The record both parsers return when the line does not have the shape. *)
Definition failed_rule (type : string) (rule_line : string) : rule :=
  {| rule_type := type;
     external_ip := None; logical_ip := None; logical_port := None;
     priority := None; rule_match := None; action := None;
     raw_rule := rule_line;
     parsed_successfully := false;
     egressip_related := false |}.

(** [parts[i]] where the index is known to be in range. *)
Definition item (parts : list string) (i : nat) : string := nth i parts "".

(** Both parsers run in a [try] whose [except] falls through to the failure
    record; on a string no operation of the body raises. *)
Definition _parse_egressip_snat_rule (rule_line : string) : rule :=
  let parts := split (strip rule_line) in
  if (4 <=? length parts)%nat && String.eqb (lower (item parts 0)) "snat"
  then {| rule_type := "snat";
          external_ip := Some (item parts 1);
          logical_ip := Some (item parts 2);
          logical_port := Some (item parts 3);
          priority := None; rule_match := None; action := None;
          raw_rule := rule_line;
          parsed_successfully := true;
          egressip_related := _is_egressip_related_snat rule_line |}
  else failed_rule "snat" rule_line.

Definition _parse_egressip_lrp_rule (rule_line : string) : rule :=
  let parts := split_max (strip rule_line) 2 in
  if (3 <=? length parts)%nat
  then {| rule_type := "lrp";
          external_ip := None; logical_ip := None; logical_port := None;
          priority := Some (item parts 0);
          rule_match := Some (item parts 1);
          action := Some (item parts 2);
          raw_rule := rule_line;
          parsed_successfully := true;
          egressip_related := _is_egressip_related_lrp rule_line |}
  else failed_rule "lrp" rule_line.

(** What a remote command gave: its standard output, or a failure (a
    non-zero return code or an exception while running it). *)
Inductive cmd_result :=
| CmdOk (stdout : string)
| CmdFailed.

Definition newline : ascii := ascii_of_N 10.

(** Lines of a command output, [stdout.decode().split('\n')]. *)
Definition output_lines (stdout : string) : list string :=
  split_on newline stdout.

(** The loop of [_get_egressip_snat_rules] over the output lines. *)
Definition snat_rules_of_lines (lines : list string) : list rule :=
  omap (fun line =>
          let line := strip line in
          if contains "snat" (lower line)
          then Some (_parse_egressip_snat_rule line) else None) lines.

(** The loop of [_get_egressip_lrp_rules] over the output lines. *)
Definition lrp_rules_of_lines (lines : list string) : list rule :=
  omap (fun line =>
          let line := strip line in
          if truthy line && negb (startswith line "Routing")
          then Some (_parse_egressip_lrp_rule line) else None) lines.

Definition _get_egressip_snat_rules (out : cmd_result) : list rule :=
  match out with
  | CmdOk stdout => snat_rules_of_lines (output_lines stdout)
  | CmdFailed => []
  end.

Definition _get_egressip_lrp_rules (out : cmd_result) : list rule :=
  match out with
  | CmdOk stdout => lrp_rules_of_lines (output_lines stdout)
  | CmdFailed => []
  end.

(** [sum(1 for r in rules if r.get(key, False))] *)
Definition count_where (f : rule -> bool) (rules : list rule) : nat :=
  length (filter (fun r => f r = true) rules).

(** ** Per-kind analyses *)

Record snat_analysis := {
  sa_total_rules : nat;
  sa_parsed_successfully : nat;
  sa_egressip_related : nat;
  external_ips : gset string;
  logical_ips : gset string;
  sa_potential_issues : list string;
  unique_external_ips : nat;
  unique_logical_ips : nat
}.

(** [s.add(d[key])] guarded by [if d.get(key)]. *)
Definition add_if_truthy (o : option string) (s : gset string) : gset string :=
  match o with
  | Some x => if truthy x then s ∪ {[ x ]} else s
  | None => s
  end.

(** One turn of the loop of [_analyze_egressip_snat_rules] on the external
    IPs, the logical IPs and the issues collected so far. *)
Definition snat_step (st : gset string * gset string * list string) (r : rule)
  : gset string * gset string * list string :=
  let '(ext, log, issues) := st in
  if parsed_successfully r
  then (add_if_truthy (external_ip r) ext, add_if_truthy (logical_ip r) log, issues)
  else (ext, log, issues ++ ["Failed to parse rule: " +:+ raw_rule r]).

Definition _analyze_egressip_snat_rules (snat_rules : list rule) : snat_analysis :=
  let '(ext, log, issues) := foldl snat_step (∅, ∅, []) snat_rules in
  {| sa_total_rules := length snat_rules;
     sa_parsed_successfully := count_where parsed_successfully snat_rules;
     sa_egressip_related := count_where egressip_related snat_rules;
     external_ips := ext;
     logical_ips := log;
     sa_potential_issues := issues;
     unique_external_ips := size ext;
     unique_logical_ips := size log |}.

Record priority_stats := {
  ps_min : Z;
  ps_max : Z;
  ps_unique_count : nat
}.

Record lrp_analysis := {
  la_total_rules : nat;
  la_parsed_successfully : nat;
  la_egressip_related : nat;
  priorities : list Z;
  action_types : list (string * nat);
  la_potential_issues : list string;
  la_priority_stats : priority_stats
}.

(** [d[k] = d.get(k, 0) + 1] on a dict kept in insertion order. *)
Fixpoint count_up (k : string) (d : list (string * nat)) : list (string * nat) :=
  match d with
  | [] => [(k, 1%nat)]
  | (k', n) :: d' =>
      if String.eqb k k' then (k', S n) :: d' else (k', n) :: count_up k d'
  end.

Record lrp_state := {
  st_priorities : list Z;
  st_action_types : list (string * nat);
  st_issues : list string
}.

(** The priority part of one turn: the priority is read with [int], and a
    [ValueError] becomes an issue. *)
Definition lrp_priority_step (st : lrp_state) (r : rule) : lrp_state :=
  match priority r with
  | Some p =>
      if truthy p
      then match PyRepr.int p with
           | Some n =>
               {| st_priorities := st_priorities st ++ [n];
                  st_action_types := st_action_types st;
                  st_issues := st_issues st |}
           | None =>
               {| st_priorities := st_priorities st;
                  st_action_types := st_action_types st;
                  st_issues := st_issues st ++ ["Invalid priority: " +:+ p] |}
           end
      else st
  | None => st
  end.

(** One turn of the loop of [_analyze_egressip_lrp_rules]; [None] is the
    [IndexError] of [rule["action"].split()[0]] on an action made of white
    space only, which the function does not catch. *)
Definition lrp_step (st : lrp_state) (r : rule) : option lrp_state :=
  if parsed_successfully r
  then
    let st := lrp_priority_step st r in
    match action r with
    | Some a =>
        if truthy a
        then match split a with
             | w :: _ =>
                 Some {| st_priorities := st_priorities st;
                         st_action_types := count_up w (st_action_types st);
                         st_issues := st_issues st |}
             | [] => None
             end
        else Some st
    | None => Some st
    end
  else
    Some {| st_priorities := st_priorities st;
            st_action_types := st_action_types st;
            st_issues := st_issues st ++ ["Failed to parse rule: " +:+ raw_rule r] |}.

Fixpoint lrp_loop (st : lrp_state) (rules : list rule) : option lrp_state :=
  match rules with
  | [] => Some st
  | r :: rules' =>
      match lrp_step st r with
      | Some st' => lrp_loop st' rules'
      | None => None
      end
  end.

Definition stats_of (ps : list Z) : priority_stats :=
  match ps with
  | [] => {| ps_min := 0; ps_max := 0; ps_unique_count := 0 |}
  | p :: ps' =>
      {| ps_min := foldl Z.min p ps';
         ps_max := foldl Z.max p ps';
         ps_unique_count := size (list_to_set ps : gset Z) |}
  end.

Definition _analyze_egressip_lrp_rules (lrp_rules : list rule)
  : option lrp_analysis :=
  st ← lrp_loop {| st_priorities := []; st_action_types := []; st_issues := [] |}
                lrp_rules;
  Some {| la_total_rules := length lrp_rules;
          la_parsed_successfully := count_where parsed_successfully lrp_rules;
          la_egressip_related := count_where egressip_related lrp_rules;
          priorities := st_priorities st;
          action_types := st_action_types st;
          la_potential_issues := st_issues st;
          la_priority_stats := stats_of (st_priorities st) |}.

(** ** Consistency between the two rule kinds *)

(** A value of the result dictionary where the kind of value matters. *)
Inductive py_value :=
| PyFloat (q : Q)
| PyStr (s : string)
| PyNone.

Definition is_number (v : py_value) : Prop :=
  match v with PyFloat _ => True | _ => False end.

Record consistency_details := {
  cd_snat_external_ips : gset string;
  cd_lrp_ip_references : gset string;
  cd_correlated_ips : gset string
}.

Record consistency := {
  snat_lrp_correlation : string;
  issues_found : list string;
  consistency_score : py_value;
  details : option consistency_details
}.

(** The rules both [_check_egressip_rule_consistency] and
    [_validate_rules_against_egressips] read an external IP from. *)
Definition counts_as_egressip_snat (r : rule) : bool :=
  parsed_successfully r && get_truthy (external_ip r) && egressip_related r.

(** The first loop: external IPs of the EgressIP SNAT rules. *)
Definition egressip_snat_external_ips (snat_rules : list rule) : gset string :=
  foldl (fun s r => if counts_as_egressip_snat r
                    then add_if_truthy (external_ip r) s else s)
        ∅ snat_rules.

(** The text the IP literals of an LRP rule are looked for in. *)
Definition rule_text (r : rule) : string :=
  get_or_empty (rule_match r) +:+ " " +:+ get_or_empty (action r).

(** The second loop: IP literals of the EgressIP LRP rules. *)
Definition egressip_lrp_ip_references (lrp_rules : list rule) : gset string :=
  foldl (fun s r => if parsed_successfully r && egressip_related r
                    then s ∪ list_to_set (PyRe.findall PyRe.ipv4_word_pattern (rule_text r))
                    else s)
        ∅ lrp_rules.

(** [len(a) / len(b)] for a non-empty [b]. *)
Definition ratio (a b : nat) : Q := Z.of_nat a # Pos.of_nat b.

(** [x > y] *)
Definition Qgtb (x y : Q) : bool := negb (Qle_bool x y).

Definition low_correlation_issue : string :=
  "Low correlation between EgressIP SNAT and LRP rules".

(** The result starts as [unknown], no issue, score [0.0], and only the
    branch for two non-empty sets changes label, issues and score.  No
    operation of the [try] block raises on these records, so its [except]
    branch is left out. *)

Definition _check_egressip_rule_consistency (snat_rules lrp_rules : list rule)
  : consistency :=
  let snat_external_ips := egressip_snat_external_ips snat_rules in
  let lrp_ip_references := egressip_lrp_ip_references lrp_rules in
  let snat_in_lrp := snat_external_ips ∩ lrp_ip_references in
  let details :=
    Some {| cd_snat_external_ips := snat_external_ips;
            cd_lrp_ip_references := lrp_ip_references;
            cd_correlated_ips := snat_in_lrp |} in
  if negb (bool_decide (snat_external_ips = ∅))
     && negb (bool_decide (lrp_ip_references = ∅))
  then
    let consistency_ratio := ratio (size snat_in_lrp) (size snat_external_ips) in
    if Qgtb consistency_ratio (8 # 10)
    then {| snat_lrp_correlation := "good";
            issues_found := [];
            consistency_score := PyFloat consistency_ratio;
            details := details |}
    else if Qgtb consistency_ratio (5 # 10)
    then {| snat_lrp_correlation := "moderate";
            issues_found := [];
            consistency_score := PyFloat consistency_ratio;
            details := details |}
    else {| snat_lrp_correlation := "poor";
            issues_found := [low_correlation_issue];
            consistency_score := PyFloat consistency_ratio;
            details := details |}
  else {| snat_lrp_correlation := "unknown";
          issues_found := [];
          consistency_score := PyFloat 0;
          details := details |}.

(** ** Validation against the EgressIP assignments *)

(** What [_get_egressip_context] returned. *)
Record egressip_context := {
  available : bool;
  total_assigned_ips : list string;
  context_error : option string
}.

Record validation_summary := {
  total_assigned_egressips : nat;
  total_snat_external_ips : nat;
  missing_rules_count : nat;
  unexpected_rules_count : nat;
  validation_passed : bool
}.

Record validation := {
  validation_possible : bool;
  missing_snat_rules : gset string;
  unexpected_snat_rules : gset string;
  summary : option validation_summary;
  validation_error : option string
}.

(** As for the check, no operation of the [try] block raises here. *)
Definition _validate_rules_against_egressips
  (snat_rules lrp_rules : list rule) (egressip_context : egressip_context)
  : validation :=
  if available egressip_context
  then
    let assigned_ips : gset string :=
      list_to_set (total_assigned_ips egressip_context) in
    let snat_external_ips := egressip_snat_external_ips snat_rules in
    let missing := assigned_ips ∖ snat_external_ips in
    let unexpected := snat_external_ips ∖ assigned_ips in
    {| validation_possible := true;
       missing_snat_rules := missing;
       unexpected_snat_rules := unexpected;
       summary :=
         Some {| total_assigned_egressips := size assigned_ips;
                 total_snat_external_ips := size snat_external_ips;
                 missing_rules_count := size missing;
                 unexpected_rules_count := size unexpected;
                 validation_passed :=
                   (size missing =? 0)%nat && (size unexpected =? 0)%nat |};
       validation_error := None |}
  else
    {| validation_possible := false;
       missing_snat_rules := ∅;
       unexpected_snat_rules := ∅;
       summary := None;
       validation_error :=
         Some (default "EgressIP context not available"
                       (context_error egressip_context)) |}.

(** ** Snapshots, change events and the monitoring loop *)

Record snapshot := {
  timestamp : string;
  snat_count : nat;
  lrp_count : nat;
  egressip_snat_count : nat;
  egressip_lrp_count : nat;
  snat_rules_hash : Z;
  lrp_rules_hash : Z
}.

(** [sorted(l)] on strings: the order is the one of the code points. *)
Definition sorted (l : list string) : list string := merge_sort String.le l.

(** [hash(str(sorted([r.get("raw_rule", "") for r in rules])))] in an
    interpreter run whose hash key is [sec]. *)
Definition rules_hash (sec : PyHash.secret) (rules : list rule) : Z :=
  PyHash.hash sec (PyRepr.str_list (sorted (map raw_rule rules))).

(** What one snapshot sees of the node: the output of the two commands and
    the clock. *)
Record observation := {
  snat_output : cmd_result;
  lrp_output : cmd_result;
  utcnow : string
}.

Definition _take_egressip_rule_snapshot (sec : PyHash.secret) (o : observation)
  : snapshot :=
  let snat_rules := _get_egressip_snat_rules (snat_output o) in
  let lrp_rules := _get_egressip_lrp_rules (lrp_output o) in
  {| timestamp := utcnow o;
     snat_count := length snat_rules;
     lrp_count := length lrp_rules;
     egressip_snat_count := count_where egressip_related snat_rules;
     egressip_lrp_count := count_where egressip_related lrp_rules;
     snat_rules_hash := rules_hash sec snat_rules;
     lrp_rules_hash := rules_hash sec lrp_rules |}.

(** A count that changed: its two values and the time of the later one. *)
Record count_change := {
  change_from : nat;
  change_to : nat;
  change_time : string
}.

(** The changes between two snapshots in a row (a [dict] with a key per
    attribute that changed). *)
Record change_event := {
  snat_count_change : option count_change;
  lrp_count_change : option count_change;
  egressip_snat_count_change : option count_change;
  egressip_lrp_count_change : option count_change;
  snat_content_change : option string;
  lrp_content_change : option string
}.

Definition count_diff (a b : nat) (t : string) : option count_change :=
  if (a =? b)%nat then None
  else Some {| change_from := a; change_to := b; change_time := t |}.

Definition hash_diff (a b : Z) (t : string) : option string :=
  if a =? b then None else Some t.

Definition snapshot_changes (prev curr : snapshot) : change_event :=
  {| snat_count_change :=
       count_diff (snat_count prev) (snat_count curr) (timestamp curr);
     lrp_count_change :=
       count_diff (lrp_count prev) (lrp_count curr) (timestamp curr);
     egressip_snat_count_change :=
       count_diff (egressip_snat_count prev) (egressip_snat_count curr)
                  (timestamp curr);
     egressip_lrp_count_change :=
       count_diff (egressip_lrp_count prev) (egressip_lrp_count curr)
                  (timestamp curr);
     snat_content_change :=
       hash_diff (snat_rules_hash prev) (snat_rules_hash curr) (timestamp curr);
     lrp_content_change :=
       hash_diff (lrp_rules_hash prev) (lrp_rules_hash curr) (timestamp curr) |}.

(** Truth value of the [dict] of changes: some key is present. *)
Definition present {A} (o : option A) : bool :=
  match o with Some _ => true | None => false end.

Definition has_changes (e : change_event) : bool :=
  present (snat_count_change e) || present (lrp_count_change e)
  || present (egressip_snat_count_change e)
  || present (egressip_lrp_count_change e)
  || present (snat_content_change e) || present (lrp_content_change e).

(** The loop over [range(1, len(snapshots))]. *)
Fixpoint changes_between (prev : snapshot) (rest : list snapshot)
  : list change_event :=
  match rest with
  | [] => []
  | curr :: rest' =>
      let e := snapshot_changes prev curr in
      (if has_changes e then [e] else []) ++ changes_between curr rest'
  end.

Record change_analysis := {
  changes_detected : bool;
  total_change_events : option nat;
  changes : option (list change_event);
  reason : option string
}.

Definition _analyze_egressip_rule_changes (snapshots : list snapshot)
  : change_analysis :=
  match snapshots with
  | first :: (_ :: _) as rest =>
      let changes := changes_between first rest in
      {| changes_detected := (0 <? length changes)%nat;
         total_change_events := Some (length changes);
         changes := Some changes;
         reason := None |}
  | _ =>
      {| changes_detected := false;
         total_change_events := None;
         changes := None;
         reason := Some "Insufficient snapshots" |}
  end.

Record stability_assessment := {
  stability : string;
  assessment : string;
  confidence : string
}.

Definition _assess_egressip_rule_stability (ca : change_analysis)
  : stability_assessment :=
  if negb (changes_detected ca)
  then {| stability := "stable";
          assessment := "No EgressIP rule changes detected during monitoring period";
          confidence := "high" |}
  else
    let change_count := default 0%nat (total_change_events ca) in
    if (change_count <=? 2)%nat
    then {| stability := "mostly_stable";
            assessment := "Minor EgressIP changes detected ("
                          +:+ pretty change_count +:+ " events)";
            confidence := "medium" |}
    else {| stability := "unstable";
            assessment := "Frequent EgressIP rule changes detected ("
                          +:+ pretty change_count +:+ " events)";
            confidence := "high" |}.

(** Exceptions of the modelled code.  [CancelledError] derives from
    [BaseException] only, so [except Exception] does not catch it. *)
Inductive exn :=
| ZeroDivisionError
| IndexError
| CancelledError.

Definition caught_by_except_Exception (e : exn) : bool :=
  match e with
  | CancelledError => false
  | _ => true
  end.

(** [str(e)] *)
Definition exn_message (e : exn) : string :=
  match e with
  | ZeroDivisionError => "integer division or modulo by zero"
  | IndexError => "list index out of range"
  | CancelledError => ""
  end.

(** [a // b] on integers. *)
Definition floordiv (a b : Z) : exn + Z :=
  if b =? 0 then inl ZeroDivisionError else inr (a / b).

(** What a monitoring session meets: what each snapshot sees, whether the
    task is cancelled while it sleeps before snapshot [i + 1], and the clock
    when the result is built. *)
Record session := {
  observe : nat -> observation;
  cancelled_in_sleep : nat -> bool;
  end_time : string
}.

(** The [for] loop of the monitor, [remaining] turns from turn [i] on: the
    snapshots taken when it ends, and the exception that ended it if any. *)
Fixpoint sampling_loop (sec : PyHash.secret) (w : session)
  (remaining i : nat) (snapshots : list snapshot)
  : list snapshot * option exn :=
  match remaining with
  | O => (snapshots, None)
  | S n =>
      if cancelled_in_sleep w i then (snapshots, Some CancelledError)
      else sampling_loop sec w n (S i)
             (snapshots ++ [_take_egressip_rule_snapshot sec (observe w (S i))])
  end.

(** The [try] block up to the end of the loop. *)
Definition monitor_sampling (sec : PyHash.secret) (w : session)
  (duration_seconds : Z) : list snapshot * option exn :=
  let snapshots := [_take_egressip_rule_snapshot sec (observe w O)] in
  let check_interval := Z.min 30 (duration_seconds / 10) in
  match floordiv duration_seconds check_interval with
  | inl e => (snapshots, Some e)
  | inr checks_remaining =>
      sampling_loop sec w (Z.to_nat checks_remaining) O snapshots
  end.

(** A value of the result dictionary of the monitor. *)
Inductive field :=
| FStr (s : string)
| FInt (z : Z)
| FChanges (ca : change_analysis)
| FStability (sa : stability_assessment)
| FSnapshots (l : list snapshot).

(** What a call gives its caller: a result dictionary, or an exception that
    leaves the function. *)
Inductive outcome :=
| Returned (result : gmap string field)
| Propagated (e : exn).

Definition monitor_success (node_name : string) (duration_seconds : Z)
  (now : string) (snapshots : list snapshot) : gmap string field :=
  let change_analysis := _analyze_egressip_rule_changes snapshots in
  list_to_map
    [("status", FStr "success");
     ("node_name", FStr node_name);
     ("monitoring_duration", FInt duration_seconds);
     ("snapshots_taken", FInt (Z.of_nat (length snapshots)));
     ("timestamp", FStr now);
     ("change_analysis", FChanges change_analysis);
     ("stability_assessment",
      FStability (_assess_egressip_rule_stability change_analysis));
     ("detailed_snapshots", FSnapshots snapshots)].

Definition monitor_error (node_name : string) (now : string) (e : exn)
  : gmap string field :=
  list_to_map
    [("status", FStr "error");
     ("error", FStr (exn_message e));
     ("node_name", FStr node_name);
     ("timestamp", FStr now)].

Definition monitor_egressip_rule_changes (sec : PyHash.secret) (w : session)
  (node_name : string) (duration_seconds : Z) : outcome :=
  match monitor_sampling sec w duration_seconds with
  | (snapshots, None) =>
      Returned (monitor_success node_name duration_seconds (end_time w) snapshots)
  | (_, Some e) =>
      if caught_by_except_Exception e
      then Returned (monitor_error node_name (end_time w) e)
      else Propagated e
  end.

(** ** Comparison across nodes *)

Record rule_counts := {
  snat_rules : nat;
  lrp_rules : nat
}.

(** The result of [analyze_node_rules], with the keys the comparison or the
    claims read. *)
Inductive node_analysis :=
| AnalysisSuccess (counts : rule_counts) (snat : snat_analysis)
    (lrp : lrp_analysis) (check : consistency) (valid : validation)
| AnalysisError (error : string).

(** What the analysis of one node meets. *)
Record node_input := {
  node_snat_output : cmd_result;
  node_lrp_output : cmd_result;
  node_context : egressip_context
}.

Definition analyze_node_rules (inp : node_input) : node_analysis :=
  let snat_rules := _get_egressip_snat_rules (node_snat_output inp) in
  let lrp_rules := _get_egressip_lrp_rules (node_lrp_output inp) in
  let snat_analysis := _analyze_egressip_snat_rules snat_rules in
  match _analyze_egressip_lrp_rules lrp_rules with
  | Some lrp_analysis =>
      AnalysisSuccess
        {| snat_rules := length snat_rules; lrp_rules := length lrp_rules |}
        snat_analysis lrp_analysis
        (_check_egressip_rule_consistency snat_rules lrp_rules)
        (_validate_rules_against_egressips snat_rules lrp_rules
           (node_context inp))
  | None => AnalysisError (exn_message IndexError)
  end.

(** [d[k] = v] on a dict kept in insertion order. *)
Fixpoint dict_set {V} (k : string) (v : V) (d : list (string * V))
  : list (string * V) :=
  match d with
  | [] => [(k, v)]
  | (k', v') :: d' =>
      if String.eqb k k' then (k', v) :: d' else (k', v') :: dict_set k v d'
  end.

Definition _compare_egressip_rule_counts
  (node_analyses : list (string * node_analysis))
  : list (string * rule_counts) :=
  omap (fun '(node_name, analysis) =>
          match analysis with
          | AnalysisSuccess counts _ _ _ _ => Some (node_name, counts)
          | AnalysisError _ => None
          end) node_analyses.

Record node_content := {
  snat_external_ips : gset string;
  lrp_priorities : list Z
}.

Definition _compare_egressip_rule_content
  (node_analyses : list (string * node_analysis))
  : list (string * node_content) :=
  omap (fun '(node_name, analysis) =>
          match analysis with
          | AnalysisSuccess _ snat lrp _ _ =>
              Some (node_name,
                    {| snat_external_ips := external_ips snat;
                       lrp_priorities := priorities lrp |})
          | AnalysisError _ => None
          end) node_analyses.

Inductive inconsistency :=
| rule_count_mismatch (details : list (string * rule_counts))
| missing_snat_ips (node : string) (missing_ips : gset string).

(** [str(rc)] for a [rule_counts] dict. *)
Definition str_rule_counts (rc : rule_counts) : string :=
  "{'snat_rules': " +:+ pretty (snat_rules rc)
  +:+ ", 'lrp_rules': " +:+ pretty (lrp_rules rc) +:+ "}".

(** The union of the SNAT IPs of all nodes. *)
Definition all_snat_ips (content : list (string * node_content)) : gset string :=
  foldl (fun s '(_, node_data) => s ∪ snat_external_ips node_data) ∅ content.

Definition _identify_egressip_inconsistencies
  (rule_count_comparison : list (string * rule_counts))
  (rule_content_comparison : list (string * node_content))
  : list inconsistency :=
  let distinct_counts : gset string :=
    list_to_set (map (fun '(_, rc) => str_rule_counts rc) rule_count_comparison) in
  (if (1 <? size distinct_counts)%nat
   then [rule_count_mismatch rule_count_comparison] else [])
  ++
  (if (1 <? length rule_content_comparison)%nat
   then
     let all_snat_ips := all_snat_ips rule_content_comparison in
     omap (fun '(node_name, node_data) =>
             let missing_ips := all_snat_ips ∖ snat_external_ips node_data in
             if bool_decide (missing_ips = ∅) then None
             else Some (missing_snat_ips node_name missing_ips))
          rule_content_comparison
   else []).

(** [compare_egressip_rules_across_nodes]: [calls] lists, in order, the node
    names analysed and what the analysis of each met. *)
Definition node_analyses_of (calls : list (string * node_input))
  : list (string * node_analysis) :=
  foldl (fun d '(node_name, inp) => dict_set node_name (analyze_node_rules inp) d)
        [] calls.

Definition compare_inconsistencies (calls : list (string * node_input))
  : list inconsistency :=
  let node_analyses := node_analyses_of calls in
  _identify_egressip_inconsistencies
    (_compare_egressip_rule_counts node_analyses)
    (_compare_egressip_rule_content node_analyses).

End Analyzer.

(** ** Floating point numbers of the metrics collector

    A [float] is an IEEE 754 binary64 number, with the operations of the
    standard library's specification of floating point arithmetic (rounding
    to nearest, ties to even). *)

Module PyFloat64.

Definition prec : Z := 53.
Definition emax : Z := 1024.

Definition float : Type := spec_float.

(** [float(n)], and an [int] operand of a mixed operation. *)
Definition of_int (n : Z) : float := binary_normalize prec emax n 0 false.

Definition add : float -> float -> float := SFadd prec emax.
Definition sub : float -> float -> float := SFsub prec emax.
Definition mul : float -> float -> float := SFmul prec emax.
Definition div : float -> float -> float := SFdiv prec emax.

(** [x < y] and [x > y]; both are false when an operand is not a number. *)
Definition ltb (x y : float) : bool := SFltb x y.
Definition gtb (x y : float) : bool := SFltb y x.

End PyFloat64.

(** ** Trend of a series, from the metrics collector *)

Module Metrics.
Import PyFloat64.

(** [sum(values)] on floats: the additions are made from left to right,
    starting from 0. *)
Definition sum (values : list float) : float := foldl add (of_int 0) values.

Definition of_nat (n : nat) : float := of_int (Z.of_nat n).

Definition first_half_avg (values : list float) : float :=
  let mid_point := (length values / 2)%nat in
  if (0 <? mid_point)%nat
  then div (sum (take mid_point values)) (of_nat mid_point) else of_int 0.

Definition second_half_avg (values : list float) : float :=
  let mid_point := (length values / 2)%nat in
  div (sum (drop mid_point values)) (of_nat (length values - mid_point)).

Definition diff_percent (values : list float) : float :=
  let a := first_half_avg values in
  let b := second_half_avg values in
  if gtb a (of_int 0) then mul (div (sub b a) a) (of_int 100) else of_int 0.

Definition _simple_trend (values : list float) : string :=
  if (length values <? 2)%nat then "insufficient_data"
  else if gtb (diff_percent values) (of_int 10) then "increasing"
  else if ltb (diff_percent values) (of_int (-10)) then "decreasing"
  else "stable".

End Metrics.

(** ** Notions used to state the properties *)

(** A token: not empty, and no white space in it. *)
Definition is_token (t : string) : Prop :=
  t ≠ "" ∧ forallb (fun c => negb (PyStr.isspace c)) (PyStr.chars t) = true.

(** The issue recorded for a rule that did not parse. *)
Definition failed_to_parse (r : Analyzer.rule) : string :=
  "Failed to parse rule: " +:+ Analyzer.raw_rule r.

(** What the analysis of the policy rules takes from one rule: the
    priority it reads, and the issue it reports. *)
Definition priority_read (r : Analyzer.rule) : option Z :=
  if Analyzer.parsed_successfully r
  then match Analyzer.priority r with
       | Some p => if PyStr.truthy p then PyRepr.int p else None
       | None => None
       end
  else None.

Definition issue_reported (r : Analyzer.rule) : option string :=
  if Analyzer.parsed_successfully r
  then match Analyzer.priority r with
       | Some p =>
           if PyStr.truthy p
           then match PyRepr.int p with
                | Some _ => None
                | None => Some ("Invalid priority: " +:+ p)
                end
           else None
       | None => None
       end
  else Some (failed_to_parse r).

(** One to three decimal digits. *)
Definition is_octet (l : list ascii) : Prop :=
  (1 <= length l <= 3)%nat ∧ forallb PyStr.isdigit l = true.

(** An IP literal: four groups of one to three digits with dots between. *)
Definition is_ipv4_literal (s : string) : Prop :=
  ∃ a b c d, is_octet a ∧ is_octet b ∧ is_octet c ∧ is_octet d
    ∧ PyStr.chars s
      = a ++ PyRe.dot :: b ++ PyRe.dot :: c ++ PyRe.dot :: d.

(** [x] stands in [text] as a word of its own: no word character comes
    just before it or just after it. *)
Definition occurs_as_word (x text : string) : Prop :=
  ∃ pre post, PyStr.chars text = pre ++ PyStr.chars x ++ post
    ∧ PyRe.is_word_opt (last pre) = false
    ∧ PyRe.is_word_opt (head post) = false.

(** The sum of the counts of a dict of counters. *)
Definition total_count (d : list (string * nat)) : nat :=
  foldr (fun kv n => (kv.2 + n)%nat) O d.

(** Two snapshots that agree on the four counts and on the two hashes;
    their time stamps are not compared. *)
Definition same_rules (a b : Analyzer.snapshot) : bool :=
  (Analyzer.snat_count a =? Analyzer.snat_count b)%nat
  && (Analyzer.lrp_count a =? Analyzer.lrp_count b)%nat
  && (Analyzer.egressip_snat_count a =? Analyzer.egressip_snat_count b)%nat
  && (Analyzer.egressip_lrp_count a =? Analyzer.egressip_lrp_count b)%nat
  && (Analyzer.snat_rules_hash a =? Analyzer.snat_rules_hash b)
  && (Analyzer.lrp_rules_hash a =? Analyzer.lrp_rules_hash b).

(** How many snapshots of [rest] do not agree with the one taken just before
    them, [prev] being the one before the first. *)
Fixpoint changed_pairs (prev : Analyzer.snapshot)
  (rest : list Analyzer.snapshot) : nat :=
  match rest with
  | [] => 0
  | curr :: rest' =>
      ((if same_rules prev curr then 0 else 1) + changed_pairs curr rest')%nat
  end.

(** The count changes an event holds. *)
Definition count_changes_of (e : Analyzer.change_event)
  : list Analyzer.count_change :=
  omap id [Analyzer.snat_count_change e; Analyzer.lrp_count_change e;
           Analyzer.egressip_snat_count_change e;
           Analyzer.egressip_lrp_count_change e].

(** A string of decimal digits. *)
Definition digits (s : string) : bool :=
  forallb PyStr.isdigit (PyStr.chars s).

(** ** Recommendations, the EgressIP context and the report across nodes *)

Module Reports.
Import PyStr Analyzer.

Definition no_snat_rules_found : string :=
  "No EgressIP SNAT rules found - check if EgressIP objects are properly configured".
Definition snat_rules_failed_to_parse : string :=
  "Some EgressIP SNAT rules failed to parse - review OVN rule format".
Definition no_related_snat_rules : string :=
  "No EgressIP-related SNAT rules detected - verify EgressIP assignments".
Definition no_lrp_rules_found : string :=
  "No EgressIP LRP rules found - this may indicate OVN configuration issues".
Definition lrp_rules_failed_to_parse : string :=
  "Some EgressIP LRP rules failed to parse - review OVN rule format".
Definition no_related_lrp_rules : string :=
  "No EgressIP-related LRP rules detected - check logical router policies".
Definition poor_correlation : string :=
  "Poor correlation between EgressIP SNAT and LRP rules - investigate OVN rule synchronization".
Definition no_major_issues : string :=
  "EgressIP OVN rules analysis shows no major issues - monitoring and periodic validation recommended".

Definition missing_rules_message (n : nat) : string :=
  "Missing EgressIP SNAT rules for " +:+ pretty n
  +:+ " EgressIPs - check OVN rule creation".

Definition unexpected_rules_message (n : nat) : string :=
  "Found " +:+ pretty n +:+ " unexpected EgressIP SNAT rules - check for stale rules".

(** The [if]/[elif] chain on the SNAT summary. *)
Definition snat_recommendations (a : snat_analysis) : list string :=
  if (sa_total_rules a =? 0)%nat then [no_snat_rules_found]
  else if (sa_parsed_successfully a <? sa_total_rules a)%nat
       then [snat_rules_failed_to_parse]
  else if (sa_egressip_related a =? 0)%nat then [no_related_snat_rules]
  else [].

(** The [if]/[elif] chain on the LRP summary. *)
Definition lrp_recommendations (a : lrp_analysis) : list string :=
  if (la_total_rules a =? 0)%nat then [no_lrp_rules_found]
  else if (la_parsed_successfully a <? la_total_rules a)%nat
       then [lrp_rules_failed_to_parse]
  else if (la_egressip_related a =? 0)%nat then [no_related_lrp_rules]
  else [].

(** [consistency_check["consistency_score"] < 0.5]; a score that is not a
    number cannot be compared with one ([TypeError], here [None]). *)
Definition score_below_half (c : consistency) : option bool :=
  match consistency_score c with
  | PyFloat q => Some (Qgtb (5 # 10) q)
  | _ => None
  end.

(** [validation_summary.get(key, 0)], the summary being the empty dict when
    no validation was made. *)
Definition summary_count (f : validation_summary -> nat) (v : validation) : nat :=
  match summary v with Some s => f s | None => O end.

Definition validation_recommendations (v : validation) : list string :=
  if validation_possible v
  then (if (0 <? summary_count missing_rules_count v)%nat
        then [missing_rules_message (summary_count missing_rules_count v)] else [])
       ++ (if (0 <? summary_count unexpected_rules_count v)%nat
           then [unexpected_rules_message (summary_count unexpected_rules_count v)]
           else [])
  else [].

Definition _generate_egressip_recommendations (snat : snat_analysis)
  (lrp : lrp_analysis) (consistency_check : consistency)
  (validation_results : validation) : option (list string) :=
  below ← score_below_half consistency_check;
  let recommendations :=
    snat_recommendations snat ++ lrp_recommendations lrp
    ++ (if below : bool then [poor_correlation] else [])
    ++ validation_recommendations validation_results in
  Some (match recommendations with
        | [] => [no_major_issues]
        | _ => recommendations
        end).

(** The recommendations made before the all-clear message is decided, for a
    score known to be below one half or not. *)
Definition findings (snat : snat_analysis) (lrp : lrp_analysis)
  (below : bool) (valid : validation) : list string :=
  snat_recommendations snat ++ lrp_recommendations lrp
  ++ (if below then [poor_correlation] else [])
  ++ validation_recommendations valid.

(** The recommendations of [analyze_node_rules] for what it met on a node;
    [None] when building the result raises. *)
Definition node_recommendations (inp : node_input) : option (list string) :=
  match analyze_node_rules inp with
  | AnalysisSuccess _ snat lrp check valid =>
      _generate_egressip_recommendations snat lrp check valid
  | AnalysisError _ => None
  end.

Definition rule_count_mismatch_message : string :=
  "Rule count mismatch detected across nodes - verify EgressIP distribution".
Definition consistent_across_nodes : string :=
  "EgressIP rules are consistent across all analyzed nodes".

Definition inconsistency_message (i : inconsistency) : string :=
  match i with
  | rule_count_mismatch _ => rule_count_mismatch_message
  | missing_snat_ips node _ =>
      "Missing SNAT IPs on " +:+ node +:+ " - check EgressIP assignment"
  end.

Definition _generate_multi_node_egressip_recommendations
  (inconsistencies : list inconsistency) : list string :=
  map inconsistency_message inconsistencies
  ++ match inconsistencies with [] => [consistent_across_nodes] | _ => [] end.

(** The part of the result of [compare_egressip_rules_across_nodes] computed
    from the analyses. *)
Record comparison := {
  rule_count_comparison : list (string * rule_counts);
  rule_content_comparison : list (string * node_content);
  inconsistencies : list inconsistency;
  overall_consistency : bool;
  recommendations : list string
}.

Definition compare_egressip_rules_across_nodes
  (calls : list (string * node_input)) : comparison :=
  let node_analyses := node_analyses_of calls in
  let counts := _compare_egressip_rule_counts node_analyses in
  let content := _compare_egressip_rule_content node_analyses in
  let found := _identify_egressip_inconsistencies counts content in
  {| rule_count_comparison := counts;
     rule_content_comparison := content;
     inconsistencies := found;
     overall_consistency := (length found =? 0)%nat;
     recommendations := _generate_multi_node_egressip_recommendations found |}.

(** One entry of [status.items] of an EgressIP object: the keys [egressIP]
    and [node], when present. *)
Record status_item := {
  item_egressIP : option string;
  item_node : option string
}.

(** An item of [oc get egressips -o json]: [metadata] is [None] without the
    key [metadata], [Some None] when the metadata has no [name]. *)
Record egressip_object := {
  metadata : option (option string);
  spec_egressIPs : list string;
  status_items : list status_item
}.

(** What the command of [_get_egressip_context] gave: the items of the
    decoded output, or an error text (a non-zero return code, or whatever
    running the command or decoding its output raised). *)
Inductive egressips_output :=
| EgressIPItems (items : list egressip_object)
| EgressIPsFailed (error : string).

(** [item['metadata']['name']]: the name, or the key that is missing. *)
Definition object_name (o : egressip_object) : string + string :=
  match metadata o with
  | None => inl "metadata"
  | Some None => inl "name"
  | Some (Some n) => inr n
  end.

(** The loop over the items: the IPs of the status items seen so far, or the
    key whose absence ended it. *)
Fixpoint assigned_ips_of (items : list egressip_object) (seen : gset string)
  : string + gset string :=
  match items with
  | [] => inr seen
  | o :: items' =>
      match object_name o with
      | inl key => inl key
      | inr _ =>
          assigned_ips_of items'
            (foldl (fun s i => match item_egressIP i with
                               | Some ip => s ∪ {[ ip ]}
                               | None => s
                               end) seen (status_items o))
      end
  end.

(** [_get_egressip_context], for the keys the validation reads.  The list
    made of the set of assigned IPs is given in the order of [elements]. *)
Definition _get_egressip_context (out : egressips_output) : egressip_context :=
  match out with
  | EgressIPItems items =>
      match assigned_ips_of items ∅ with
      | inr ips =>
          {| available := true;
             total_assigned_ips := elements ips;
             context_error := None |}
      | inl key =>
          {| available := false;
             total_assigned_ips := [];
             context_error := Some (PyRepr.repr key) |}
      end
  | EgressIPsFailed error =>
      {| available := false;
         total_assigned_ips := [];
         context_error := Some error |}
  end.

End Reports.

(** ** The metrics collector on the analyzer *)

Module Collector.
Import PyStr Analyzer.

(** A key that a dict does not have. *)
Inductive key_error := KeyError (key : string).

(** [str(e)] for a [KeyError]: the representation of the key. *)
Definition key_error_message (e : key_error) : string :=
  match e with KeyError key => PyRepr.repr key end.

(** [rule_counts[key]] on the dict [analyze_node_rules] builds, whose keys
    are [snat_rules] and [lrp_rules]. *)
Definition rule_counts_item (rc : rule_counts) (key : string) : key_error + nat :=
  if String.eqb key "snat_rules" then inr (snat_rules rc)
  else if String.eqb key "lrp_rules" then inr (lrp_rules rc)
  else inl (KeyError key).

Record node_metric := {
  egressip_snat_rules_count : nat;
  egressip_lrp_rules_count : nat;
  egressip_parsing_errors : nat;
  egressip_consistency_score : py_value;
  metric_error : option string
}.

(** The metric returned when the analyzer module cannot be imported. *)
Definition mock_metric : node_metric :=
  {| egressip_snat_rules_count := 0;
     egressip_lrp_rules_count := 0;
     egressip_parsing_errors := 0;
     egressip_consistency_score := PyFloat 0;
     metric_error := Some "EgressIP OVN analyzer not available" |}.

(** [_collect_egressip_node_ovn_metrics]; [importable] tells whether the
    import of the analyzer module succeeds. *)
Definition _collect_egressip_node_ovn_metrics (importable : bool)
  (inp : node_input) : key_error + node_metric :=
  if importable
  then match analyze_node_rules inp with
       | AnalysisSuccess counts snat lrp check _ =>
           match rule_counts_item counts "egressip_snat_rules" with
           | inl e => inl e
           | inr snat_count =>
               match rule_counts_item counts "egressip_lrp_rules" with
               | inl e => inl e
               | inr lrp_count =>
                   inr {| egressip_snat_rules_count := snat_count;
                          egressip_lrp_rules_count := lrp_count;
                          egressip_parsing_errors :=
                            length (sa_potential_issues snat)
                            + length (la_potential_issues lrp);
                          egressip_consistency_score := consistency_score check;
                          metric_error := None |}
               end
           end
       | AnalysisError error =>
           inr {| egressip_snat_rules_count := 0;
                  egressip_lrp_rules_count := 0;
                  egressip_parsing_errors := 1;
                  egressip_consistency_score := PyFloat 0;
                  metric_error := Some error |}
       end
  else inr mock_metric.

(** What [collect_egressip_ovn_rule_metrics] leaves: the result it returns
    and the rows it handed to the store, oldest first. *)
Record collection := {
  collect_status : string;
  collect_error : option string;
  egressip_nodes_analyzed : option nat;
  egressip_ovn_metrics : list (string * node_metric);
  stored_rows : list (string * node_metric)
}.

(** The loop over the node names: the metrics collected so far, which are
    also the rows stored, or the exception that ended it and the rows stored
    before. *)
Fixpoint collect_loop (importable : bool) (calls : list (string * node_input))
  (so_far : list (string * node_metric))
  : key_error * list (string * node_metric) + list (string * node_metric) :=
  match calls with
  | [] => inr so_far
  | (node_name, inp) :: calls' =>
      match _collect_egressip_node_ovn_metrics importable inp with
      | inl e => inl (e, so_far)
      | inr m => collect_loop importable calls' (so_far ++ [(node_name, m)])
      end
  end.

Definition collect_egressip_ovn_rule_metrics (importable : bool)
  (calls : list (string * node_input)) : collection :=
  match collect_loop importable calls [] with
  | inr metrics =>
      {| collect_status := "success";
         collect_error := None;
         egressip_nodes_analyzed := Some (length calls);
         egressip_ovn_metrics := metrics;
         stored_rows := metrics |}
  | inl (e, stored) =>
      {| collect_status := "error";
         collect_error := Some (key_error_message e);
         egressip_nodes_analyzed := None;
         egressip_ovn_metrics := [];
         stored_rows := stored |}
  end.

(** The metrics of one EgressIP object, or the record of a failure. *)
Record egressip_metric := {
  egressip_name : string;
  egressip_status : option string;
  egressip_pod_count : option nat;
  egressip_assigned_nodes : gset string;
  egressip_assigned_ips : gset string;
  egressip_metric_error : option string
}.

(** [set(item.get(key, '') for item in items if item.get(key))] *)
Definition truthy_values (f : Reports.status_item -> option string)
  (items : list Reports.status_item) : gset string :=
  list_to_set (omap (fun i => match f i with
                              | Some x => if truthy x then Some x else None
                              | None => None
                              end) items).

(** [_get_egressip_pod_assignments]: the empty dict. *)
Definition _get_egressip_pod_assignments : list (string * list string) := [].

(** [len(d.get(name, []))] *)
Definition assigned_pod_count (d : list (string * list string)) (name : string)
  : nat :=
  match List.find (fun '(k, _) => String.eqb k name) d with
  | Some (_, pods) => length pods
  | None => O
  end.

Definition _process_egressip_object (o : Reports.egressip_object)
  (egressip_pod_assignments : list (string * list string)) : egressip_metric :=
  match Reports.object_name o with
  | inr name =>
      {| egressip_name := name;
         egressip_status :=
           Some (if (length (Reports.status_items o)
                     =? length (Reports.spec_egressIPs o))%nat then "ready"
                 else if (0 <? length (Reports.status_items o))%nat then "partial"
                 else "pending");
         egressip_pod_count := Some (assigned_pod_count egressip_pod_assignments name);
         egressip_assigned_nodes :=
           truthy_values Reports.item_node (Reports.status_items o);
         egressip_assigned_ips :=
           truthy_values Reports.item_egressIP (Reports.status_items o);
         egressip_metric_error := None |}
  | inl key =>
      {| egressip_name := "unknown";
         egressip_status := None;
         egressip_pod_count := None;
         egressip_assigned_nodes := ∅;
         egressip_assigned_ips := ∅;
         egressip_metric_error := Some (PyRepr.repr key) |}
  end.

(** The metrics [collect_egressip_metrics] builds from the objects it got. *)
Definition collected_egressip_metrics (objects : list Reports.egressip_object)
  : list egressip_metric :=
  map (fun o => _process_egressip_object o _get_egressip_pod_assignments) objects.

End Collector.

(** ** Inputs of the examples *)

Import PyStr Analyzer.

(** Two NAT lines, in two orders. *)
Definition two_snat_lines : string :=
  "snat 10.0.0.6 192.168.1.11 port2"
  +:+ String newline "snat 10.0.0.5 192.168.1.10 port1".

Definition two_snat_lines_swapped : string :=
  "snat 10.0.0.5 192.168.1.10 port1"
  +:+ String newline "snat 10.0.0.6 192.168.1.11 port2".

(** A session on a node with one NAT rule and one policy rule, never
    cancelled. *)
Definition quiet_session : session :=
  {| observe := fun _ =>
       {| snat_output := CmdOk "snat 10.0.0.5 192.168.1.10 port1";
          lrp_output := CmdOk "100 ip4.src==192.168.1.10 reroute 10.0.0.5";
          utcnow := "2024-01-01T00:00:00" |};
     cancelled_in_sleep := fun _ => false;
     end_time := "2024-01-01T00:00:05" |}.

(** The hash key of an interpreter started with PYTHONHASHSEED set to 1. *)
Definition seed1 : PyHash.secret := PyHash.secret_of_seed 1.

(** No EgressIP context at hand. *)
Definition no_context : egressip_context :=
  {| available := false; total_assigned_ips := []; context_error := None |}.

(** Scenario C: node1 has the NAT rule of 10.0.0.5, node2 has the rules of
    10.0.0.5 and 10.0.0.6. *)
Definition scenario_c : list (string * node_input) :=
  [("node1",
    {| node_snat_output := CmdOk "snat 10.0.0.5 192.168.1.10 port1";
       node_lrp_output := CmdOk "";
       node_context := no_context |});
   ("node2",
    {| node_snat_output := CmdOk two_snat_lines;
       node_lrp_output := CmdOk "";
       node_context := no_context |})].

(** ** Inputs of the further examples *)

(** A node with the NAT rules of 10.0.0.6 and 10.0.0.5 and one policy rule,
    which refers to 10.0.0.5 only. *)
Definition half_covered_node : node_input :=
  {| node_snat_output := CmdOk two_snat_lines;
     node_lrp_output := CmdOk "100 ip4.src==192.168.1.10 reroute 10.0.0.5";
     node_context := no_context |}.

(** The context when 10.0.0.5 is the one IP assigned. *)
Definition one_assigned_ip : egressip_context :=
  {| available := true;
     total_assigned_ips := ["10.0.0.5"];
     context_error := None |}.

(** Two snapshots a NAT rule apart. *)
Definition snapshot_before : snapshot :=
  {| timestamp := "2024-01-01T00:00:00";
     snat_count := 1; lrp_count := 1;
     egressip_snat_count := 1; egressip_lrp_count := 1;
     snat_rules_hash := 11; lrp_rules_hash := 7 |}.

Definition snapshot_after : snapshot :=
  {| timestamp := "2024-01-01T00:00:30";
     snat_count := 2; lrp_count := 1;
     egressip_snat_count := 2; egressip_lrp_count := 1;
     snat_rules_hash := 12; lrp_rules_hash := 7 |}.

(** The session of [quiet_session], cancelled in its third sleep. *)
Definition cancelled_session : session :=
  {| observe := observe quiet_session;
     cancelled_in_sleep := fun i => (i =? 2)%nat;
     end_time := end_time quiet_session |}.

(** One EgressIP object, its IP assigned to a node. *)
Definition assigned_object : Reports.egressip_object :=
  {| Reports.metadata := Some (Some "egress-a");
     Reports.spec_egressIPs := ["10.0.0.5"];
     Reports.status_items :=
       [{| Reports.item_egressIP := Some "10.0.0.5";
           Reports.item_node := Some "worker-0" |}] |}.


(** Three policy lines: the priorities of the second and of the third are
    no integers. *)
Definition three_policy_lines : list string :=
  ["100 ip4.src==192.168.1.10 reroute 10.0.0.5";
   "abc ip4.src==192.168.1.11 reroute 10.0.0.6";
   "1e3 ip4.src==192.168.1.12 allow"].

(** * Properties *)

(** ** Facts on splitting and stripping *)

Section SplitFacts.

Lemma chars_str (l : list ascii) : chars (str l) = l.
Proof. apply list_ascii_of_string_of_list_ascii. Qed.

Lemma str_chars (s : string) : str (chars s) = s.
Proof. apply string_of_list_ascii_of_string. Qed.

Lemma truthy_str_cons (c : ascii) (l : list ascii) : truthy (str (c :: l)) = true.
Proof. reflexivity. Qed.

Lemma lstrip_chars_head (l : list ascii) (c : ascii) (r : list ascii) :
  lstrip_chars l = c :: r → isspace c = false.
Proof.
  induction l as [|a l IH]; simpl; [discriminate|].
  destruct (isspace a) eqn:Ha; [exact IH|].
  intros [= <- _]. exact Ha.
Qed.

(** A list is a run of white space followed by what [lstrip_chars] keeps. *)
Lemma lstrip_chars_split (l : list ascii) :
  ∃ ws, forallb isspace ws = true ∧ l = ws ++ lstrip_chars l.
Proof.
  induction l as [|a l (ws & Hws & Hl)]; simpl.
  - by exists [].
  - destruct (isspace a) eqn:Ha.
    + exists (a :: ws). simpl. rewrite Ha, Hws. split; [done|]. by f_equal.
    + by exists [].
Qed.

Lemma split_go_spaces (cur ws : list ascii) :
  forallb isspace ws = true →
  split_go cur ws = match cur with [] => [] | _ => [str (rev cur)] end.
Proof.
  revert cur. induction ws as [|c ws IH]; intros cur H; simpl in *; [done|].
  apply andb_true_iff in H as [Hc Hws]. rewrite Hc.
  destruct cur; rewrite (IH [] Hws); done.
Qed.

Lemma split_go_skip_spaces (ws l : list ascii) :
  forallb isspace ws = true → split_go [] (ws ++ l) = split_go [] l.
Proof.
  induction ws as [|c ws IH]; simpl; [done|].
  intros H. apply andb_true_iff in H as [-> Hws]. by apply IH.
Qed.

Lemma split_go_drop_spaces (cur l ws : list ascii) :
  forallb isspace ws = true → split_go cur (l ++ ws) = split_go cur l.
Proof.
  intros Hws. revert cur. induction l as [|c l IH]; intros cur; simpl.
  - rewrite split_go_spaces by done. by destruct cur.
  - destruct (isspace c); [destruct cur|]; by rewrite IH.
Qed.

(** Stripping a line does not change its tokens. *)
Lemma split_strip (s : string) : split (strip s) = split s.
Proof.
  unfold split, strip. rewrite chars_str.
  destruct (lstrip_chars_split (chars s)) as (ws & Hws & Hs).
  destruct (lstrip_chars_split (rev (lstrip_chars (chars s)))) as (ws' & Hws' & Hr).
  set (core := rev (lstrip_chars (rev (lstrip_chars (chars s))))) in *.
  assert (Hl : lstrip_chars (chars s) = core ++ rev ws').
  { rewrite <- (rev_involutive (lstrip_chars (chars s))), Hr.
    by rewrite rev_app_distr. }
  transitivity (split_go [] (lstrip_chars (chars s))).
  - rewrite Hl. rewrite split_go_drop_spaces; [done|].
    rewrite forallb_forall in *. intros x Hx. apply Hws'. by apply in_rev.
  - symmetry. etransitivity; [|by apply (split_go_skip_spaces ws)].
    by rewrite <- Hs.
Qed.

Lemma split_go_nonempty (cur l : list ascii) : cur ≠ [] → split_go cur l ≠ [].
Proof.
  revert cur. induction l as [|c l IH]; intros cur Hcur; simpl.
  - by destruct cur.
  - destruct (isspace c); [by destruct cur|]. by apply IH.
Qed.

(** The head of a token is not white space, so the token is not empty. *)
Lemma span_token_head (c : ascii) (l : list ascii) :
  isspace c = false → ∃ t r, span_token (c :: l) = (c :: t, r).
Proof.
  intros Hc. simpl. rewrite Hc. destruct (span_token l) as [t r]. by eauto.
Qed.

(** The three parts of a line split at most twice: two tokens and a rest
    that starts with a character other than white space. *)
Lemma split_max_three (s : string) :
  (3 <= length (split_max s 2))%nat →
  ∃ c1 t1 c2 t2 c3 r3,
    split_max s 2 = [str (c1 :: t1); str (c2 :: t2); str (c3 :: r3)]
    ∧ isspace c3 = false.
Proof.
  unfold split_max. generalize (chars s) as l. intros l. simpl.
  destruct (lstrip_chars l) as [|c1 r1] eqn:H1; simpl; [lia|].
  destruct (span_token_head c1 r1 (lstrip_chars_head _ _ _ H1)) as (t1 & q1 & E1).
  simpl in E1. rewrite E1.
  destruct (lstrip_chars q1) as [|c2 r2] eqn:H2; simpl; [lia|].
  destruct (span_token_head c2 r2 (lstrip_chars_head _ _ _ H2)) as (t2 & q2 & E2).
  simpl in E2. rewrite E2.
  destruct (lstrip_chars q2) as [|c3 r3] eqn:H3; simpl; [lia|].
  intros _. exists c1, t1, c2, t2, c3, r3. split; [done|].
  by eapply lstrip_chars_head.
Qed.

End SplitFacts.

(** ** The line parsers *)

(** C9. A NAT line with fewer than four white-space separated tokens, or
    whose first token is not [snat] up to letter case, is parsed into the
    failure record: [parsed_successfully] is false and [raw_rule] is the line
    as given.  The parser is a total function: it gives a record, with the
    line as [raw_rule], on every line. *)
Theorem snat_parse_failure_keeps_raw_line (rule_line : string) :
  (length (split rule_line) < 4)%nat
  ∨ lower (item (split rule_line) 0) ≠ "snat" →
  _parse_egressip_snat_rule rule_line = failed_rule "snat" rule_line
  ∧ parsed_successfully (_parse_egressip_snat_rule rule_line) = false
  ∧ raw_rule (_parse_egressip_snat_rule rule_line) = rule_line.
Proof.
  intros H.
  assert (E : _parse_egressip_snat_rule rule_line = failed_rule "snat" rule_line).
  { unfold _parse_egressip_snat_rule. rewrite split_strip.
    destruct H as [H|H].
    - apply Nat.leb_gt in H. by rewrite H.
    - apply String.eqb_neq in H. rewrite H. by rewrite andb_false_r. }
  by rewrite E.
Qed.

Lemma snat_parse_failure_witness :
  let line := "  SNAT 10.0.0.5 192.168.1.10 " in
  _parse_egressip_snat_rule line = failed_rule "snat" line
  ∧ parsed_successfully (_parse_egressip_snat_rule line) = false
  ∧ raw_rule (_parse_egressip_snat_rule line) = line.
Proof.
  apply (snat_parse_failure_keeps_raw_line "  SNAT 10.0.0.5 192.168.1.10 ").
  left. vm_compute. lia.
Defined.

(** One turn of the analysis loop does not fail on a parsed policy line. *)
Lemma lrp_step_on_parsed_line (st : lrp_state) (line : string) :
  is_Some (lrp_step st (_parse_egressip_lrp_rule line)).
Proof.
  unfold _parse_egressip_lrp_rule.
  destruct (3 <=? length (split_max (strip line) 2))%nat eqn:E; [|by eexists].
  apply Nat.leb_le in E.
  destruct (split_max_three _ E) as (c1 & t1 & c2 & t2 & c3 & r3 & Hp & Hc3).
  unfold lrp_step. cbn [parsed_successfully action]. rewrite Hp.
  unfold item. cbn [nth]. rewrite truthy_str_cons.
  unfold split. rewrite chars_str. cbn [split_go]. rewrite Hc3.
  destruct (split_go [c3] r3) as [|w ws] eqn:E2; [|by eexists].
  by apply split_go_nonempty in E2.
Qed.

(** The loop of the analysis adds, in the order of the rules, the
    priorities read to the list of priorities and the issues reported to the
    list of issues, and takes nothing away from either. *)
Lemma lrp_step_reads (st st' : lrp_state) (r : rule) :
  lrp_step st r = Some st' →
  st_priorities st' = st_priorities st ++ option_list (priority_read r)
  ∧ st_issues st' = st_issues st ++ option_list (issue_reported r).
Proof.
  unfold lrp_step, lrp_priority_step, priority_read, issue_reported.
  destruct (parsed_successfully r).
  - intros H.
    assert (G : ∀ s : lrp_state,
      match action r with
      | Some a =>
          if truthy a
          then match split a with
               | w :: _ =>
                   Some {| st_priorities := st_priorities s;
                           st_action_types := count_up w (st_action_types s);
                           st_issues := st_issues s |}
               | [] => None
               end
          else Some s
      | None => Some s
      end = Some st' →
      st_priorities st' = st_priorities s ∧ st_issues st' = st_issues s).
    { intros s Hs. destruct (action r) as [a|]; [|by injection Hs as <-].
      destruct (truthy a); [|by injection Hs as <-].
      destruct (split a); [done|]. by injection Hs as <-. }
    apply G in H as [-> ->].
    destruct (priority r) as [p|]; [|by rewrite !app_nil_r].
    destruct (truthy p); [|by rewrite !app_nil_r].
    destruct (PyRepr.int p); cbn; by rewrite ?app_nil_r.
  - intros [= <-]. cbn. by rewrite app_nil_r.
Qed.

Lemma lrp_loop_reads (rules : list rule) (st st' : lrp_state) :
  lrp_loop st rules = Some st' →
  st_priorities st' = st_priorities st ++ omap priority_read rules
  ∧ st_issues st' = st_issues st ++ omap issue_reported rules.
Proof.
  revert st. induction rules as [|r rules IH]; intros st; cbn [lrp_loop].
  - intros [= <-]. by rewrite !app_nil_r.
  - destruct (lrp_step st r) as [st1|] eqn:E; [|done].
    intros H. apply IH in H as [-> ->].
    apply lrp_step_reads in E as [-> ->].
    rewrite <- !app_assoc. cbn [omap list_omap].
    by destruct (priority_read r), (issue_reported r).
Qed.

Lemma lrp_analysis_reads (rules : list rule) (a : lrp_analysis) :
  _analyze_egressip_lrp_rules rules = Some a →
  priorities a = omap priority_read rules
  ∧ la_potential_issues a = omap issue_reported rules.
Proof.
  unfold _analyze_egressip_lrp_rules.
  destruct (lrp_loop _ rules) as [st|] eqn:E; [|done].
  intros [= <-]. by apply lrp_loop_reads in E.
Qed.

Lemma omap_around {A B} (f : A → option B) (before after : list A) (x : A) :
  omap f (before ++ x :: after)
  = omap f before ++ option_list (f x) ++ omap f after.
Proof.
  induction before as [|y before IH]; cbn [app omap list_omap].
  - by destruct (f x).
  - rewrite IH. by destruct (f y).
Qed.

(** The analysis returns on the records of any policy lines. *)
Lemma lrp_loop_on_parsed_lines (lines : list string) (st : lrp_state) :
  is_Some (lrp_loop st (map _parse_egressip_lrp_rule lines)).
Proof.
  revert st. induction lines as [|line lines IH]; intros st; [by eexists|].
  cbn [map lrp_loop].
  destruct (lrp_step_on_parsed_line st line) as [st' ->]. apply IH.
Qed.

(** C3, as the code has it. For every policy (LRP) line with at least three
    segments the parser returns a record with [parsed_successfully] true,
    whether or not the first segment reads as an integer; the priority is
    kept as text and [raw_rule] is the line.  The priority is read
    afterwards, by the analysis: in the analysis of any list of rules that
    holds the record, a priority that is not an integer is reported as the
    issue [Invalid priority: ...], at the place of the record among the
    issues of the other rules, and is left out of the list of priorities,
    which keeps the priorities of the other rules; a priority that is an
    integer goes into the list of priorities, at the place of the record,
    and no issue is reported for it.  The analysis returns on the records of
    any policy lines. *)
Theorem lrp_parse_keeps_any_priority (rule_line : string) :
  (3 <= length (split_max (strip rule_line) 2))%nat →
  let r := _parse_egressip_lrp_rule rule_line in
  let p := item (split_max (strip rule_line) 2) 0 in
  parsed_successfully r = true
  ∧ raw_rule r = rule_line
  ∧ priority r = Some p
  ∧ (PyRepr.int p = None →
     ∀ before after a,
       _analyze_egressip_lrp_rules (before ++ r :: after) = Some a →
       priorities a = omap priority_read before ++ omap priority_read after
       ∧ la_potential_issues a
         = omap issue_reported before ++ ["Invalid priority: " +:+ p]
           ++ omap issue_reported after)
  ∧ (∀ n, PyRepr.int p = Some n →
     ∀ before after a,
       _analyze_egressip_lrp_rules (before ++ r :: after) = Some a →
       priorities a
       = omap priority_read before ++ [n] ++ omap priority_read after
       ∧ la_potential_issues a
         = omap issue_reported before ++ omap issue_reported after)
  ∧ ∀ lines_before lines_after,
      is_Some (_analyze_egressip_lrp_rules
                 (map _parse_egressip_lrp_rule
                      (lines_before ++ rule_line :: lines_after))).
Proof.
  intros H r p.
  assert (Hr : r = {| rule_type := "lrp";
          external_ip := None; logical_ip := None; logical_port := None;
          priority := Some p;
          rule_match := Some (item (split_max (strip rule_line) 2) 1);
          action := Some (item (split_max (strip rule_line) 2) 2);
          raw_rule := rule_line;
          parsed_successfully := true;
          egressip_related := _is_egressip_related_lrp rule_line |}).
  { subst r p. unfold _parse_egressip_lrp_rule.
    apply Nat.leb_le in H. by rewrite H. }
  destruct (split_max_three _ H) as (c1 & t1 & c2 & t2 & c3 & r3 & E & Hc3).
  assert (Ht : truthy p = true).
  { subst p. rewrite E. reflexivity. }
  assert (Hread : priority_read r = PyRepr.int p).
  { rewrite Hr. unfold priority_read. cbn [parsed_successfully priority].
    by rewrite Ht. }
  assert (Hissue : issue_reported r
                   = match PyRepr.int p with
                     | Some _ => None
                     | None => Some ("Invalid priority: " +:+ p)
                     end).
  { rewrite Hr. unfold issue_reported. cbn [parsed_successfully priority].
    by rewrite Ht. }
  split; [by rewrite Hr|]. split; [by rewrite Hr|]. split; [by rewrite Hr|].
  split; [|split].
  - intros Hint before after a Ha.
    apply lrp_analysis_reads in Ha as [-> ->].
    rewrite !omap_around, Hread, Hissue, Hint. done.
  - intros n Hint before after a Ha.
    apply lrp_analysis_reads in Ha as [-> ->].
    rewrite !omap_around, Hread, Hissue, Hint. done.
  - intros lines_before lines_after. unfold _analyze_egressip_lrp_rules.
    destruct (lrp_loop_on_parsed_lines
      (lines_before ++ rule_line :: lines_after)
      {| st_priorities := []; st_action_types := []; st_issues := [] |})
      as [st ->].
    by eexists.
Qed.

Lemma lrp_parse_keeps_any_priority_witness :
  (let line := "abc ip4.src==192.168.1.11 reroute 10.0.0.6" in
   let r := _parse_egressip_lrp_rule line in
   parsed_successfully r = true
   ∧ raw_rule r = line
   ∧ priority r = Some "abc"
   ∧ (PyRepr.int "abc" = None →
      ∀ before after a,
        _analyze_egressip_lrp_rules (before ++ r :: after) = Some a →
        priorities a = omap priority_read before ++ omap priority_read after
        ∧ la_potential_issues a
          = omap issue_reported before ++ ["Invalid priority: abc"]
            ++ omap issue_reported after)
   ∧ (∀ n, PyRepr.int "abc" = Some n →
      ∀ before after a,
        _analyze_egressip_lrp_rules (before ++ r :: after) = Some a →
        priorities a
        = omap priority_read before ++ [n] ++ omap priority_read after
        ∧ la_potential_issues a
          = omap issue_reported before ++ omap issue_reported after)
   ∧ ∀ lines_before lines_after,
       is_Some (_analyze_egressip_lrp_rules
                  (map _parse_egressip_lrp_rule
                       (lines_before ++ line :: lines_after))))
  ∧ ∃ a, _analyze_egressip_lrp_rules
           (map _parse_egressip_lrp_rule three_policy_lines) = Some a
         ∧ priorities a = [100]
         ∧ la_potential_issues a
           = ["Invalid priority: abc"; "Invalid priority: 1e3"].
Proof.
  split.
  - apply (lrp_parse_keeps_any_priority
             "abc ip4.src==192.168.1.11 reroute 10.0.0.6").
    vm_compute. lia.
  - eexists. split; [by vm_compute|]. split; by vm_compute.
Defined.

(** C3, as stated, fails: this line has three segments and a first segment
    that [int] rejects, and the parser marks it as parsed. *)
Lemma lrp_parse_non_integer_priority_counterexample :
  let line := "abc ip4.src==192.168.1.10 reroute 10.0.0.5" in
  split_max (strip line) 2 = ["abc"; "ip4.src==192.168.1.10"; "reroute 10.0.0.5"]
  ∧ PyRepr.int "abc" = None
  ∧ parsed_successfully (_parse_egressip_lrp_rule line) ≠ false.
Proof. vm_compute. repeat split; discriminate. Qed.

(** ** The two sets the consistency check compares *)

Section RelevantSets.

Lemma elem_of_add_if_truthy (o : option string) (s : gset string) (x : string) :
  x ∈ add_if_truthy o s ↔ x ∈ s ∨ (o = Some x ∧ truthy x = true).
Proof.
  unfold add_if_truthy. destruct o as [y|]; [destruct (truthy y) eqn:Hy|].
  - rewrite elem_of_union, elem_of_singleton. split.
    + intros [?| ->]; [by left|by right].
    + intros [?|[[= ->] _]]; [by left|by right].
  - split; [by left|]. intros [?|[[= ->] ?]]; [done|congruence].
  - split; [by left|]. by intros [?|[? _]].
Qed.

Lemma elem_of_snat_fold (rules : list rule) (acc : gset string) (x : string) :
  x ∈ foldl (fun s r => if counts_as_egressip_snat r
                        then add_if_truthy (external_ip r) s else s) acc rules
  ↔ x ∈ acc ∨ ∃ r, r ∈ rules ∧ counts_as_egressip_snat r = true
                   ∧ external_ip r = Some x.
Proof.
  revert acc. induction rules as [|r rules IH]; intros acc; simpl.
  - split; [by left|]. intros [?|(r & Hr & _)]; [done|]. by apply elem_of_nil in Hr.
  - rewrite IH. destruct (counts_as_egressip_snat r) eqn:Hc.
    + rewrite elem_of_add_if_truthy. split.
      * intros [[?|[Hx _]]|(r' & Hr' & ?)]; [by left| |].
        -- right. exists r. split; [by left|done].
        -- right. exists r'. split; [by right|done].
      * intros [?|(r' & Hr' & Hc' & Hx)]; [by left; left|].
        apply elem_of_cons in Hr' as [->|Hr'].
        -- left. right. split; [done|].
           unfold counts_as_egressip_snat, get_truthy in Hc. rewrite Hx in Hc.
           by destruct (truthy x); [|rewrite andb_false_r in Hc].
        -- right. by exists r'.
    + split.
      * intros [?|(r' & Hr' & ?)]; [by left|]. right. exists r'. split; [by right|done].
      * intros [?|(r' & Hr' & Hc' & Hx)]; [by left|].
        apply elem_of_cons in Hr' as [->|Hr']; [congruence|]. right. by exists r'.
Qed.

(** The NAT side: external IPs of the rules that are parsed, have an
    external IP and are EgressIP related. *)
Lemma elem_of_egressip_snat_external_ips (rules : list rule) (x : string) :
  x ∈ egressip_snat_external_ips rules
  ↔ ∃ r, r ∈ rules ∧ parsed_successfully r = true
         ∧ egressip_related r = true ∧ external_ip r = Some x ∧ x ≠ "".
Proof.
  unfold egressip_snat_external_ips. rewrite elem_of_snat_fold. split.
  - intros [H|(r & Hr & Hc & Hx)]; [by apply not_elem_of_empty in H|].
    exists r. unfold counts_as_egressip_snat, get_truthy in Hc. rewrite Hx in Hc.
    apply andb_true_iff in Hc as [Hc ?]. apply andb_true_iff in Hc as [? Ht].
    repeat split; try done. intros ->. discriminate.
  - intros (r & Hr & Hp & He & Hx & Hne). right. exists r.
    repeat split; try done.
    unfold counts_as_egressip_snat, get_truthy. rewrite Hp, He, Hx.
    by destruct x.
Qed.

(** The policy side: IP literals in the match and action text of the rules
    that are parsed and EgressIP related. *)
Lemma elem_of_egressip_lrp_ip_references (rules : list rule) (x : string) :
  x ∈ egressip_lrp_ip_references rules
  ↔ ∃ r, r ∈ rules ∧ parsed_successfully r = true ∧ egressip_related r = true
         ∧ x ∈ PyRe.findall PyRe.ipv4_word_pattern (rule_text r).
Proof.
  unfold egressip_lrp_ip_references.
  assert (G : ∀ acc : gset string,
    x ∈ foldl (fun s r => if parsed_successfully r && egressip_related r
                 then s ∪ list_to_set (PyRe.findall PyRe.ipv4_word_pattern (rule_text r))
                 else s) acc rules
    ↔ x ∈ acc ∨ ∃ r, r ∈ rules ∧ parsed_successfully r = true
                     ∧ egressip_related r = true
                     ∧ x ∈ PyRe.findall PyRe.ipv4_word_pattern (rule_text r)).
  { induction rules as [|r rules IH]; intros acc; simpl.
    - split; [by left|]. intros [?|(r & Hr & _)]; [done|]. by apply elem_of_nil in Hr.
    - rewrite IH. split.
      + intros [H|(r' & Hr' & ?)].
        * destruct (parsed_successfully r) eqn:Hp, (egressip_related r) eqn:He;
            simpl in H; try by left.
          apply elem_of_union in H as [?|H]; [by left|].
          right. exists r. rewrite elem_of_list_to_set in H.
          split; [by left|done].
        * right. exists r'. split; [by right|done].
      + intros [?|(r' & Hr' & Hp & He & Hx)].
        * left. destruct (parsed_successfully r && egressip_related r); [|done].
          apply elem_of_union. by left.
        * apply elem_of_cons in Hr' as [->|Hr'].
          -- left. rewrite Hp, He. simpl. apply elem_of_union. right.
             by apply elem_of_list_to_set.
          -- right. by exists r'. }
  rewrite G. split; [|by right].
  intros [H|?]; [by apply not_elem_of_empty in H|done].
Qed.

End RelevantSets.

(** ** What the pattern of the IP literals matches *)

Section IpLiterals.
Import PyRe.

Lemma first_down_spec (f : nat → option nat) (lo n r : nat) :
  first_down f lo n = Some r → ∃ k, (lo <= k <= n)%nat ∧ f k = Some r.
Proof.
  induction n as [|n IH]; cbn [first_down].
  - destruct (0 <? lo)%nat eqn:E; [done|]. apply Nat.ltb_ge in E.
    destruct (f O) eqn:Ef; [|done]. intros [= ->]. exists O. split; [lia|done].
  - destruct (S n <? lo)%nat eqn:E; [done|]. apply Nat.ltb_ge in E.
    destruct (f (S n)) eqn:Ef.
    + intros [= ->]. exists (S n). split; [lia|done].
    + intros H. destruct (IH H) as (k & Hk & Hfk). exists k. split; [lia|done].
Qed.

Lemma count_digits_spec (hi : nat) (l : list ascii) (k : nat) :
  (k <= count_digits hi l)%nat →
  (k <= hi)%nat ∧ (k <= length l)%nat ∧ forallb isdigit (take k l) = true.
Proof.
  revert l k. induction hi as [|hi IH]; intros l k; cbn [count_digits].
  - intros H. assert (k = O) as -> by lia.
    rewrite take_0. split; [lia|split; [lia|done]].
  - destruct l as [|c l].
    + intros H. assert (k = O) as -> by lia. split; [lia|split; [simpl; lia|done]].
    + destruct k as [|k]; [intros _; split; [lia|split; [simpl; lia|done]]|].
      destruct (isdigit c) eqn:Hc; [|lia]. intros H.
      destruct (IH l k) as (H1 & H2 & H3); [lia|].
      split; [lia|]. split; [simpl; lia|]. cbn [take forallb]. by rewrite Hc.
Qed.

Lemma match_boundary (p : list atom) (prev : option ascii) (l : list ascii)
  (r : nat) :
  match_here (Boundary :: p) prev l = Some r →
  at_boundary prev l = true ∧ match_here p prev l = Some r.
Proof. cbn [match_here]. by destruct (at_boundary prev l). Qed.

Lemma match_chr (c : ascii) (p : list atom) (prev : option ascii)
  (l : list ascii) (r : nat) :
  match_here (Chr c :: p) prev l = Some r →
  ∃ l' m, l = c :: l' ∧ r = S m ∧ match_here p (Some c) l' = Some m.
Proof.
  cbn [match_here]. destruct l as [|c' l']; [done|].
  destruct (Ascii.eqb c c') eqn:E; [|done]. apply Ascii.eqb_eq in E as <-.
  destruct (match_here p (Some c) l') as [m|] eqn:Em; cbn; [|done].
  intros [= <-]. by exists l', m.
Qed.

Lemma match_digits (lo hi : nat) (p : list atom) (prev : option ascii)
  (l : list ascii) (r : nat) :
  match_here (Digits lo hi :: p) prev l = Some r →
  ∃ k m, (lo <= k <= hi)%nat ∧ (k <= length l)%nat
    ∧ forallb isdigit (take k l) = true
    ∧ r = (k + m)%nat
    ∧ match_here p (prev_after prev l k) (drop k l) = Some m.
Proof.
  cbn [match_here]. intros H.
  apply first_down_spec in H as (k & Hk & Hf).
  destruct (match_here p (prev_after prev l k) (drop k l)) as [m|] eqn:Em;
    cbn in Hf; [|done].
  injection Hf as <-.
  destruct (count_digits_spec hi l k) as (H1 & H2 & H3); [lia|].
  exists k, m. split; [lia|]. done.
Qed.

Lemma isdigit_isword (c : ascii) : isdigit c = true → isword c = true.
Proof. unfold isword. by intros ->. Qed.

Lemma nth_error_in_take {X} (l : list X) (k : nat) (c : X) :
  nth_error l k = Some c → In c (take (S k) l).
Proof.
  revert k. induction l as [|y l IH]; intros [|k]; cbn; try done.
  - intros [= ->]. by left.
  - intros H. right. by apply IH.
Qed.

(** The characters around a run of digits that was read. *)
Lemma digits_are_words (prev : option ascii) (l : list ascii) (k : nat) :
  (1 <= k <= length l)%nat → forallb isdigit (take k l) = true →
  is_word_opt (head l) = true ∧ is_word_opt (prev_after prev l k) = true.
Proof.
  intros Hk Hd. rewrite forallb_forall in Hd. split.
  - destruct l as [|c l]; [simpl in Hk; lia|]. cbn.
    apply isdigit_isword, Hd. destruct k; [lia|]. by left.
  - destruct k as [|k]; [lia|]. cbn [prev_after].
    destruct (nth_error l k) as [c|] eqn:E.
    + cbn. apply isdigit_isword, Hd. by apply nth_error_in_take.
    + apply nth_error_None in E. lia.
Qed.

Lemma octet_read (l : list ascii) (k : nat) :
  (1 <= k <= 3)%nat → (k <= length l)%nat →
  forallb isdigit (take k l) = true → is_octet (take k l).
Proof. intros H1 H2 H3. split; [|done]. rewrite length_take. lia. Qed.

(** A match of the pattern is an IP literal, and no word character touches
    it on either side. *)
Lemma ipv4_word_match (prev : option ascii) (l : list ascii) (n : nat) :
  match_here ipv4_word_pattern prev l = Some n →
  is_ipv4_literal (str (take n l))
  ∧ is_word_opt prev = false
  ∧ is_word_opt (head (drop n l)) = false.
Proof.
  unfold ipv4_word_pattern, ipv4_pattern. cbn [app]. intros H.
  apply match_boundary in H as [Hb H].
  apply match_digits in H as (k1 & m1 & Hk1 & Hl1 & Hd1 & -> & H).
  apply match_chr in H as (l1 & n1 & E1 & -> & H).
  apply match_digits in H as (k2 & m2 & Hk2 & Hl2 & Hd2 & -> & H).
  apply match_chr in H as (l2 & n2 & E2 & -> & H).
  apply match_digits in H as (k3 & m3 & Hk3 & Hl3 & Hd3 & -> & H).
  apply match_chr in H as (l3 & n3 & E3 & -> & H).
  apply match_digits in H as (k4 & m4 & Hk4 & Hl4 & Hd4 & -> & H).
  apply match_boundary in H as [He H]. injection H as <-.
  assert (El : l = take k1 l ++ dot :: take k2 l1 ++ dot :: take k3 l2
                   ++ dot :: take k4 l3 ++ drop k4 l3).
  { rewrite (take_drop k4 l3), <- E3, (take_drop k3 l2), <- E2,
      (take_drop k2 l1), <- E1. by rewrite take_drop. }
  set (a := take k1 l) in *. set (b := take k2 l1) in *.
  set (c := take k3 l2) in *. set (d := take k4 l3) in *.
  assert (La : length a = k1) by (subst a; rewrite length_take; lia).
  assert (Lb : length b = k2) by (subst b; rewrite length_take; lia).
  assert (Lc : length c = k3) by (subst c; rewrite length_take; lia).
  assert (Ld : length d = k4) by (subst d; rewrite length_take; lia).
  assert (El' : l = (a ++ dot :: b ++ dot :: c ++ dot :: d) ++ drop k4 l3).
  { rewrite El at 1. rewrite <- !app_assoc. cbn [app].
    rewrite <- !app_assoc. cbn [app]. by rewrite <- !app_assoc. }
  assert (Hn : (k1 + S (k2 + S (k3 + S (k4 + 0))))%nat
               = length (a ++ dot :: b ++ dot :: c ++ dot :: d)).
  { rewrite !length_app. cbn [length]. rewrite !length_app. cbn [length].
    rewrite !length_app. cbn [length]. lia. }
  split; [|split].
  - exists a, b, c, d.
    split; [by apply octet_read; [lia|lia|]|].
    split; [by apply octet_read; [lia|lia|]|].
    split; [by apply octet_read; [lia|lia|]|].
    split; [by apply octet_read; [lia|lia|]|].
    rewrite chars_str. rewrite El' at 1. by apply take_app_length'.
  - destruct (digits_are_words prev l k1) as [Hw _]; [lia|done|].
    unfold at_boundary in Hb. rewrite Hw in Hb. by destruct (is_word_opt prev).
  - rewrite El' at 1. rewrite (drop_app_length' _ _ _ Hn).
    destruct (digits_are_words (Some dot) l3 k4) as [_ Hw]; [lia|done|].
    unfold at_boundary in He. rewrite Hw in He.
    by destruct (is_word_opt (head (drop k4 l3))).
Qed.

(** What [findall] returns was matched somewhere in the text. *)
Lemma findall_go_spec (p : list atom) (l : list ascii) (prev : option ascii)
  (skip : nat) (x : string) :
  x ∈ findall_go p prev l skip →
  ∃ pre l' n, l = pre ++ l'
    ∧ match_here p (match last pre with Some c => Some c | None => prev end) l'
      = Some n
    ∧ x = str (take n l').
Proof.
  revert prev skip. induction l as [|c l IH]; intros prev skip;
    cbn [findall_go]; [by intros ?%elem_of_nil|].
  assert (Hrest : ∀ k, x ∈ findall_go p (Some c) l k →
    ∃ pre l' n, c :: l = pre ++ l'
      ∧ match_here p (match last pre with Some c => Some c | None => prev end) l'
        = Some n
      ∧ x = str (take n l')).
  { intros k H. destruct (IH _ _ H) as (pre & l' & n & -> & Hm & ->).
    exists (c :: pre), l', n. split; [done|]. split; [|done].
    rewrite last_cons. by destruct (last pre). }
  destruct skip as [|k]; [|apply Hrest].
  destruct (match_here p prev (c :: l)) as [n|] eqn:E; [|apply Hrest].
  intros [->|H]%elem_of_cons; [|by apply Hrest in H].
  by exists [], (c :: l), n.
Qed.

Lemma findall_ipv4_sound (text x : string) :
  x ∈ findall ipv4_word_pattern text →
  is_ipv4_literal x ∧ occurs_as_word x text.
Proof.
  unfold findall. intros H.
  apply findall_go_spec in H as (pre & l' & n & El & Hm & ->).
  assert (Hprev : match last pre with Some c => Some c | None => None end
                  = last pre) by (by destruct (last pre)).
  rewrite Hprev in Hm. apply ipv4_word_match in Hm as (Hlit & Hb & He).
  split; [done|]. exists pre, (drop n l').
  rewrite chars_str, take_drop. done.
Qed.

End IpLiterals.

(** ** The consistency score *)

Section Score.

Lemma Qgtb_true (x y : Q) : Qgtb x y = true ↔ (y < x)%Q.
Proof.
  unfold Qgtb. rewrite negb_true_iff, <- not_true_iff_false, Qle_bool_iff.
  split; [apply Qnot_le_lt|apply Qlt_not_le].
Qed.

Lemma Qgtb_false (x y : Q) : Qgtb x y = false ↔ (x <= y)%Q.
Proof. unfold Qgtb. by rewrite negb_false_iff, Qle_bool_iff. Qed.

Lemma ratio_bounds (a b : nat) :
  (a <= b)%nat → (0 < b)%nat → (0 <= ratio a b)%Q ∧ (ratio a b <= 1)%Q.
Proof.
  intros Hab Hb. unfold ratio, Qle. simpl.
  assert (Z.pos (Pos.of_nat b) = Z.of_nat b) by lia. lia.
Qed.

Lemma ratio_is_quotient (a b : nat) :
  (0 < b)%nat →
  (ratio a b == inject_Z (Z.of_nat a) / inject_Z (Z.of_nat b))%Q.
Proof.
  intros Hb. unfold ratio.
  assert (E : Z.of_nat b = Z.pos (Pos.of_nat b)) by lia.
  rewrite E. rewrite (Qmake_Qdiv (Z.of_nat a) (Pos.of_nat b)). reflexivity.
Qed.

End Score.

(** Emptiness of a concrete set is decided by evaluation. *)
Lemma nonempty_by_evaluation (X : gset string) :
  bool_decide (X = ∅) = false → X ≠ ∅.
Proof. intros H. by apply bool_decide_eq_false in H. Qed.

Section Consistency.

Variables snat_rules lrp_rules : list rule.

(** The result of the check when one side is empty. *)
Lemma check_when_empty :
  let A := egressip_snat_external_ips snat_rules in
  let B := egressip_lrp_ip_references lrp_rules in
  A = ∅ ∨ B = ∅ →
  _check_egressip_rule_consistency snat_rules lrp_rules
  = {| snat_lrp_correlation := "unknown";
       issues_found := [];
       consistency_score := PyFloat 0;
       details := Some {| cd_snat_external_ips := A;
                          cd_lrp_ip_references := B;
                          cd_correlated_ips := A ∩ B |} |}.
Proof.
  intros A B H. unfold _check_egressip_rule_consistency.
  fold A B. destruct H as [HA|HB].
  - rewrite HA. by rewrite bool_decide_eq_true_2.
  - rewrite HB. rewrite (bool_decide_eq_true_2 (∅ = ∅)) by done.
    by rewrite andb_false_r.
Qed.

(** C1, as the code has it. When the NAT side or the policy side is empty
    the score of the check is the number 0 it started with, the correlation
    label is [unknown], which is none of good, moderate and poor, and no
    issue is recorded. *)
Theorem consistency_defaults_when_a_side_is_empty :
  let check := _check_egressip_rule_consistency snat_rules lrp_rules in
  egressip_snat_external_ips snat_rules = ∅
  ∨ egressip_lrp_ip_references lrp_rules = ∅ →
  consistency_score check = PyFloat 0
  ∧ snat_lrp_correlation check = "unknown"
  ∧ (snat_lrp_correlation check ∉ ["good"; "moderate"; "poor"])
  ∧ issues_found check = [].
Proof.
  intros check H. subst check. rewrite (check_when_empty H). simpl. repeat split.
  rewrite !elem_of_cons, elem_of_nil. intros [?|[?|[?|[]]]]; discriminate.
Qed.

(** C5. [A] is the set of the external IPs of the NAT rules that are
    parsed and EgressIP related, [B] the set of what the pattern of the IP
    literals finds in the text made of the match and of the action of the
    policy rules that are parsed and EgressIP related; every member of [B]
    is an IP literal, four groups of one to three digits with dots between,
    that stands as a word of its own in that text.  When both are not empty
    the score is the number [|A ∩ B| / |A|], it lies between 0 and 1, and the
    label is [good] above 0.8, [moderate] above 0.5 and up to 0.8, and [poor]
    otherwise; [poor] comes with one issue in the list of issues, the other
    labels with none.  Divisions and comparisons are exact here, where the
    code rounds to a [float]. *)
Theorem consistency_score_and_label :
  let A := egressip_snat_external_ips snat_rules in
  let B := egressip_lrp_ip_references lrp_rules in
  let check := _check_egressip_rule_consistency snat_rules lrp_rules in
  A ≠ ∅ → B ≠ ∅ →
  (∀ x, x ∈ A ↔ ∃ r, r ∈ snat_rules ∧ parsed_successfully r = true
                     ∧ egressip_related r = true
                     ∧ external_ip r = Some x ∧ x ≠ "")
  ∧ (∀ x, x ∈ B ↔ ∃ r, r ∈ lrp_rules ∧ parsed_successfully r = true
                       ∧ egressip_related r = true
                       ∧ x ∈ PyRe.findall PyRe.ipv4_word_pattern
                               (get_or_empty (rule_match r) +:+ " "
                                +:+ get_or_empty (action r)))
  ∧ (∀ x, x ∈ B →
          is_ipv4_literal x
          ∧ ∃ r, r ∈ lrp_rules ∧ parsed_successfully r = true
                 ∧ egressip_related r = true
                 ∧ occurs_as_word x (get_or_empty (rule_match r) +:+ " "
                                     +:+ get_or_empty (action r)))
  ∧ ∃ q, consistency_score check = PyFloat q
    ∧ (q == inject_Z (Z.of_nat (size (A ∩ B))) / inject_Z (Z.of_nat (size A)))%Q
    ∧ (0 <= q)%Q ∧ (q <= 1)%Q
    ∧ (((8 # 10) < q)%Q →
       snat_lrp_correlation check = "good" ∧ issues_found check = [])
    ∧ (((5 # 10) < q)%Q → (q <= (8 # 10))%Q →
       snat_lrp_correlation check = "moderate" ∧ issues_found check = [])
    ∧ ((q <= (5 # 10))%Q →
       snat_lrp_correlation check = "poor"
       ∧ issues_found check = [low_correlation_issue]).
Proof.
  intros A B check HA HB.
  split; [intros x; apply elem_of_egressip_snat_external_ips|].
  split; [intros x; apply elem_of_egressip_lrp_ip_references|].
  split.
  { intros x (r & Hr & Hp & He & Hx)%elem_of_egressip_lrp_ip_references.
    apply findall_ipv4_sound in Hx as [Hlit Hocc].
    split; [done|]. by exists r. }
  assert (Hpos : (0 < size A)%nat).
  { destruct (size A) eqn:E; [|lia]. apply size_empty_inv in E.
    by apply leibniz_equiv in E. }
  assert (Hle : (size (A ∩ B) <= size A)%nat).
  { apply subseteq_size, intersection_subseteq_l. }
  exists (ratio (size (A ∩ B)) (size A)).
  destruct (ratio_bounds _ _ Hle Hpos) as [H0 H1].
  subst check. unfold _check_egressip_rule_consistency. fold A B.
  rewrite (bool_decide_eq_false_2 (A = ∅)), (bool_decide_eq_false_2 (B = ∅)) by done.
  simpl.
  set (q := ratio (size (A ∩ B)) (size A)) in *.
  assert (Hquot : (q == inject_Z (Z.of_nat (size (A ∩ B)))
                        / inject_Z (Z.of_nat (size A)))%Q)
    by (by apply ratio_is_quotient).
  assert (H58 : ((5 # 10) < (8 # 10))%Q) by reflexivity.
  destruct (Qgtb q (8 # 10)) eqn:E8; [|destruct (Qgtb q (5 # 10)) eqn:E5]; simpl.
  - apply Qgtb_true in E8.
    split; [done|]. split; [done|]. split; [done|]. split; [done|].
    split; [done|]. split.
    + intros _ Hq. by apply Qle_not_lt in Hq.
    + intros Hq. exfalso. apply (Qlt_irrefl (5 # 10)).
      eapply Qlt_le_trans; [|exact Hq]. by eapply Qlt_trans.
  - apply Qgtb_false in E8. apply Qgtb_true in E5.
    split; [done|]. split; [done|]. split; [done|]. split; [done|].
    split; [|split].
    + intros Hq. by apply Qle_not_lt in E8.
    + done.
    + intros Hq. by apply Qle_not_lt in Hq.
  - apply Qgtb_false in E8. apply Qgtb_false in E5.
    split; [done|]. split; [done|]. split; [done|]. split; [done|].
    split; [|split].
    + intros Hq. by apply Qle_not_lt in E8.
    + intros Hq. by apply Qle_not_lt in E5.
    + done.
Qed.

End Consistency.

Lemma consistency_defaults_witness :
  let c := _check_egressip_rule_consistency []
             [_parse_egressip_lrp_rule "100 ip4.src==10.0.0.1 drop"] in
  consistency_score c = PyFloat 0
  ∧ snat_lrp_correlation c = "unknown"
  ∧ (snat_lrp_correlation c ∉ ["good"; "moderate"; "poor"])
  ∧ issues_found c = [].
Proof.
  apply (consistency_defaults_when_a_side_is_empty []
           [_parse_egressip_lrp_rule "100 ip4.src==10.0.0.1 drop"]).
  left. reflexivity.
Defined.

(** C1, as stated, fails. With no NAT rule and one policy rule (scenario B)
    the NAT side is empty and the score of the check is a number, 0: the
    check has no value that stands for an undetermined score. *)
Lemma consistency_score_zero_counterexample :
  let snat_rules : list rule := [] in
  let lrp_rules := [_parse_egressip_lrp_rule "100 ip4.src==10.0.0.1 drop"] in
  let c := _check_egressip_rule_consistency snat_rules lrp_rules in
  egressip_snat_external_ips snat_rules = ∅
  ∧ consistency_score c = PyFloat 0
  ∧ is_number (consistency_score c)
  ∧ consistency_score c ≠ PyStr "undetermined"
  ∧ consistency_score c ≠ PyNone.
Proof. vm_compute. repeat split; discriminate. Qed.

Lemma consistency_score_and_label_witness :
  let snat_rules :=
    [_parse_egressip_snat_rule "snat 10.0.0.5 192.168.1.10 port1"] in
  let lrp_rules :=
    [_parse_egressip_lrp_rule
       "10.9.8.7 ip4.src==192.168.1.10 reroute 10.0.0.5"] in
  let A := egressip_snat_external_ips snat_rules in
  let B := egressip_lrp_ip_references lrp_rules in
  let c := _check_egressip_rule_consistency snat_rules lrp_rules in
  (A = {[ "10.0.0.5" ]} ∧ B = {[ "192.168.1.10"; "10.0.0.5" ]})
  ∧ (∀ x, x ∈ A ↔ ∃ r, r ∈ snat_rules ∧ parsed_successfully r = true
                       ∧ egressip_related r = true
                       ∧ external_ip r = Some x ∧ x ≠ "")
  ∧ (∀ x, x ∈ B ↔ ∃ r, r ∈ lrp_rules ∧ parsed_successfully r = true
                       ∧ egressip_related r = true
                       ∧ x ∈ PyRe.findall PyRe.ipv4_word_pattern
                               (get_or_empty (rule_match r) +:+ " "
                                +:+ get_or_empty (action r)))
  ∧ (∀ x, x ∈ B →
          is_ipv4_literal x
          ∧ ∃ r, r ∈ lrp_rules ∧ parsed_successfully r = true
                 ∧ egressip_related r = true
                 ∧ occurs_as_word x (get_or_empty (rule_match r) +:+ " "
                                     +:+ get_or_empty (action r)))
  ∧ ∃ q, consistency_score c = PyFloat q
    ∧ (q == inject_Z (Z.of_nat (size (A ∩ B))) / inject_Z (Z.of_nat (size A)))%Q
    ∧ (0 <= q)%Q ∧ (q <= 1)%Q
    ∧ (((8 # 10) < q)%Q →
       snat_lrp_correlation c = "good" ∧ issues_found c = [])
    ∧ (((5 # 10) < q)%Q → (q <= (8 # 10))%Q →
       snat_lrp_correlation c = "moderate" ∧ issues_found c = [])
    ∧ ((q <= (5 # 10))%Q →
       snat_lrp_correlation c = "poor"
       ∧ issues_found c = [low_correlation_issue]).
Proof.
  intros snat_rules lrp_rules A B c. split.
  - split; apply (bool_decide_unpack _); by vm_compute.
  - apply (consistency_score_and_label snat_rules lrp_rules);
      apply nonempty_by_evaluation; by vm_compute.
Defined.

(** ** Validation against the assignments *)

Section ValidationContext.
Import Reports.

Lemma assigned_fold_elem (items : list status_item) (seen : gset string)
  (x : string) :
  x ∈ foldl (fun s i => match item_egressIP i with
                        | Some ip => s ∪ {[ ip ]}
                        | None => s
                        end) seen items
  ↔ x ∈ seen ∨ ∃ i, i ∈ items ∧ item_egressIP i = Some x.
Proof.
  revert seen. induction items as [|i items IH]; intros seen; cbn [foldl].
  - split; [by left|]. intros [?|(i & Hi & _)]; [done|]. by apply elem_of_nil in Hi.
  - rewrite IH. split.
    + intros [H|(j & Hj & Hx)].
      * destruct (item_egressIP i) as [ip|] eqn:E; [|by left].
        apply elem_of_union in H as [?|H]; [by left|].
        apply elem_of_singleton in H as ->.
        right. exists i. split; [by left|done].
      * right. exists j. split; [by right|done].
    + intros [H|(j & Hj & Hx)].
      * left. destruct (item_egressIP i); [|done]. apply elem_of_union. by left.
      * apply elem_of_cons in Hj as [->|Hj].
        -- left. rewrite Hx. apply elem_of_union. right. by apply elem_of_singleton.
        -- right. by exists j.
Qed.

Lemma assigned_ips_of_spec (items : list egressip_object) (seen : gset string) :
  match assigned_ips_of items seen with
  | inr ips =>
      (∀ o, o ∈ items → ∃ n, metadata o = Some (Some n))
      ∧ ∀ x, x ∈ ips ↔ x ∈ seen
                        ∨ ∃ o i, o ∈ items ∧ i ∈ status_items o
                                 ∧ item_egressIP i = Some x
  | inl key =>
      ∃ o, o ∈ items ∧ (metadata o = None ∨ metadata o = Some None)
  end.
Proof.
  revert seen. induction items as [|o items IH]; intros seen; cbn [assigned_ips_of].
  - split; [by intros o ?%elem_of_nil|].
    intros x. split; [by left|]. intros [?|(o & i & Ho & _)]; [done|].
    by apply elem_of_nil in Ho.
  - unfold object_name. destruct (metadata o) as [[n|]|] eqn:Hm.
    + specialize (IH (foldl (fun s i => match item_egressIP i with
                                        | Some ip => s ∪ {[ ip ]}
                                        | None => s
                                        end) seen (status_items o))).
      destruct (assigned_ips_of items _) as [key|ips].
      * destruct IH as (o' & Ho' & H). exists o'. split; [by right|done].
      * destruct IH as [Hnames Hips]. split.
        -- intros o' [->|Ho']%elem_of_cons; [by eauto|by apply Hnames].
        -- intros x. rewrite Hips, assigned_fold_elem. split.
           ++ intros [[?|(i & Hi & Hx)]|(o' & i & Ho' & Hi & Hx)]; [by left| |].
              ** right. exists o, i. split; [by left|done].
              ** right. exists o', i. split; [by right|done].
           ++ intros [?|(o' & i & Ho' & Hi & Hx)]; [by left; left|].
              apply elem_of_cons in Ho' as [->|Ho'].
              ** left. right. by exists i.
              ** right. by exists o', i.
    + exists o. split; [by left|by right].
    + exists o. split; [by left|by left].
Qed.


End ValidationContext.



(** ** The snapshot hash *)

Section SnapshotHash.

(** Sorting forgets the order of its input. *)
Lemma sorted_permutation (l1 l2 : list string) :
  l1 ≡ₚ l2 → sorted l1 = sorted l2.
Proof.
  intros H. unfold sorted.
  apply (Sorted_unique String.le).
  - apply Sorted_merge_sort; apply _.
  - apply Sorted_merge_sort; apply _.
  - by rewrite !merge_sort_Permutation.
Qed.

Lemma rules_hash_permutation (sec : PyHash.secret) (rules1 rules2 : list rule) :
  rules1 ≡ₚ rules2 → rules_hash sec rules1 = rules_hash sec rules2.
Proof.
  intros H. unfold rules_hash. f_equal. f_equal.
  apply sorted_permutation. by apply fmap_Permutation.
Qed.

Lemma snat_rules_of_lines_permutation (lines1 lines2 : list string) :
  lines1 ≡ₚ lines2 → snat_rules_of_lines lines1 ≡ₚ snat_rules_of_lines lines2.
Proof. intros H. unfold snat_rules_of_lines. by rewrite H. Qed.

Lemma lrp_rules_of_lines_permutation (lines1 lines2 : list string) :
  lines1 ≡ₚ lines2 → lrp_rules_of_lines lines1 ≡ₚ lrp_rules_of_lines lines2.
Proof. intros H. unfold lrp_rules_of_lines. by rewrite H. Qed.

(** C2, as the code has it. Within one run of the interpreter (one hash
    key) the two hashes of a snapshot do not depend on the order of the
    lines of the command outputs: two outputs whose lines are a permutation
    of each other give the same hashes.  Nothing is said across runs: the
    hash is the built-in [hash], keyed per run. *)
Theorem snapshot_hash_permutation_invariant (sec : PyHash.secret)
  (snat1 snat2 lrp1 lrp2 : string) (t1 t2 : string) :
  output_lines snat1 ≡ₚ output_lines snat2 →
  output_lines lrp1 ≡ₚ output_lines lrp2 →
  let s1 := _take_egressip_rule_snapshot sec
      {| snat_output := CmdOk snat1; lrp_output := CmdOk lrp1; utcnow := t1 |} in
  let s2 := _take_egressip_rule_snapshot sec
      {| snat_output := CmdOk snat2; lrp_output := CmdOk lrp2; utcnow := t2 |} in
  snat_rules_hash s1 = snat_rules_hash s2
  ∧ lrp_rules_hash s1 = lrp_rules_hash s2.
Proof.
  intros Hs Hl. simpl. split; apply rules_hash_permutation.
  - by apply snat_rules_of_lines_permutation.
  - by apply lrp_rules_of_lines_permutation.
Qed.

End SnapshotHash.

Lemma snapshot_hash_permutation_witness :
  let sec := PyHash.secret_of_seed 1 in
  let s1 := _take_egressip_rule_snapshot sec
      {| snat_output := CmdOk two_snat_lines; lrp_output := CmdOk "";
         utcnow := "t1" |} in
  let s2 := _take_egressip_rule_snapshot sec
      {| snat_output := CmdOk two_snat_lines_swapped; lrp_output := CmdOk "";
         utcnow := "t2" |} in
  snat_rules_hash s1 = snat_rules_hash s2
  ∧ lrp_rules_hash s1 = lrp_rules_hash s2.
Proof.
  apply (snapshot_hash_permutation_invariant (PyHash.secret_of_seed 1)
           two_snat_lines two_snat_lines_swapped "" "" "t1" "t2").
  - vm_compute. apply perm_swap.
  - reflexivity.
Defined.

(** C2, as stated, fails across runs. The same single line hashed in two
    runs of the interpreter, the ones started with PYTHONHASHSEED 1 and 2,
    gives two different snapshot hashes. *)
Lemma snapshot_hash_across_runs_counterexample :
  let o := {| snat_output := CmdOk "snat 10.0.0.5 192.168.1.10 port1";
              lrp_output := CmdOk ""; utcnow := "t" |} in
  let run1 := _take_egressip_rule_snapshot (PyHash.secret_of_seed 1) o in
  let run2 := _take_egressip_rule_snapshot (PyHash.secret_of_seed 2) o in
  snat_rules_hash run1 = -8856484144879553756
  ∧ snat_rules_hash run2 = 2956013429302967239
  ∧ snat_rules_hash run1 ≠ snat_rules_hash run2.
Proof. vm_compute. repeat split. discriminate. Qed.

(** ** The monitoring session *)

Section Monitor.

Variable sec : PyHash.secret.
Variable w : session.
Variables (node_name : string) (duration_seconds : Z).

(** The error record has four keys, all of them strings. *)
Lemma monitor_error_fields (now : string) (e : exn) (k : string) (v : field) :
  monitor_error node_name now e !! k = Some v → ∃ s, v = FStr s.
Proof.
  unfold monitor_error. intros H.
  apply elem_of_list_to_map_2 in H.
  repeat (apply elem_of_cons in H as [[= _ ->]|H]; [by eauto|]).
  by apply elem_of_nil in H.
Qed.

Lemma monitor_error_no_snapshots (now : string) (e : exn) :
  let r := monitor_error node_name now e in
  r !! "status" = Some (FStr "error")
  ∧ r !! "error" = Some (FStr (exn_message e))
  ∧ r !! "detailed_snapshots" = None
  ∧ r !! "snapshots_taken" = None
  ∧ ∀ k l, r !! k = Some (FSnapshots l) → False.
Proof.
  split; [done|]. split; [done|]. split; [done|]. split; [done|].
  intros k l H. apply monitor_error_fields in H as [s H]. discriminate.
Qed.

(** The loop only adds snapshots to the ones it starts with. *)
Lemma sampling_loop_keeps (remaining i : nat) (snapshots : list snapshot) :
  ∃ more, fst (sampling_loop sec w remaining i snapshots) = snapshots ++ more.
Proof.
  revert i snapshots. induction remaining as [|n IH]; intros i snapshots; simpl.
  - exists []. by rewrite app_nil_r.
  - destruct (cancelled_in_sleep w i); simpl.
    + exists []. by rewrite app_nil_r.
    + destruct (IH (S i) (snapshots ++
        [_take_egressip_rule_snapshot sec (observe w (S i))])) as [more ->].
      rewrite <- app_assoc. by eauto.
Qed.

(** The initial snapshot is always taken. *)
Lemma monitor_sampling_starts_with_initial :
  ∃ more, fst (monitor_sampling sec w duration_seconds)
          = _take_egressip_rule_snapshot sec (observe w O) :: more.
Proof.
  unfold monitor_sampling.
  destruct (floordiv _ _) as [e|n]; simpl; [by exists []|].
  destruct (sampling_loop_keeps (Z.to_nat n) O
    [_take_egressip_rule_snapshot sec (observe w O)]) as [more ->]. by eauto.
Qed.

(** C4, as the code has it. When the sampling of a session ends with an
    exception, after one or more snapshots, the snapshots taken are not part
    of what the caller gets: an exception that [except Exception] catches
    gives the error record, whose four keys (status, error, node name, time
    stamp) hold strings only, and a cancellation leaves the function as an
    exception, with no result.  The snapshots are returned, all of them,
    when the sampling runs to its end. *)
Theorem monitor_returns_snapshots_only_on_success
  (snapshots : list snapshot) (ended : option exn) :
  monitor_sampling sec w duration_seconds = (snapshots, ended) →
  snapshots ≠ []
  ∧ match ended with
    | None =>
        ∃ r, monitor_egressip_rule_changes sec w node_name duration_seconds
             = Returned r
             ∧ r !! "status" = Some (FStr "success")
             ∧ r !! "detailed_snapshots" = Some (FSnapshots snapshots)
    | Some e =>
        if caught_by_except_Exception e
        then ∃ r, monitor_egressip_rule_changes sec w node_name duration_seconds
                  = Returned r
                  ∧ r !! "status" = Some (FStr "error")
                  ∧ r !! "detailed_snapshots" = None
                  ∧ r !! "snapshots_taken" = None
                  ∧ ∀ k l, r !! k = Some (FSnapshots l) → False
        else monitor_egressip_rule_changes sec w node_name duration_seconds
             = Propagated e
    end.
Proof.
  intros H. split.
  - destruct monitor_sampling_starts_with_initial as [more Hm].
    rewrite H in Hm. simpl in Hm. by rewrite Hm.
  - unfold monitor_egressip_rule_changes. rewrite H.
    destruct ended as [e|].
    + destruct (caught_by_except_Exception e); [|done].
      eexists. split; [reflexivity|].
      destruct (monitor_error_no_snapshots (end_time w) e) as (?&?&?&?&?).
      done.
    + eexists. split; [reflexivity|]. done.
Qed.

(** C10. A duration from 0 to 9 seconds makes the check interval
    [min(30, duration // 10)] zero; the division by it raises
    [ZeroDivisionError] when the initial snapshot is already in the list, and
    the caller gets the error record, which holds no snapshot. *)
Theorem monitor_short_duration_is_an_error :
  0 <= duration_seconds < 10 →
  Z.min 30 (duration_seconds / 10) = 0
  ∧ monitor_sampling sec w duration_seconds
    = ([_take_egressip_rule_snapshot sec (observe w O)], Some ZeroDivisionError)
  ∧ ∃ r, monitor_egressip_rule_changes sec w node_name duration_seconds
         = Returned r
         ∧ r !! "status" = Some (FStr "error")
         ∧ r !! "error" = Some (FStr (exn_message ZeroDivisionError))
         ∧ r !! "detailed_snapshots" = None
         ∧ r !! "snapshots_taken" = None
         ∧ ∀ k l, r !! k = Some (FSnapshots l) → False.
Proof.
  intros Hd.
  assert (Hq : duration_seconds / 10 = 0) by (apply Z.div_small; lia).
  assert (Hi : Z.min 30 (duration_seconds / 10) = 0) by (rewrite Hq; reflexivity).
  assert (Hs : monitor_sampling sec w duration_seconds
    = ([_take_egressip_rule_snapshot sec (observe w O)], Some ZeroDivisionError)).
  { unfold monitor_sampling. rewrite Hi. reflexivity. }
  split; [done|]. split; [done|].
  unfold monitor_egressip_rule_changes. rewrite Hs. simpl.
  eexists. split; [reflexivity|].
  apply monitor_error_no_snapshots.
Qed.

End Monitor.

Lemma monitor_short_duration_witness :
  Z.min 30 (5 / 10) = 0
  ∧ monitor_sampling seed1 quiet_session 5
    = ([_take_egressip_rule_snapshot seed1 (observe quiet_session O)],
       Some ZeroDivisionError)
  ∧ ∃ r, monitor_egressip_rule_changes seed1 quiet_session "worker-0" 5
         = Returned r
         ∧ r !! "status" = Some (FStr "error")
         ∧ r !! "error" = Some (FStr (exn_message ZeroDivisionError))
         ∧ r !! "detailed_snapshots" = None
         ∧ r !! "snapshots_taken" = None
         ∧ ∀ k l, r !! k = Some (FSnapshots l) → False.
Proof.
  apply (monitor_short_duration_is_an_error seed1 quiet_session "worker-0" 5).
  lia.
Defined.

Lemma monitor_returns_snapshots_witness :
  let taken := [_take_egressip_rule_snapshot seed1 (observe quiet_session O)] in
  taken ≠ []
  ∧ ∃ r, monitor_egressip_rule_changes seed1 quiet_session "worker-0" 5
         = Returned r
         ∧ r !! "status" = Some (FStr "error")
         ∧ r !! "detailed_snapshots" = None
         ∧ r !! "snapshots_taken" = None
         ∧ ∀ k l, r !! k = Some (FSnapshots l) → False.
Proof.
  apply (monitor_returns_snapshots_only_on_success seed1 quiet_session
           "worker-0" 5 _ (Some ZeroDivisionError)).
  reflexivity.
Defined.

(** C4, as stated, fails. A session of 5 seconds takes its initial snapshot,
    then fails on the division by the check interval 0; the caller gets the
    error record, and the snapshot taken is not in it. *)
Lemma monitor_partial_result_counterexample :
  let outcome := monitor_egressip_rule_changes seed1 quiet_session "worker-0" 5 in
  length (fst (monitor_sampling seed1 quiet_session 5)) = 1%nat
  ∧ snd (monitor_sampling seed1 quiet_session 5) = Some ZeroDivisionError
  ∧ outcome = Returned (monitor_error "worker-0" (end_time quiet_session)
                          ZeroDivisionError)
  ∧ monitor_error "worker-0" (end_time quiet_session) ZeroDivisionError
      !! "detailed_snapshots" = None
  ∧ dom (monitor_error "worker-0" (end_time quiet_session) ZeroDivisionError)
    = {[ "status"; "error"; "node_name"; "timestamp" ]}.
Proof.
  split; [reflexivity|]. split; [reflexivity|]. split; [reflexivity|].
  split; [reflexivity|].
  unfold monitor_error. rewrite dom_list_to_map_L. simpl. set_solver.
Qed.

(** ** Comparison across nodes *)

Section AcrossNodes.

Lemma snat_step_external (st : gset string * gset string * list string)
  (r : rule) (x : string) :
  x ∈ (snat_step st r).1.1
  ↔ x ∈ st.1.1 ∨ (parsed_successfully r = true ∧ external_ip r = Some x ∧ x ≠ "").
Proof.
  destruct st as [[ext log] issues]. unfold snat_step.
  destruct (parsed_successfully r); simpl.
  - rewrite elem_of_add_if_truthy. split.
    + intros [?|[Hx Ht]]; [by left|]. right. repeat split; try done.
      intros ->. discriminate.
    + intros [?|(_ & Hx & Hne)]; [by left|]. right. split; [done|]. by destruct x.
  - split; [by left|]. by intros [?|[? _]].
Qed.

Lemma snat_fold_external (rules : list rule)
  (st : gset string * gset string * list string) (x : string) :
  x ∈ (foldl snat_step st rules).1.1
  ↔ x ∈ st.1.1 ∨ ∃ r, r ∈ rules ∧ parsed_successfully r = true
                       ∧ external_ip r = Some x ∧ x ≠ "".
Proof.
  revert st. induction rules as [|r rules IH]; intros st; simpl.
  - split; [by left|]. intros [?|(r & Hr & _)]; [done|]. by apply elem_of_nil in Hr.
  - rewrite IH, snat_step_external. split.
    + intros [[?|?]|(r' & Hr' & ?)]; [by left| |].
      * right. exists r. split; [by left|done].
      * right. exists r'. split; [by right|done].
    + intros [?|(r' & Hr' & H)]; [by left; left|].
      apply elem_of_cons in Hr' as [->|Hr']; [by left; right|].
      right. by exists r'.
Qed.

(** The external IPs of the NAT summary come from every parsed rule that has
    one, EgressIP related or not. *)
Lemma elem_of_analysis_external_ips (snat_rules : list rule) (x : string) :
  x ∈ external_ips (_analyze_egressip_snat_rules snat_rules)
  ↔ ∃ r, r ∈ snat_rules ∧ parsed_successfully r = true
         ∧ external_ip r = Some x ∧ x ≠ "".
Proof.
  unfold _analyze_egressip_snat_rules.
  pose proof (snat_fold_external snat_rules (∅, ∅, []) x) as H.
  destruct (foldl snat_step (∅, ∅, []) snat_rules) as [[ext log] issues].
  simpl in *. rewrite H. split; [|by right].
  intros [H0|?]; [by apply not_elem_of_empty in H0|done].
Qed.

Lemma elem_of_all_snat_ips (content : list (string * node_content)) (x : string) :
  x ∈ all_snat_ips content
  ↔ ∃ node data, (node, data) ∈ content ∧ x ∈ snat_external_ips data.
Proof.
  unfold all_snat_ips.
  assert (G : ∀ acc : gset string,
    x ∈ foldl (fun s '(_, node_data) => s ∪ snat_external_ips node_data) acc content
    ↔ x ∈ acc ∨ ∃ node data, (node, data) ∈ content ∧ x ∈ snat_external_ips data).
  { induction content as [|[n d] content IH]; intros acc; simpl.
    - split; [by left|]. intros [?|(n & d & H & _)]; [done|]. by apply elem_of_nil in H.
    - rewrite IH, elem_of_union. split.
      + intros [[?|?]|(n' & d' & H & ?)]; [by left| |].
        * right. exists n, d. split; [by left|done].
        * right. exists n', d'. split; [by right|done].
      + intros [?|(n' & d' & H & Hx)]; [by left; left|].
        apply elem_of_cons in H as [[= -> ->]|H]; [by left; right|].
        right. by exists n', d'. }
  rewrite G. split; [|by right].
  intros [H|?]; [by apply not_elem_of_empty in H|done].
Qed.

(** The entries of kind [missing_snat_ips] of the result. *)
Lemma missing_entry_iff (rc : list (string * rule_counts))
  (content : list (string * node_content)) (node : string) (m : gset string) :
  missing_snat_ips node m ∈ _identify_egressip_inconsistencies rc content
  ↔ (1 < length content)%nat
    ∧ ∃ data, (node, data) ∈ content
              ∧ m = all_snat_ips content ∖ snat_external_ips data ∧ m ≠ ∅.
Proof.
  unfold _identify_egressip_inconsistencies. rewrite elem_of_app. split.
  - intros [H|H].
    + destruct (1 <? size _)%nat; [|by apply elem_of_nil in H].
      apply list_elem_of_singleton in H. discriminate.
    + destruct (1 <? length content)%nat eqn:E; [|by apply elem_of_nil in H].
      apply Nat.ltb_lt in E. split; [done|].
      apply list_elem_of_omap in H as ([n d] & Hin & Hsome).
      case_bool_decide as Hm; [discriminate|].
      injection Hsome as -> <-. by exists d.
  - intros (Hlen & data & Hin & -> & Hne). right.
    apply Nat.ltb_lt in Hlen. rewrite Hlen.
    apply list_elem_of_omap. exists (node, data). split; [done|].
    by rewrite bool_decide_eq_false_2.
Qed.

(** A dict has one value per key. *)
Lemma dict_value_unique {V} (d : list (string * V)) (k : string) (v1 v2 : V) :
  NoDup d.*1 → (k, v1) ∈ d → (k, v2) ∈ d → v1 = v2.
Proof.
  induction d as [|[k' v'] d IH]; intros Hnd H1 H2.
  - by apply elem_of_nil in H1.
  - apply NoDup_cons in Hnd as [Hk Hnd]. simpl in Hk.
    apply elem_of_cons in H1 as [E1|H1]; apply elem_of_cons in H2 as [E2|H2].
    + congruence.
    + exfalso. apply Hk. apply list_elem_of_fmap. exists (k, v2).
      split; [|done]. simpl. congruence.
    + exfalso. apply Hk. apply list_elem_of_fmap. exists (k, v1).
      split; [|done]. simpl. congruence.
    + by apply IH.
Qed.

End AcrossNodes.

Lemma two_elements_length {X} (l : list X) (a b : X) :
  a ∈ l → b ∈ l → a ≠ b → (1 < length l)%nat.
Proof.
  intros Ha Hb Hab. destruct l as [|x [|y l]]; simpl; [|exfalso|lia].
  - by apply elem_of_nil in Ha.
  - apply list_elem_of_singleton in Ha, Hb. congruence.
Qed.

(** C6, as the code has it. The comparator takes as [U] the union, over the
    nodes analysed with success, of the external IPs of their NAT summaries:
    the external IPs of every successfully parsed NAT rule, EgressIP related
    or not.  A node is flagged, with [U] minus its own IPs as missing IPs,
    exactly when that difference is not empty, and a node whose IPs contain
    those of every node is never flagged. *)
Theorem missing_ips_are_deficits_to_the_union
  (rc : list (string * rule_counts)) (content : list (string * node_content)) :
  NoDup content.*1 →
  let U := all_snat_ips content in
  let found := _identify_egressip_inconsistencies rc content in
  (∀ x, x ∈ U ↔ ∃ node data, (node, data) ∈ content ∧ x ∈ snat_external_ips data)
  ∧ (∀ node data m, (node, data) ∈ content →
       missing_snat_ips node m ∈ found
       ↔ m = U ∖ snat_external_ips data ∧ m ≠ ∅)
  ∧ (∀ node data, (node, data) ∈ content →
       (∀ other data', (other, data') ∈ content →
                       snat_external_ips data' ⊆ snat_external_ips data) →
       ∀ m, missing_snat_ips node m ∉ found)
  ∧ (∀ node_analyses node data,
       (node, data) ∈ _compare_egressip_rule_content node_analyses →
       ∃ counts snat lrp check valid,
         (node, AnalysisSuccess counts snat lrp check valid) ∈ node_analyses
         ∧ snat_external_ips data = external_ips snat)
  ∧ (∀ snat_rules x,
       x ∈ external_ips (_analyze_egressip_snat_rules snat_rules)
       ↔ ∃ r, r ∈ snat_rules ∧ parsed_successfully r = true
              ∧ external_ip r = Some x ∧ x ≠ "").
Proof.
  intros Hnd U found.
  assert (Hflag : ∀ node data m, (node, data) ∈ content →
     missing_snat_ips node m ∈ found
     ↔ m = U ∖ snat_external_ips data ∧ m ≠ ∅).
  { intros node data m Hin. subst found. rewrite missing_entry_iff. fold U. split.
    - intros (_ & data' & Hin' & Hm & Hne).
      by rewrite (dict_value_unique content node data data').
    - intros [Hm Hne]. split; [|by exists data].
      assert (∃ x, x ∈ m) as [x Hx].
      { apply set_choose_L. done. }
      rewrite Hm in Hx. apply elem_of_difference in Hx as [HxU Hxd].
      subst U. apply elem_of_all_snat_ips in HxU as (n' & d' & Hin' & Hx').
      apply (two_elements_length content (node, data) (n', d')); try done.
      intros [= -> ->]. done. }
  split; [apply elem_of_all_snat_ips|]. split; [exact Hflag|]. split; [|split].
  - intros node data Hin Hsup m Hm.
    apply (Hflag node data m Hin) in Hm as [-> Hne]. apply Hne.
    apply set_eq. intros x. split; [|by intros ?%not_elem_of_empty].
    intros [HxU Hxd]%elem_of_difference. exfalso. apply Hxd.
    subst U. apply elem_of_all_snat_ips in HxU as (n' & d' & Hin' & Hx').
    by apply (Hsup n' d').
  - intros node_analyses node data Hin.
    unfold _compare_egressip_rule_content in Hin.
    apply list_elem_of_omap in Hin as ([n a] & Hin & Hsome).
    destruct a as [counts snat lrp check valid|e]; [|discriminate].
    injection Hsome as -> <-. by exists counts, snat, lrp, check, valid.
  - apply elem_of_analysis_external_ips.
Qed.

Lemma scenario_c_content :
  _compare_egressip_rule_content (node_analyses_of scenario_c)
  = [("node1", {| snat_external_ips := {[ "10.0.0.5" ]}; lrp_priorities := [] |});
     ("node2", {| snat_external_ips := {[ "10.0.0.5"; "10.0.0.6" ]};
                  lrp_priorities := [] |})].
Proof. by vm_compute. Qed.

Lemma missing_ips_scenario_c_witness :
  let content := _compare_egressip_rule_content (node_analyses_of scenario_c) in
  let found :=
    _identify_egressip_inconsistencies
      (_compare_egressip_rule_counts (node_analyses_of scenario_c)) content in
  missing_snat_ips "node1" {[ "10.0.0.6" ]} ∈ found
  ∧ ∀ m, missing_snat_ips "node2" m ∉ found.
Proof.
  intros content found.
  assert (Hnd : NoDup content.*1).
  { subst content. rewrite scenario_c_content. simpl.
    apply NoDup_cons. split; [|apply NoDup_singleton].
    rewrite list_elem_of_singleton. discriminate. }
  destruct (missing_ips_are_deficits_to_the_union
              (_compare_egressip_rule_counts (node_analyses_of scenario_c))
              content Hnd) as (_ & Hflag & Hsup & _).
  fold found in Hflag, Hsup. subst content. rewrite scenario_c_content in *.
  split.
  - eapply Hflag; [by left|]. split.
    + apply (bool_decide_unpack _). by vm_compute.
    + apply nonempty_by_evaluation. by vm_compute.
  - eapply Hsup; [by right; left|].
    intros other data' Hin.
    apply elem_of_cons in Hin as [[= -> ->]|Hin].
    + simpl. apply union_subseteq_l.
    + apply list_elem_of_singleton in Hin as [= -> ->]. done.
Defined.

(** C6, as stated, fails on the word relevant. Node1 has one NAT rule between
    IPv6 addresses, which is parsed but is not EgressIP related (no keyword,
    no IPv4 literal), node2 has none: no node has a relevant external IP, and
    the comparator flags node2 as missing the address of node1. *)
Lemma missing_ips_not_only_relevant_counterexample :
  let out1 := CmdOk "snat fd00::5 fd00:10:244::3 k8s-node1" in
  let calls :=
    [("node1", {| node_snat_output := out1; node_lrp_output := CmdOk "";
                  node_context := no_context |});
     ("node2", {| node_snat_output := CmdOk ""; node_lrp_output := CmdOk "";
                  node_context := no_context |})] in
  egressip_snat_external_ips (_get_egressip_snat_rules out1) = ∅
  ∧ egressip_snat_external_ips (_get_egressip_snat_rules (CmdOk "")) = ∅
  ∧ missing_snat_ips "node2" {[ "fd00::5" ]} ∈ compare_inconsistencies calls.
Proof.
  split; [by vm_compute|]. split; [by vm_compute|].
  vm_compute. apply list_elem_of_further, list_elem_of_here.
Qed.

(** ** The trend of a series *)

Section Trend.
Import PyFloat64 Metrics.

Lemma of_int_ten : of_int 10 = S754_finite false 5629499534213120 (-49).
Proof. vm_compute. reflexivity. Qed.

Lemma of_int_minus_ten : of_int (-10) = S754_finite true 5629499534213120 (-49).
Proof. vm_compute. reflexivity. Qed.

(** A change below -10 is not above 10. *)
Lemma below_minus_ten_not_above_ten (x : float) :
  ltb x (of_int (-10)) = true → gtb x (of_int 10) = false.
Proof.
  unfold ltb, gtb. rewrite of_int_ten, of_int_minus_ten.
  destruct x as [s|s| |s m e]; try destruct s; intros H;
    try reflexivity; try discriminate H.
Qed.

(** Without a positive first mean the change is 0, which is [stable]. *)
Lemma zero_is_stable :
  gtb (of_int 0) (of_int 10) = false ∧ ltb (of_int 0) (of_int (-10)) = false.
Proof. split; vm_compute; reflexivity. Qed.

(** C8, as the code has it. Fewer than two points give [insufficient_data].
    Otherwise the series is cut at [floor(len / 2)], the second half taking
    the extra element of an odd length, and the means [a] and [b] of the two
    halves are compared: when [a] is above 0 the direction is [increasing]
    for a change [(b - a) / a * 100] above 10, [decreasing] below -10 and
    [stable] otherwise; when [a] is not above 0 the change counts as 0 and
    the direction is [stable].  Means and change are the floating point
    numbers the code computes.  The series [10, 10, 10, 20, 20] is
    [increasing], and equal series have equal directions. *)
Theorem simple_trend_direction (values : list float) :
  ((length values < 2)%nat → _simple_trend values = "insufficient_data")
  ∧ ((2 <= length values)%nat →
     let mid_point := (length values / 2)%nat in
     let first := take mid_point values in
     let second := drop mid_point values in
     let a := div (sum first) (of_nat (length first)) in
     let b := div (sum second) (of_nat (length second)) in
     let change := mul (div (sub b a) a) (of_int 100) in
     (length first <= length second <= length first + 1)%nat
     ∧ first ++ second = values
     ∧ (gtb a (of_int 0) = true → gtb change (of_int 10) = true →
        _simple_trend values = "increasing")
     ∧ (gtb a (of_int 0) = true → ltb change (of_int (-10)) = true →
        _simple_trend values = "decreasing")
     ∧ (gtb a (of_int 0) = true → gtb change (of_int 10) = false →
        ltb change (of_int (-10)) = false →
        _simple_trend values = "stable")
     ∧ (gtb a (of_int 0) = false → _simple_trend values = "stable"))
  ∧ _simple_trend (map of_int [10; 10; 10; 20; 20]) = "increasing"
  ∧ (∀ values', values' = values →
                _simple_trend values' = _simple_trend values).
Proof.
  split; [|split; [|split]].
  - intros H. unfold _simple_trend. apply Nat.ltb_lt in H. by rewrite H.
  - intros Hlen mid_point first second a b change.
    assert (Hmid : (mid_point <= length values)%nat).
    { subst mid_point. apply Nat.Div0.div_le_upper_bound. lia. }
    assert (Hmid0 : (0 < mid_point)%nat).
    { subst mid_point. apply Nat.div_str_pos. lia. }
    assert (Hf : length first = mid_point).
    { subst first. rewrite length_take. lia. }
    assert (Hs : length second = (length values - mid_point)%nat).
    { subst second. apply length_drop. }
    assert (Ha : a = first_half_avg values).
    { subst a. unfold first_half_avg. fold mid_point first. rewrite Hf.
      apply Nat.ltb_lt in Hmid0. by rewrite Hmid0. }
    assert (Hb : b = second_half_avg values).
    { subst b. unfold second_half_avg. fold mid_point second. by rewrite Hs. }
    assert (Hlt : (length values <? 2)%nat = false) by (apply Nat.ltb_ge; lia).
    split.
    { rewrite Hf, Hs. subst mid_point.
      pose proof (Nat.div_mod_eq (length values) 2) as E.
      pose proof (Nat.mod_upper_bound (length values) 2). lia. }
    split; [apply take_drop|].
    unfold _simple_trend, diff_percent. rewrite Hlt, <- Ha, <- Hb. fold change.
    split; [|split; [|split]].
    + intros H0 Hc. rewrite H0, Hc. reflexivity.
    + intros H0 Hc. rewrite H0, Hc.
      rewrite (below_minus_ten_not_above_ten _ Hc). reflexivity.
    + intros H0 Hhi Hlo. rewrite H0, Hhi, Hlo. reflexivity.
    + intros H0. rewrite H0.
      destruct zero_is_stable as [-> ->]. reflexivity.
  - vm_compute. reflexivity.
  - intros values' ->. reflexivity.
Qed.

End Trend.

Lemma simple_trend_direction_witness :
  let values := map PyFloat64.of_int [10; 8; 8; 9] in
  Metrics._simple_trend values = "stable".
Proof.
  intros values.
  destruct (simple_trend_direction values) as (_ & Hlong & _ & _).
  destruct Hlong as (_ & _ & _ & _ & Hstable & _); [vm_compute; lia|].
  apply Hstable; vm_compute; reflexivity.
Defined.

(** C8, as stated, fails when the mean of the first half is not positive.
    On the series [-10, -20] the means are -10 and -20, the change
    [(b - a) / a * 100] is 100, above 10, and the direction is [stable],
    neither [increasing] nor [decreasing]. *)
Lemma simple_trend_negative_mean_counterexample :
  let values := map PyFloat64.of_int [-10; -20] in
  let a := PyFloat64.div (Metrics.sum (take 1 values)) (PyFloat64.of_int 1) in
  let b := PyFloat64.div (Metrics.sum (drop 1 values)) (PyFloat64.of_int 1) in
  let change :=
    PyFloat64.mul (PyFloat64.div (PyFloat64.sub b a) a) (PyFloat64.of_int 100) in
  a = PyFloat64.of_int (-10) ∧ b = PyFloat64.of_int (-20)
  ∧ change = PyFloat64.of_int 100
  ∧ PyFloat64.gtb change (PyFloat64.of_int 10) = true
  ∧ Metrics._simple_trend values = "stable"
  ∧ Metrics._simple_trend values ≠ "increasing"
  ∧ Metrics._simple_trend values ≠ "decreasing".
Proof. vm_compute. repeat split; discriminate. Qed.

(** The change is the rounded one: the means of [40, 21, 9] and of
    [23, 18, 36] are 70/3 and 77/3, 10 percent apart, and the change the
    code computes is the next floating point number above 10. *)
Example simple_trend_rounds :
  let values := map PyFloat64.of_int [40; 21; 9; 23; 18; 36] in
  Metrics.diff_percent values = S754_finite false 5629499534213126 (-49)
  ∧ PyFloat64.of_int 10 = S754_finite false 5629499534213120 (-49)
  ∧ Metrics._simple_trend values = "increasing".
Proof. vm_compute. repeat split. Qed.

(** ** Scenarios of the specification, as checks of the model *)

(** Scenario A: one NAT rule, one policy rule naming its external IP, and
    that IP assigned. *)
Example scenario_a :
  let snat := [_parse_egressip_snat_rule "snat 10.0.0.5 192.168.1.10 port1"] in
  let lrp := [_parse_egressip_lrp_rule "100 ip4.src==192.168.1.10 reroute 10.0.0.5"] in
  let ctx := {| available := true; total_assigned_ips := ["10.0.0.5"];
                context_error := None |} in
  let c := _check_egressip_rule_consistency snat lrp in
  let v := _validate_rules_against_egressips snat lrp ctx in
  consistency_score c = PyFloat 1
  ∧ snat_lrp_correlation c = "good"
  ∧ elements (missing_snat_rules v) = []
  ∧ elements (unexpected_snat_rules v) = [].
Proof. by vm_compute. Qed.

(** Scenario D: five snapshots of a node that does not change. *)
Example scenario_d :
  let snapshots :=
    map (fun i => _take_egressip_rule_snapshot seed1 (observe quiet_session i))
        (seq 0 5) in
  let ca := _analyze_egressip_rule_changes snapshots in
  total_change_events ca = Some 0%nat
  ∧ stability (_assess_egressip_rule_stability ca) = "stable".
Proof. by vm_compute. Qed.

(** * Further properties of the analyzer and of the collector *)

(** ** Fetching and parsing *)

Section Fetching.

Lemma snat_parse_raw (line : string) :
  raw_rule (_parse_egressip_snat_rule line) = line.
Proof.
  unfold _parse_egressip_snat_rule. by destruct (_ && _).
Qed.

Lemma lrp_parse_raw (line : string) :
  raw_rule (_parse_egressip_lrp_rule line) = line.
Proof.
  unfold _parse_egressip_lrp_rule. by destruct (_ <=? _)%nat.
Qed.

(** X1. The list of NAT rules has one record for every output line that
    mentions [snat] in any letter case, in the order of the output, whether
    the line parses or not, and its raw text is the stripped line; the list
    of policy rules has one record for every line that is not blank and
    does not start with [Routing].  A command that failed gives no rule. *)
Theorem fetched_rules_follow_the_lines (stdout : string) :
  map raw_rule (_get_egressip_snat_rules (CmdOk stdout))
  = filter (fun line => contains "snat" (lower line) = true)
           (map strip (output_lines stdout))
  ∧ map raw_rule (_get_egressip_lrp_rules (CmdOk stdout))
    = filter (fun line => truthy line = true ∧ startswith line "Routing" = false)
             (map strip (output_lines stdout))
  ∧ _get_egressip_snat_rules CmdFailed = []
  ∧ _get_egressip_lrp_rules CmdFailed = [].
Proof.
  split; [|split; [|done]]; simpl;
    induction (output_lines stdout) as [|line lines IH]; try done.
  - unfold snat_rules_of_lines in *. cbn [omap list_omap map].
    destruct (contains "snat" (lower (strip line))) eqn:E.
    + rewrite filter_cons_True by done. cbn [map]. by rewrite snat_parse_raw, IH.
    + rewrite filter_cons_False by congruence. done.
  - unfold lrp_rules_of_lines in *. cbn [omap list_omap map].
    destruct (truthy (strip line)) eqn:Et;
      [destruct (startswith (strip line) "Routing") eqn:Es|]; cbn [andb negb].
    + rewrite filter_cons_False; [done|]. intros [_ ?]. congruence.
    + rewrite filter_cons_True by done. cbn [map]. by rewrite lrp_parse_raw, IH.
    + rewrite filter_cons_False; [done|]. intros [? _]. congruence.
Qed.

Lemma str_nonempty (c : ascii) (l : list ascii) : str (c :: l) ≠ "".
Proof. discriminate. Qed.

Lemma split_go_tokens (cur l : list ascii) (t : string) :
  forallb (fun c => negb (isspace c)) cur = true →
  t ∈ split_go cur l → is_token t.
Proof.
  revert cur. induction l as [|c l IH]; intros cur Hcur; simpl.
  - destruct cur as [|a cur]; [by intros ?%elem_of_nil|].
    intros ->%list_elem_of_singleton. split.
    + intros E. apply (f_equal chars) in E. rewrite chars_str in E.
      apply (f_equal (@length ascii)) in E. rewrite length_rev in E. discriminate.
    + rewrite chars_str, forallb_forall. intros x Hx%in_rev.
      rewrite forallb_forall in Hcur. by apply Hcur.
  - destruct (isspace c) eqn:Hc.
    + destruct cur as [|a cur]; [by apply IH|].
      intros [->|Ht]%elem_of_cons; [|by apply (IH [])].
      split.
      * intros E. apply (f_equal chars) in E. rewrite chars_str in E.
        apply (f_equal (@length ascii)) in E. rewrite length_rev in E. discriminate.
      * rewrite chars_str, forallb_forall. intros x Hx%in_rev.
        rewrite forallb_forall in Hcur. by apply Hcur.
    + apply IH. simpl. by rewrite Hc.
Qed.

(** Every part of [s.split()] is a token. *)
Lemma split_tokens (s t : string) : t ∈ split s → is_token t.
Proof. by apply split_go_tokens. Qed.

Lemma item_in_parts (parts : list string) (i : nat) :
  (i < length parts)%nat → item parts i ∈ parts.
Proof.
  intros H. unfold item. apply list_elem_of_In, nth_In. done.
Qed.

(** X2. A NAT line is parsed with success exactly when it has four tokens
    or more and the first is [snat] in any letter case; the external IP, the
    logical IP and the logical port are then the second, third and fourth
    token (what follows is ignored), each not empty and free of white
    space. *)
Theorem snat_parse_success_fields (rule_line : string) :
  let parts := split rule_line in
  let r := _parse_egressip_snat_rule rule_line in
  (parsed_successfully r = true
   ↔ (4 <= length parts)%nat ∧ lower (item parts 0) = "snat")
  ∧ (parsed_successfully r = true →
     external_ip r = Some (item parts 1)
     ∧ logical_ip r = Some (item parts 2)
     ∧ logical_port r = Some (item parts 3)
     ∧ is_token (item parts 1) ∧ is_token (item parts 2)
     ∧ is_token (item parts 3)
     ∧ egressip_related r = _is_egressip_related_snat rule_line).
Proof.
  intros parts r. subst r. unfold _parse_egressip_snat_rule.
  rewrite split_strip. fold parts.
  destruct (4 <=? length parts)%nat eqn:E4;
    [destruct (String.eqb (lower (item parts 0)) "snat") eqn:Es|]; simpl.
  - apply Nat.leb_le in E4. apply String.eqb_eq in Es.
    split; [done|]. intros _. repeat split; try done;
      try (eapply split_tokens, item_in_parts; lia).
    all: by eapply (split_tokens rule_line), item_in_parts; fold parts; lia.
  - apply String.eqb_neq in Es. split; [|done].
    split; [done|]. by intros [_ ?].
  - apply Nat.leb_gt in E4. split; [|done].
    split; [done|]. intros [? _]. lia.
Qed.

End Fetching.

Section PolicyLines.

(** Reading one token: the parts of a list are the token at its head, if
    any, and the parts of what follows it. *)
Lemma emitted_token (cur : list ascii) :
  match rev cur with [] => [] | tok => [str tok] end
  = match cur with [] => [] | _ => [str (rev cur)] end.
Proof.
  destruct cur as [|a cur]; [done|].
  destruct (rev (a :: cur)) eqn:E; [|done].
  apply (f_equal (@length ascii)) in E. rewrite length_rev in E. discriminate.
Qed.

Lemma split_go_span (l cur : list ascii) :
  split_go cur l
  = match rev cur ++ (span_token l).1 with
    | [] => []
    | tok => [str tok]
    end ++ split_go [] (span_token l).2.
Proof.
  revert cur. induction l as [|c l IH]; intros cur.
  - cbn [split_go span_token fst snd]. rewrite !app_nil_r.
    symmetry. apply emitted_token.
  - cbn [split_go span_token]. destruct (isspace c) eqn:Hc.
    + cbn [fst snd split_go]. rewrite Hc, app_nil_r, emitted_token.
      by destruct cur.
    + rewrite IH. destruct (span_token l) as [t r] eqn:Et.
      cbn [fst snd rev]. by rewrite <- app_assoc.
Qed.

Lemma split_go_lstrip (l : list ascii) :
  split_go [] (lstrip_chars l) = split_go [] l.
Proof.
  destruct (lstrip_chars_split l) as (ws & Hws & Hl).
  rewrite Hl at 2. by rewrite split_go_skip_spaces.
Qed.

(** Splitting at most [n] times gives the first [n] tokens, and one more
    part when tokens are left. *)
Lemma split_max_go_tokens (n : nat) (l : list ascii) :
  length (split_max_go n l) = Nat.min (S n) (length (split_go [] l))
  ∧ take n (split_max_go n l) = take n (split_go [] l).
Proof.
  revert l. induction n as [|n IH]; intros l;
    rewrite <- (split_go_lstrip l); cbn [split_max_go];
    destruct (lstrip_chars l) as [|c r] eqn:E; try done;
    pose proof (lstrip_chars_head _ _ _ E) as Hc.
  - cbn [split_go]. rewrite Hc, !take_0.
    destruct (split_go [c] r) eqn:E2; [|done].
    by apply split_go_nonempty in E2.
  - rewrite (split_go_span (c :: r) []).
    destruct (span_token_head c r Hc) as (t & q & Es).
    rewrite Es. cbn [fst snd rev app length take].
    destruct (IH q) as [IH1 IH2]. rewrite IH1, IH2. done.
Qed.

(** A policy line that parsed has a priority that is not empty and an
    action that starts with a character other than white space. *)
Lemma lrp_parsed_line_shape (line : string) :
  let r := _parse_egressip_lrp_rule line in
  parsed_successfully r = true →
  ∃ p c rest, priority r = Some p ∧ truthy p = true
              ∧ action r = Some (str (c :: rest)) ∧ isspace c = false.
Proof.
  intros r. subst r. unfold _parse_egressip_lrp_rule.
  destruct (3 <=? length (split_max (strip line) 2))%nat eqn:E; [|discriminate].
  intros _. apply Nat.leb_le in E.
  destruct (split_max_three _ E) as (c1 & t1 & c2 & t2 & c3 & r3 & Hp & Hc3).
  cbn [priority action]. rewrite Hp. unfold item. cbn [nth].
  exists (str (c1 :: t1)), c3, r3. by rewrite truthy_str_cons.
Qed.

(** X3. A policy line is parsed with success exactly when it has three
    tokens or more; the priority and the match are then its first and
    second token, and the action is not empty and starts with a character
    that is no white space. *)
Theorem lrp_parse_success_fields (rule_line : string) :
  let tokens := split rule_line in
  let r := _parse_egressip_lrp_rule rule_line in
  (parsed_successfully r = true ↔ (3 <= length tokens)%nat)
  ∧ (parsed_successfully r = true →
     priority r = Some (item tokens 0)
     ∧ rule_match r = Some (item tokens 1)
     ∧ is_token (item tokens 0) ∧ is_token (item tokens 1)
     ∧ ∃ c rest, action r = Some (str (c :: rest)) ∧ isspace c = false).
Proof.
  intros tokens r.
  destruct (split_max_go_tokens 2 (chars (strip rule_line))) as [Hlen Htake].
  fold (split_max (strip rule_line) 2) in Hlen, Htake.
  fold (split (strip rule_line)) in Hlen, Htake.
  rewrite split_strip in Hlen, Htake. fold tokens in Hlen, Htake.
  subst r. unfold _parse_egressip_lrp_rule.
  destruct (3 <=? length (split_max (strip rule_line) 2))%nat eqn:E; simpl.
  - apply Nat.leb_le in E. split; [split; [lia|done]|]. intros _.
    destruct (split_max_three _ E) as (c1 & t1 & c2 & t2 & c3 & r3 & Hp & Hc3).
    assert (H3 : (3 <= length tokens)%nat) by lia.
    assert (H01 : item (split_max (strip rule_line) 2) 0 = item tokens 0
                  ∧ item (split_max (strip rule_line) 2) 1 = item tokens 1).
    { unfold item. rewrite Hp in Htake |- *.
      destruct tokens as [|a [|b tl]]; cbn [length] in H3; try lia.
      cbn [take] in Htake. injection Htake as Ha Hb.
      subst a b. by cbn [nth]. }
    destruct H01 as [H0 H1].
    rewrite H0, H1. split; [done|]. split; [done|].
    split; [eapply (split_tokens rule_line), item_in_parts; fold tokens; lia|].
    split; [eapply (split_tokens rule_line), item_in_parts; fold tokens; lia|].
    exists c3, r3. split; [|done]. by rewrite Hp.
  - apply Nat.leb_gt in E. split; [|done]. split; [done|]. lia.
Qed.

Lemma lrp_loop_on_fetched (lines : list string) (st : lrp_state) :
  is_Some (lrp_loop st (lrp_rules_of_lines lines)).
Proof.
  revert st. induction lines as [|line lines IH]; intros st; [by eexists|].
  unfold lrp_rules_of_lines in *. cbn [omap list_omap].
  destruct (truthy (strip line) && negb (startswith (strip line) "Routing"));
    [|apply IH].
  cbn [lrp_loop].
  destruct (lrp_step_on_parsed_line st (strip line)) as [st' ->]. apply IH.
Qed.

Lemma lrp_analysis_of_fetched (out : cmd_result) :
  is_Some (_analyze_egressip_lrp_rules (_get_egressip_lrp_rules out)).
Proof.
  unfold _analyze_egressip_lrp_rules.
  assert (Hloop : is_Some (lrp_loop
    {| st_priorities := []; st_action_types := []; st_issues := [] |}
    (_get_egressip_lrp_rules out))).
  { destruct out; [apply lrp_loop_on_fetched|by eexists]. }
  destruct Hloop as [st ->]. by eexists.
Qed.

(** X4. The analysis of a node does not fail: whatever the two commands
    gave, the policy analysis returns (the action of a parsed line always has
    a first word) and [analyze_node_rules] returns a success record, built
    from the rules fetched. *)
Theorem analyze_node_rules_succeeds (inp : node_input) :
  let snat := _get_egressip_snat_rules (node_snat_output inp) in
  let lrp := _get_egressip_lrp_rules (node_lrp_output inp) in
  ∃ lrp_summary,
    _analyze_egressip_lrp_rules lrp = Some lrp_summary
    ∧ analyze_node_rules inp
      = AnalysisSuccess
          {| snat_rules := length snat; lrp_rules := length lrp |}
          (_analyze_egressip_snat_rules snat) lrp_summary
          (_check_egressip_rule_consistency snat lrp)
          (_validate_rules_against_egressips snat lrp (node_context inp)).
Proof.
  intros snat lrp.
  destruct (lrp_analysis_of_fetched (node_lrp_output inp)) as [a Ha].
  fold lrp in Ha. exists a. split; [done|].
  unfold analyze_node_rules. fold snat lrp. by rewrite Ha.
Qed.

End PolicyLines.

(** ** The summaries of the rules *)

Section Summaries.

Lemma count_where_split (f : rule → bool) (rules : list rule) :
  length rules
  = (count_where f rules + length (filter (fun r => f r = false) rules))%nat.
Proof.
  unfold count_where. induction rules as [|r rules IH]; [done|].
  destruct (f r) eqn:E.
  - rewrite filter_cons_True, (filter_cons_False (fun r => f r = false))
      by congruence. simpl. lia.
  - rewrite filter_cons_False, (filter_cons_True (fun r => f r = false))
      by congruence. simpl. lia.
Qed.

Lemma count_where_le (f : rule → bool) (rules : list rule) :
  (count_where f rules <= length rules)%nat.
Proof. rewrite (count_where_split f rules). lia. Qed.

Lemma size_add_if_truthy (o : option string) (s : gset string) :
  (size (add_if_truthy o s) <= S (size s))%nat.
Proof.
  unfold add_if_truthy. destruct o as [x|]; [destruct (truthy x)|]; try lia.
  rewrite size_union_alt.
  assert (size ({[x]} ∖ s : gset string) <= 1)%nat; [|lia].
  etransitivity; [apply subseteq_size, subseteq_difference_l; reflexivity|].
  by rewrite size_singleton.
Qed.

Lemma snat_fold_accounting (rules : list rule)
  (st : gset string * gset string * list string) :
  let st' := foldl snat_step st rules in
  st'.2 = st.2 ++ map failed_to_parse
                      (filter (fun r => parsed_successfully r = false) rules)
  ∧ (size st'.1.1 <= size st.1.1 + count_where parsed_successfully rules)%nat
  ∧ (size st'.1.2 <= size st.1.2 + count_where parsed_successfully rules)%nat.
Proof.
  revert st. induction rules as [|r rules IH]; intros [[ext log] issues].
  - cbn. rewrite app_nil_r. unfold count_where. cbn. split; [done|lia].
  - cbn [foldl]. destruct (IH (snat_step (ext, log, issues) r)) as (I1 & I2 & I3).
    unfold count_where in *. cbn zeta. rewrite I1. clear I1.
    unfold snat_step in *. destruct (parsed_successfully r) eqn:Hp.
    + rewrite filter_cons_False by congruence.
      rewrite (filter_cons_True (fun r => parsed_successfully r = true)) by done.
      cbn [fst snd length] in *.
      pose proof (size_add_if_truthy (external_ip r) ext).
      pose proof (size_add_if_truthy (logical_ip r) log).
      split; [done|]. lia.
    + rewrite filter_cons_True by done.
      rewrite (filter_cons_False (fun r => parsed_successfully r = true))
        by congruence.
      cbn [fst snd map] in *. rewrite <- app_assoc. split; [done|]. lia.
Qed.

(** X5. In the summary of the NAT rules every rule is counted once, as
    parsed or as an issue: the issues are one [Failed to parse rule] line
    per rule that did not parse, in the order of the rules, and the numbers
    of distinct external and logical IPs are at most the number of parsed
    rules. *)
Theorem snat_summary_accounts_for_every_rule (snat_rules : list rule) :
  let a := _analyze_egressip_snat_rules snat_rules in
  sa_total_rules a = length snat_rules
  ∧ sa_total_rules a
    = (sa_parsed_successfully a + length (sa_potential_issues a))%nat
  ∧ sa_potential_issues a
    = map failed_to_parse
          (filter (fun r => parsed_successfully r = false) snat_rules)
  ∧ unique_external_ips a = size (external_ips a)
  ∧ (unique_external_ips a <= sa_parsed_successfully a)%nat
  ∧ (unique_logical_ips a <= sa_parsed_successfully a)%nat
  ∧ (sa_egressip_related a <= sa_total_rules a)%nat.
Proof.
  intros a. subst a. unfold _analyze_egressip_snat_rules.
  destruct (snat_fold_accounting snat_rules (∅, ∅, [])) as (I1 & I2 & I3).
  destruct (foldl snat_step (∅, ∅, []) snat_rules) as [[ext log] issues].
  cbn [fst snd app] in I1, I2, I3. rewrite size_empty in I2, I3.
  cbn [sa_total_rules sa_parsed_successfully sa_potential_issues
       unique_external_ips unique_logical_ips external_ips sa_egressip_related].
  split; [done|]. split.
  { rewrite I1, length_map. apply count_where_split. }
  split; [done|]. split; [done|]. split; [lia|]. split; [lia|].
  apply count_where_le.
Qed.

Lemma total_count_up (k : string) (d : list (string * nat)) :
  total_count (count_up k d) = S (total_count d).
Proof.
  induction d as [|[k' n] d IH]; [done|].
  cbn [count_up]. destruct (String.eqb k k'); simpl in *; lia.
Qed.

Lemma lrp_priority_step_actions (st : lrp_state) (r : rule) :
  st_action_types (lrp_priority_step st r) = st_action_types st.
Proof.
  unfold lrp_priority_step. destruct (priority r) as [p|]; [|done].
  destruct (truthy p); [|done]. by destruct (PyRepr.int p).
Qed.

(** One turn of the loop on a line as it is fetched: a rule that parsed
    gives one action count and either a priority or an issue, a line that
    did not parse gives an issue. *)
Lemma lrp_step_accounting (st st' : lrp_state) (line : string) :
  lrp_step st (_parse_egressip_lrp_rule line) = Some st' →
  let r := _parse_egressip_lrp_rule line in
  (length (st_priorities st') + length (st_issues st')
   = S (length (st_priorities st) + length (st_issues st)))%nat
  ∧ total_count (st_action_types st')
    = ((if parsed_successfully r then 1 else 0)
       + total_count (st_action_types st))%nat.
Proof.
  intros Hstep r.
  pose proof (lrp_parsed_line_shape line) as Hshape.
  cbv zeta in Hshape. fold r in Hshape.
  unfold lrp_step in Hstep. fold r in Hstep.
  destruct (parsed_successfully r) eqn:Hp.
  - destruct (Hshape eq_refl) as (p & c & rest & Hprio & Ht & Hact & Hc).
    rewrite Hact, truthy_str_cons in Hstep.
    destruct (split (str (c :: rest))) as [|w ws]; [discriminate|].
    injection Hstep as <-. cbn [st_priorities st_issues st_action_types].
    rewrite total_count_up, lrp_priority_step_actions. split; [|done].
    unfold lrp_priority_step. rewrite Hprio, Ht.
    destruct (PyRepr.int p);
      cbn [st_priorities st_issues]; rewrite length_app; simpl; lia.
  - injection Hstep as <-. cbn [st_priorities st_issues st_action_types].
    rewrite length_app. simpl. split; lia.
Qed.

Lemma lrp_loop_accounting (lines : list string) (st st' : lrp_state) :
  lrp_loop st (lrp_rules_of_lines lines) = Some st' →
  (length (st_priorities st') + length (st_issues st')
   = length (lrp_rules_of_lines lines)
     + (length (st_priorities st) + length (st_issues st)))%nat
  ∧ total_count (st_action_types st')
    = (count_where parsed_successfully (lrp_rules_of_lines lines)
       + total_count (st_action_types st))%nat.
Proof.
  revert st. induction lines as [|line lines IH]; intros st.
  - intros [= <-]. unfold count_where. simpl. lia.
  - unfold lrp_rules_of_lines in *. cbn [omap list_omap].
    destruct (truthy (strip line) && negb (startswith (strip line) "Routing"));
      [|apply IH].
    cbn [lrp_loop].
    destruct (lrp_step st (_parse_egressip_lrp_rule (strip line))) as [st1|] eqn:E;
      [|discriminate].
    intros Hloop. destruct (IH _ Hloop) as [I1 I2].
    destruct (lrp_step_accounting _ _ _ E) as [S1 S2].
    unfold count_where in *.
    destruct (parsed_successfully (_parse_egressip_lrp_rule (strip line))) eqn:Hp.
    + rewrite filter_cons_True by done. cbn [length]. lia.
    + rewrite filter_cons_False by congruence. cbn [length]. lia.
Qed.

(** X6. In the summary of the policy rules fetched from a node every rule
    is counted once, as a priority read or as an issue (a line that did not
    parse, or a priority that is no integer), and the counts per action add
    up to the number of parsed rules. *)
Theorem lrp_summary_accounts_for_every_rule (out : cmd_result) :
  ∃ a, _analyze_egressip_lrp_rules (_get_egressip_lrp_rules out) = Some a
    ∧ la_total_rules a = length (_get_egressip_lrp_rules out)
    ∧ (length (priorities a) + length (la_potential_issues a))%nat
      = la_total_rules a
    ∧ total_count (action_types a) = la_parsed_successfully a
    ∧ (la_parsed_successfully a <= la_total_rules a)%nat.
Proof.
  destruct (lrp_analysis_of_fetched out) as [a Ha].
  exists a. split; [done|].
  unfold _analyze_egressip_lrp_rules in Ha.
  destruct (lrp_loop _ _) as [st|] eqn:Hloop; [|discriminate].
  injection Ha as <-.
  cbn [la_total_rules priorities la_potential_issues action_types
       la_parsed_successfully].
  split; [done|].
  destruct out as [stdout|].
  - cbn [_get_egressip_lrp_rules] in *.
    destruct (lrp_loop_accounting _ _ _ Hloop) as [I1 I2].
    cbn [st_priorities st_issues st_action_types length total_count foldr] in I1, I2.
    split; [lia|]. split; [lia|]. apply count_where_le.
  - cbn [_get_egressip_lrp_rules lrp_loop] in *. injection Hloop as <-.
    by cbn.
Qed.

Lemma foldl_min_spec (ps : list Z) (p : Z) :
  (∀ x, x ∈ p :: ps → foldl Z.min p ps <= x) ∧ foldl Z.min p ps ∈ p :: ps.
Proof.
  revert p. induction ps as [|q ps IH]; intros p; cbn [foldl].
  - split; [|by left]. intros x ->%list_elem_of_singleton. lia.
  - destruct (IH (Z.min p q)) as [Hle Hin]. split.
    + intros x Hx.
      assert (foldl Z.min (Z.min p q) ps <= Z.min p q) by (apply Hle; by left).
      apply elem_of_cons in Hx as [->|Hx]; [lia|].
      apply elem_of_cons in Hx as [->|Hx]; [lia|].
      apply Hle. by right.
    + apply elem_of_cons in Hin as [->|Hin].
      * destruct (Z.min_spec p q) as [[_ ->]|[_ ->]]; [by left|by right; left].
      * by right; right.
Qed.

Lemma foldl_max_spec (ps : list Z) (p : Z) :
  (∀ x, x ∈ p :: ps → x <= foldl Z.max p ps) ∧ foldl Z.max p ps ∈ p :: ps.
Proof.
  revert p. induction ps as [|q ps IH]; intros p; cbn [foldl].
  - split; [|by left]. intros x ->%list_elem_of_singleton. lia.
  - destruct (IH (Z.max p q)) as [Hle Hin]. split.
    + intros x Hx.
      assert (Z.max p q <= foldl Z.max (Z.max p q) ps) by (apply Hle; by left).
      apply elem_of_cons in Hx as [->|Hx]; [lia|].
      apply elem_of_cons in Hx as [->|Hx]; [lia|].
      apply Hle. by right.
    + apply elem_of_cons in Hin as [->|Hin].
      * destruct (Z.max_spec p q) as [[_ ->]|[_ ->]]; [by right; left|by left].
      * by right; right.
Qed.

Lemma size_list_to_set_le (l : list Z) :
  (size (list_to_set l : gset Z) <= length l)%nat.
Proof.
  induction l as [|x l IH]; cbn [list_to_set length].
  - by rewrite size_empty.
  - rewrite size_union_alt, size_singleton.
    assert (size ((list_to_set l : gset Z) ∖ {[x]}) <= size (list_to_set l : gset Z))%nat
      by (apply subseteq_size, subseteq_difference_l; reflexivity).
    lia.
Qed.

(** X7. The priority statistics of a policy summary: with no priority
    read they are all 0; otherwise [min] and [max] are priorities of the
    list that bound every priority, and the number of distinct priorities is
    between 1 and the number of priorities. *)
Theorem priority_stats_bound_the_priorities (lrp_rules : list rule)
  (a : lrp_analysis) :
  _analyze_egressip_lrp_rules lrp_rules = Some a →
  let s := la_priority_stats a in
  (priorities a = [] → ps_min s = 0 ∧ ps_max s = 0 ∧ ps_unique_count s = O)
  ∧ (priorities a ≠ [] →
     ps_min s ∈ priorities a ∧ ps_max s ∈ priorities a
     ∧ (∀ p, p ∈ priorities a → ps_min s <= p <= ps_max s)
     ∧ (1 <= ps_unique_count s <= length (priorities a))%nat).
Proof.
  intros Ha s. unfold _analyze_egressip_lrp_rules in Ha.
  destruct (lrp_loop _ _) as [st|]; [|discriminate]. injection Ha as <-.
  subst s. cbn [la_priority_stats priorities].
  destruct (st_priorities st) as [|p ps]; [done|].
  split; [done|]. intros _. cbn [stats_of ps_min ps_max ps_unique_count].
  destruct (foldl_min_spec ps p) as [Hmin Hmin_in].
  destruct (foldl_max_spec ps p) as [Hmax Hmax_in].
  split; [done|]. split; [done|]. split; [by intros x Hx; split; auto|].
  split.
  - assert (size ({[p]} : gset Z) <= size (list_to_set (p :: ps) : gset Z))%nat.
    { apply subseteq_size. cbn [list_to_set]. apply union_subseteq_l. }
    rewrite size_singleton in *. done.
  - apply size_list_to_set_le.
Qed.

End Summaries.

(** ** Consistency, validation and recommendations *)

Section ConsistencyMore.

Variables snat_rules lrp_rules : list rule.

(** The result of the check when both sides are not empty. *)
Lemma check_when_both :
  let A := egressip_snat_external_ips snat_rules in
  let B := egressip_lrp_ip_references lrp_rules in
  let q := ratio (size (A ∩ B)) (size A) in
  A ≠ ∅ → B ≠ ∅ →
  _check_egressip_rule_consistency snat_rules lrp_rules
  = {| snat_lrp_correlation :=
         if Qgtb q (8 # 10) then "good"
         else if Qgtb q (5 # 10) then "moderate" else "poor";
       issues_found :=
         if Qgtb q (8 # 10) then []
         else if Qgtb q (5 # 10) then [] else [low_correlation_issue];
       consistency_score := PyFloat q;
       details := Some {| cd_snat_external_ips := A;
                          cd_lrp_ip_references := B;
                          cd_correlated_ips := A ∩ B |} |}.
Proof.
  intros A B q HA HB. unfold _check_egressip_rule_consistency. fold A B.
  rewrite (bool_decide_eq_false_2 (A = ∅)), (bool_decide_eq_false_2 (B = ∅)) by done.
  cbn [negb andb]. fold q.
  destruct (Qgtb q (8 # 10)); [done|]. by destruct (Qgtb q (5 # 10)).
Qed.

Lemma size_pos_of_nonempty (X : gset string) : X ≠ ∅ → (0 < size X)%nat.
Proof.
  intros H. destruct (size X) eqn:E; [|lia]. apply size_empty_inv in E.
  by apply leibniz_equiv in E.
Qed.

Lemma Qgtb_ratio (a b : nat) (n d : positive) :
  (0 < b)%nat →
  Qgtb (ratio a b) (Z.pos n # d) = true
  ↔ (Z.pos n * Z.of_nat b < Z.of_nat a * Z.pos d)%Z.
Proof.
  intros Hb. rewrite Qgtb_true. unfold Qlt, ratio. simpl.
  assert (Z.pos (Pos.of_nat b) = Z.of_nat b) as -> by lia. done.
Qed.

(** X8. With both sides not empty the label of the check is decided by
    whole numbers: [good] when [5 |A ∩ B| > 4 |A|], [poor] when
    [2 |A ∩ B| <= |A|], [moderate] in between.  So the label is [good] with
    score 1 when every NAT IP is referenced by a policy rule, and [poor] with
    score 0 and the issue when none is. *)
Theorem consistency_label_by_counts :
  let A := egressip_snat_external_ips snat_rules in
  let B := egressip_lrp_ip_references lrp_rules in
  let check := _check_egressip_rule_consistency snat_rules lrp_rules in
  let common := Z.of_nat (size (A ∩ B)) in
  let all := Z.of_nat (size A) in
  A ≠ ∅ → B ≠ ∅ →
  (snat_lrp_correlation check = "good" ↔ 4 * all < 5 * common)
  ∧ (snat_lrp_correlation check = "moderate"
     ↔ all < 2 * common ∧ 5 * common <= 4 * all)
  ∧ (snat_lrp_correlation check = "poor" ↔ 2 * common <= all)
  ∧ (issues_found check ≠ [] ↔ snat_lrp_correlation check = "poor")
  ∧ (A ⊆ B →
     consistency_score check = PyFloat (ratio (size A) (size A))
     ∧ (ratio (size A) (size A) == 1)%Q
     ∧ snat_lrp_correlation check = "good")
  ∧ (A ## B →
     consistency_score check = PyFloat (ratio 0 (size A))
     ∧ (ratio 0 (size A) == 0)%Q
     ∧ snat_lrp_correlation check = "poor"
     ∧ issues_found check = [low_correlation_issue]).
Proof.
  intros A B check common all HA HB.
  pose proof (size_pos_of_nonempty A HA) as Hpos.
  assert (Hle : (size (A ∩ B) <= size A)%nat)
    by apply subseteq_size, intersection_subseteq_l.
  subst check. rewrite (check_when_both HA HB). fold A B.
  cbn [snat_lrp_correlation issues_found consistency_score].
  pose proof (Qgtb_ratio (size (A ∩ B)) (size A) 8 10 Hpos) as H8.
  pose proof (Qgtb_ratio (size (A ∩ B)) (size A) 5 10 Hpos) as H5.
  fold common all in H8, H5.
  assert (Hlabels :
    (4 * all < 5 * common → Qgtb (ratio (size (A ∩ B)) (size A)) (8 # 10) = true)
    ∧ (5 * common <= 4 * all → Qgtb (ratio (size (A ∩ B)) (size A)) (8 # 10) = false)
    ∧ (all < 2 * common → Qgtb (ratio (size (A ∩ B)) (size A)) (5 # 10) = true)
    ∧ (2 * common <= all → Qgtb (ratio (size (A ∩ B)) (size A)) (5 # 10) = false)).
  { split; [|split; [|split]]; intros H.
    - apply H8. lia.
    - apply not_true_is_false. rewrite H8. lia.
    - apply H5. lia.
    - apply not_true_is_false. rewrite H5. lia. }
  destruct Hlabels as (G1 & G2 & G3 & G4).
  assert (Hcases : 4 * all < 5 * common
                   ∨ (all < 2 * common ∧ 5 * common <= 4 * all)
                   ∨ 2 * common <= all) by lia.
  split; [|split; [|split; [|split; [|split]]]].
  - destruct Hcases as [H|[[H H']|H]].
    + rewrite (G1 H). done.
    + rewrite (G2 H'), (G3 H). split; [discriminate|lia].
    + rewrite G2, (G4 H) by lia. split; [discriminate|lia].
  - destruct Hcases as [H|[[H H']|H]].
    + rewrite (G1 H). split; [discriminate|lia].
    + rewrite (G2 H'), (G3 H). done.
    + rewrite G2, (G4 H) by lia. split; [discriminate|lia].
  - destruct Hcases as [H|[[H H']|H]].
    + rewrite (G1 H). split; [discriminate|lia].
    + rewrite (G2 H'), (G3 H). split; [discriminate|lia].
    + rewrite G2, (G4 H) by lia. done.
  - destruct Hcases as [H|[[H H']|H]].
    + rewrite (G1 H). split; [done|discriminate].
    + rewrite (G2 H'), (G3 H). split; [done|discriminate].
    + rewrite G2, (G4 H) by lia. done.
  - intros Hsub. assert (E : A ∩ B = A) by (apply leibniz_equiv, subseteq_intersection; done).
    subst common. rewrite E in *. rewrite G1 by (subst all; lia).
    split; [done|]. split; [|done].
    unfold ratio, Qeq. simpl. lia.
  - intros Hdisj. assert (E : A ∩ B = ∅) by (apply leibniz_equiv, disjoint_intersection; done).
    subst common. rewrite E, size_empty in *. rewrite G2, G4 by (subst all; lia).
    split; [done|]. split; [|done]. unfold ratio, Qeq. simpl. lia.
Qed.

(** X9. The NAT IPs the check and the validation work on are among the
    external IPs of the NAT summary, and they are the same set when every
    parsed rule is EgressIP related. *)
Theorem relevant_ips_within_summary :
  egressip_snat_external_ips snat_rules
    ⊆ external_ips (_analyze_egressip_snat_rules snat_rules)
  ∧ ((∀ r, r ∈ snat_rules → parsed_successfully r = true →
           egressip_related r = true) →
     egressip_snat_external_ips snat_rules
     = external_ips (_analyze_egressip_snat_rules snat_rules)).
Proof.
  split.
  - intros x. rewrite elem_of_egressip_snat_external_ips,
      elem_of_analysis_external_ips.
    intros (r & Hr & Hp & _ & Hx & Hne). by exists r.
  - intros Hall. apply set_eq. intros x.
    rewrite elem_of_egressip_snat_external_ips, elem_of_analysis_external_ips.
    split.
    + intros (r & Hr & Hp & _ & Hx & Hne). by exists r.
    + intros (r & Hr & Hp & Hx & Hne). exists r. by rewrite (Hall r).
Qed.

End ConsistencyMore.

Section ValidationMore.
Import Reports.

(** X10. When the validation is made, an IP is never both missing and
    unexpected, the assigned IPs that are not missing are as many as the NAT
    IPs that are not unexpected, an assigned IP listed twice counts once,
    and the validation passes exactly when the set of assigned IPs is the set
    of NAT IPs. *)
Theorem validation_counts_balance (snat_rules lrp_rules : list rule)
  (ctx : egressip_context) :
  available ctx = true →
  let v := _validate_rules_against_egressips snat_rules lrp_rules ctx in
  let declared : gset string := list_to_set (total_assigned_ips ctx) in
  let nat_ips := egressip_snat_external_ips snat_rules in
  missing_snat_rules v ## unexpected_snat_rules v
  ∧ ∃ s, summary v = Some s
      ∧ (total_assigned_egressips s - missing_rules_count s
         = total_snat_external_ips s - unexpected_rules_count s)%nat
      ∧ (missing_rules_count s <= total_assigned_egressips s)%nat
      ∧ (unexpected_rules_count s <= total_snat_external_ips s)%nat
      ∧ (total_assigned_egressips s <= length (total_assigned_ips ctx))%nat
      ∧ (validation_passed s = true ↔ declared = nat_ips).
Proof.
  intros Hav v declared nat_ips. subst v.
  unfold _validate_rules_against_egressips. rewrite Hav. fold declared nat_ips.
  cbn [missing_snat_rules unexpected_snat_rules summary].
  split; [apply disjoint_difference_l1, subseteq_difference_l; reflexivity|].
  eexists. split; [reflexivity|].
  cbn [total_assigned_egressips missing_rules_count total_snat_external_ips
       unexpected_rules_count validation_passed].
  rewrite (size_difference_alt declared nat_ips),
    (size_difference_alt nat_ips declared).
  rewrite (comm_L (∩) nat_ips declared).
  assert (size (declared ∩ nat_ips) <= size declared)%nat
    by apply subseteq_size, intersection_subseteq_l.
  assert (size (declared ∩ nat_ips) <= size nat_ips)%nat
    by apply subseteq_size, intersection_subseteq_r.
  split; [lia|]. split; [lia|]. split; [lia|]. split.
  - subst declared. clear. induction (total_assigned_ips ctx) as [|x l IH];
      cbn [list_to_set length]; [by rewrite size_empty|].
    rewrite size_union_alt, size_singleton.
    assert (size ((list_to_set l : gset string) ∖ {[x]})
            <= size (list_to_set l : gset string))%nat
      by (apply subseteq_size, subseteq_difference_l; reflexivity).
    lia.
  - rewrite andb_true_iff, !Nat.eqb_eq. split.
    + intros [H1 H2].
      assert (declared ∩ nat_ips = declared).
      { apply set_subseteq_size_eq; [apply intersection_subseteq_l|lia]. }
      assert (declared ∩ nat_ips = nat_ips).
      { apply set_subseteq_size_eq; [apply intersection_subseteq_r|lia]. }
      congruence.
    + intros ->. rewrite (idemp_L (∩) nat_ips). lia.
Qed.

(** X11. The EgressIP context is available exactly when every object has
    a name.  Its assigned IPs are then, each once, the IPs of the status
    items of the objects: the IPs of the spec play no part, so an IP that is
    requested but not yet in a status item is never reported missing by the
    validation. *)
Theorem context_holds_status_ips_only (items : list egressip_object) :
  let ctx := _get_egressip_context (EgressIPItems items) in
  (available ctx = true ↔ ∀ o, o ∈ items → ∃ n, metadata o = Some (Some n))
  ∧ NoDup (total_assigned_ips ctx)
  ∧ (available ctx = true →
     (∀ x, x ∈ total_assigned_ips ctx
           ↔ ∃ o i, o ∈ items ∧ i ∈ status_items o ∧ item_egressIP i = Some x)
     ∧ ∀ snat_rules lrp_rules x,
         x ∈ missing_snat_rules
               (_validate_rules_against_egressips snat_rules lrp_rules ctx) →
         ∃ o i, o ∈ items ∧ i ∈ status_items o ∧ item_egressIP i = Some x)
  ∧ (available ctx = false →
     ∀ snat_rules lrp_rules,
       validation_possible
         (_validate_rules_against_egressips snat_rules lrp_rules ctx) = false).
Proof.
  intros ctx. subst ctx. unfold _get_egressip_context.
  pose proof (assigned_ips_of_spec items ∅) as H.
  destruct (assigned_ips_of items ∅) as [key|ips].
  - destruct H as (o & Ho & Hbad).
    cbn [available total_assigned_ips]. split; [|split; [constructor|split]].
    + split; [done|]. intros Hall. destruct (Hall o Ho) as [n Hn].
      destruct Hbad; congruence.
    + done.
    + intros _ snat_rules lrp_rules. reflexivity.
  - destruct H as [Hnames Hips].
    cbn [available total_assigned_ips]. split; [|split; [apply NoDup_elements|split]].
    + done.
    + intros _.
      assert (Hmem : ∀ x, x ∈ elements ips
         ↔ ∃ o i, o ∈ items ∧ i ∈ status_items o ∧ item_egressIP i = Some x).
      { intros x. rewrite elem_of_elements, Hips. split; [|by right].
        intros [H0|?]; [by apply not_elem_of_empty in H0|done]. }
      split; [exact Hmem|].
      intros snat_rules lrp_rules x.
      unfold _validate_rules_against_egressips. cbn [available total_assigned_ips
        missing_snat_rules].
      rewrite elem_of_difference, elem_of_list_to_set. intros [Hx _].
      by apply Hmem.
    + done.
Qed.

End ValidationMore.

Section Recommendations.
Import Reports.

Lemma score_below_half_of_check (snat_rules lrp_rules : list rule) :
  let A := egressip_snat_external_ips snat_rules in
  let B := egressip_lrp_ip_references lrp_rules in
  score_below_half (_check_egressip_rule_consistency snat_rules lrp_rules)
  = Some (if bool_decide (A = ∅) || bool_decide (B = ∅) then true
          else Qgtb (5 # 10) (ratio (size (A ∩ B)) (size A))).
Proof.
  intros A B. unfold score_below_half.
  destruct (decide (A = ∅)) as [HA|HA]; [|destruct (decide (B = ∅)) as [HB|HB]].
  - rewrite (check_when_empty snat_rules lrp_rules (or_introl HA)).
    by rewrite (bool_decide_eq_true_2 _ HA).
  - rewrite (check_when_empty snat_rules lrp_rules (or_intror HB)).
    rewrite (bool_decide_eq_true_2 _ HB). by rewrite orb_true_r.
  - rewrite (check_when_both snat_rules lrp_rules HA HB).
    by rewrite (bool_decide_eq_false_2 _ HA), (bool_decide_eq_false_2 _ HB).
Qed.

(** The messages that can stand before the all-clear message. *)
Lemma snat_recommendations_spec (a : snat_analysis) (m : string) :
  m ∈ snat_recommendations a →
  m = no_snat_rules_found ∨ m = snat_rules_failed_to_parse
  ∨ m = no_related_snat_rules.
Proof.
  unfold snat_recommendations.
  repeat (case_match; [intros ->%list_elem_of_singleton; by auto|]).
  by intros ?%elem_of_nil.
Qed.

Lemma lrp_recommendations_spec (a : lrp_analysis) (m : string) :
  m ∈ lrp_recommendations a →
  m = no_lrp_rules_found ∨ m = lrp_rules_failed_to_parse
  ∨ m = no_related_lrp_rules.
Proof.
  unfold lrp_recommendations.
  repeat (case_match; [intros ->%list_elem_of_singleton; by auto|]).
  by intros ?%elem_of_nil.
Qed.

Lemma validation_recommendations_spec (v : validation) (m : string) :
  m ∈ validation_recommendations v →
  ∃ n, m = missing_rules_message n ∨ m = unexpected_rules_message n.
Proof.
  unfold validation_recommendations.
  destruct (validation_possible v); [|by intros ?%elem_of_nil].
  intros [H|H]%elem_of_app.
  - destruct (0 <? _)%nat; [|by apply elem_of_nil in H].
    apply list_elem_of_singleton in H as ->. by eauto.
  - destruct (0 <? _)%nat; [|by apply elem_of_nil in H].
    apply list_elem_of_singleton in H as ->. by eauto.
Qed.

Lemma recommendation_lengths (a : snat_analysis) (l : lrp_analysis)
  (v : validation) :
  (length (snat_recommendations a) <= 1)%nat
  ∧ (length (lrp_recommendations l) <= 1)%nat
  ∧ (length (validation_recommendations v) <= 2)%nat.
Proof.
  unfold snat_recommendations, lrp_recommendations, validation_recommendations.
  repeat split; repeat case_match; rewrite ?length_app; simpl; lia.
Qed.

Lemma findings_spec (snat : snat_analysis) (lrp : lrp_analysis)
  (below : bool) (valid : validation) :
  (no_major_issues ∉ findings snat lrp below valid)
  ∧ (poor_correlation ∈ findings snat lrp below valid ↔ below = true)
  ∧ (length (findings snat lrp below valid) <= 5)%nat.
Proof.
  unfold findings. split; [|split].
  - rewrite !elem_of_app. intros [H|[H|[H|H]]].
    + apply snat_recommendations_spec in H as [H|[H|H]]; discriminate H.
    + apply lrp_recommendations_spec in H as [H|[H|H]]; discriminate H.
    + destruct below; [|by apply elem_of_nil in H].
      apply list_elem_of_singleton in H. discriminate H.
    + apply validation_recommendations_spec in H as [n [H|H]]; discriminate H.
  - rewrite !elem_of_app. split.
    + intros [H|[H|[H|H]]].
      * apply snat_recommendations_spec in H as [H|[H|H]]; discriminate H.
      * apply lrp_recommendations_spec in H as [H|[H|H]]; discriminate H.
      * destruct below; [done|by apply elem_of_nil in H].
      * apply validation_recommendations_spec in H as [n [H|H]]; discriminate H.
    + intros ->. right; right; left. by apply list_elem_of_singleton.
  - destruct (recommendation_lengths snat lrp valid) as (H1 & H2 & H3).
    rewrite !length_app. destruct below; simpl; lia.
Qed.

Lemma generated_recommendations (snat : snat_analysis) (lrp : lrp_analysis)
  (check : consistency) (valid : validation) (below : bool) :
  score_below_half check = Some below →
  _generate_egressip_recommendations snat lrp check valid
  = Some (match findings snat lrp below valid with
          | [] => [no_major_issues]
          | _ => findings snat lrp below valid
          end).
Proof.
  intros H. unfold _generate_egressip_recommendations. rewrite H. reflexivity.
Qed.

(** X12. The recommendations of a node analysis are never empty and at
    most five.  The message that no major issue was found stands alone when
    it is given, and it is not given when the NAT side or the policy side of
    the consistency check is empty: the score is then the 0 it started with,
    and the poor correlation is recommended for investigation. *)
Theorem node_recommendations_shape (inp : node_input) :
  let snat := _get_egressip_snat_rules (node_snat_output inp) in
  let lrp := _get_egressip_lrp_rules (node_lrp_output inp) in
  ∃ recs, node_recommendations inp = Some recs
    ∧ recs ≠ []
    ∧ (length recs <= 5)%nat
    ∧ (no_major_issues ∈ recs → recs = [no_major_issues])
    ∧ (egressip_snat_external_ips snat = ∅
       ∨ egressip_lrp_ip_references lrp = ∅ →
       poor_correlation ∈ recs ∧ no_major_issues ∉ recs)
    ∧ (snat = [] → no_snat_rules_found ∈ recs)
    ∧ (lrp = [] → no_lrp_rules_found ∈ recs).
Proof.
  intros snat lrp.
  destruct (lrp_analysis_of_fetched (node_lrp_output inp)) as [la Hla].
  fold lrp in Hla.
  unfold node_recommendations, analyze_node_rules. fold snat lrp. rewrite Hla.
  pose proof (score_below_half_of_check snat lrp) as Hbelow. cbv zeta in Hbelow.
  rewrite (generated_recommendations _ _ _ _ _ Hbelow).
  set (below := if bool_decide (egressip_snat_external_ips snat = ∅)
                   || bool_decide (egressip_lrp_ip_references lrp = ∅)
                then true else _) in *.
  set (sa := _analyze_egressip_snat_rules snat).
  set (v := _validate_rules_against_egressips snat lrp (node_context inp)).
  destruct (findings_spec sa la below v) as (Hclear & Hpoor & Hlen).
  assert (Hsnat : snat = [] → no_snat_rules_found ∈ findings sa la below v).
  { intros E. unfold findings, snat_recommendations. subst sa. rewrite E.
    cbn. apply elem_of_cons. by left. }
  assert (Hlrp : lrp = [] → no_lrp_rules_found ∈ findings sa la below v).
  { intros E. unfold findings, lrp_recommendations.
    rewrite E in Hla. cbn in Hla. injection Hla as <-. cbn.
    apply elem_of_app. right. apply elem_of_cons. by left. }
  assert (Hundet : egressip_snat_external_ips snat = ∅
                   ∨ egressip_lrp_ip_references lrp = ∅ → below = true).
  { intros [E|E]; subst below.
    - by rewrite (bool_decide_eq_true_2 _ E).
    - rewrite (bool_decide_eq_true_2 _ E). by rewrite orb_true_r. }
  eexists. split; [reflexivity|].
  destruct (findings sa la below v) as [|m ms] eqn:Ef.
  - split; [done|]. split; [simpl; lia|]. split; [done|].
    split; [|split].
    + intros H. apply Hundet, Hpoor in H. by apply elem_of_nil in H.
    + intros H. apply Hsnat in H. by apply elem_of_nil in H.
    + intros H. apply Hlrp in H. by apply elem_of_nil in H.
  - split; [done|]. split; [done|]. split; [done|].
    split; [|split; [done|done]].
    intros H. split; [|done]. by apply Hpoor, Hundet.
Qed.

(** X13. With both sides of the check not empty, the poor correlation is
    recommended for investigation exactly when fewer than half of the NAT
    IPs are referenced by policy rules, while the label is [poor], with its
    issue, already at one half: at exactly one half the check reports a poor
    correlation that the recommendations do not mention.  The score is
    compared as the exact quotient, where the code compares its [float]. *)
Theorem poor_correlation_recommended_below_half (inp : node_input) :
  let snat := _get_egressip_snat_rules (node_snat_output inp) in
  let lrp := _get_egressip_lrp_rules (node_lrp_output inp) in
  let A := egressip_snat_external_ips snat in
  let B := egressip_lrp_ip_references lrp in
  let check := _check_egressip_rule_consistency snat lrp in
  A ≠ ∅ → B ≠ ∅ →
  ∃ recs, node_recommendations inp = Some recs
    ∧ (poor_correlation ∈ recs
       ↔ 2 * Z.of_nat (size (A ∩ B)) < Z.of_nat (size A))
    ∧ (2 * Z.of_nat (size (A ∩ B)) = Z.of_nat (size A) →
       snat_lrp_correlation check = "poor"
       ∧ issues_found check = [low_correlation_issue]
       ∧ poor_correlation ∉ recs).
Proof.
  intros snat lrp A B check HA HB.
  destruct (lrp_analysis_of_fetched (node_lrp_output inp)) as [la Hla].
  fold lrp in Hla.
  unfold node_recommendations, analyze_node_rules. fold snat lrp. rewrite Hla.
  pose proof (score_below_half_of_check snat lrp) as Hbelow. cbv zeta in Hbelow.
  fold A B in Hbelow.
  rewrite (bool_decide_eq_false_2 _ HA), (bool_decide_eq_false_2 _ HB) in Hbelow.
  cbn [orb] in Hbelow.
  rewrite (generated_recommendations _ _ _ _ _ Hbelow).
  set (q := ratio (size (A ∩ B)) (size A)) in *.
  set (sa := _analyze_egressip_snat_rules snat).
  set (v := _validate_rules_against_egressips snat lrp (node_context inp)).
  destruct (findings_spec sa la (Qgtb (5 # 10) q) v) as (Hclear & Hpoor & Hlen).
  pose proof (size_pos_of_nonempty A HA) as Hpos.
  assert (Hq : Qgtb (5 # 10) q = true
               ↔ 2 * Z.of_nat (size (A ∩ B)) < Z.of_nat (size A)).
  { rewrite Qgtb_true. subst q. unfold Qlt, ratio. simpl.
    assert (Z.pos (Pos.of_nat (size A)) = Z.of_nat (size A)) as -> by lia. lia. }
  assert (Hin : ∀ recs, recs = match findings sa la (Qgtb (5 # 10) q) v with
                               | [] => [no_major_issues]
                               | _ => findings sa la (Qgtb (5 # 10) q) v
                               end →
                 (poor_correlation ∈ recs ↔ Qgtb (5 # 10) q = true)).
  { intros recs ->. destruct (findings sa la (Qgtb (5 # 10) q) v) eqn:Ef.
    - rewrite <- Hpoor. split; [|by intros ?%elem_of_nil].
      intros H%list_elem_of_singleton. discriminate H.
    - done. }
  eexists. split; [reflexivity|]. split.
  - by rewrite (Hin _ eq_refl).
  - intros Hhalf. subst check. rewrite (check_when_both snat lrp HA HB).
    fold A B q. cbn [snat_lrp_correlation issues_found].
    assert (G8 : Qgtb q (8 # 10) = false).
    { apply Qgtb_false. subst q. unfold Qle, ratio. simpl.
      assert (Z.pos (Pos.of_nat (size A)) = Z.of_nat (size A)) as -> by lia. lia. }
    assert (G5 : Qgtb q (5 # 10) = false).
    { apply Qgtb_false. subst q. unfold Qle, ratio. simpl.
      assert (Z.pos (Pos.of_nat (size A)) = Z.of_nat (size A)) as -> by lia. lia. }
    rewrite G8, G5. split; [done|]. split; [done|].
    rewrite (Hin _ eq_refl), Hq. lia.
Qed.

End Recommendations.

(** ** Changes between snapshots and the monitor *)

Section Changes.

Lemma count_diff_present (a b : nat) (t : string) :
  present (count_diff a b t) = negb (a =? b)%nat.
Proof. unfold count_diff. by destruct (a =? b)%nat. Qed.

Lemma hash_diff_present (a b : Z) (t : string) :
  present (hash_diff a b t) = negb (a =? b).
Proof. unfold hash_diff. by destruct (a =? b). Qed.

Lemma has_changes_same_rules (prev curr : snapshot) :
  has_changes (snapshot_changes prev curr) = negb (same_rules prev curr).
Proof.
  unfold has_changes, snapshot_changes, same_rules. cbn.
  rewrite !count_diff_present, !hash_diff_present.
  by rewrite !negb_andb.
Qed.

Lemma length_changes_between (prev : snapshot) (rest : list snapshot) :
  length (changes_between prev rest) = changed_pairs prev rest.
Proof.
  revert prev. induction rest as [|curr rest IH]; intros prev; [done|].
  cbn [changes_between changed_pairs]. rewrite length_app, IH.
  rewrite has_changes_same_rules. by destruct (same_rules prev curr).
Qed.

Lemma changed_pairs_le (prev : snapshot) (rest : list snapshot) :
  (changed_pairs prev rest <= length rest)%nat.
Proof.
  revert prev. induction rest as [|curr rest IH]; intros prev; [done|].
  cbn [changed_pairs length]. specialize (IH curr).
  destruct (same_rules prev curr); lia.
Qed.

(** X14. The stability of a monitoring session is decided by the number of
    snapshots that differ from the one taken just before them in one of the
    four counts or the two hashes, the time stamps being left out: none is
    stable, one or two is mostly stable, three or more is unstable.  The
    number of change events is this number, at most one less than the
    number of snapshots; with one snapshot only no number is given but a
    reason. *)
Theorem stability_counts_the_changed_snapshots (first : snapshot)
  (rest : list snapshot) :
  let ca := _analyze_egressip_rule_changes (first :: rest) in
  let n := changed_pairs first rest in
  (n <= length rest)%nat
  ∧ changes_detected ca = (0 <? n)%nat
  ∧ total_change_events ca = (if rest is [] then None else Some n)
  ∧ reason ca = (if rest is [] then Some "Insufficient snapshots" else None)
  ∧ stability (_assess_egressip_rule_stability ca)
    = (if (n =? 0)%nat then "stable"
       else if (n <=? 2)%nat then "mostly_stable" else "unstable").
Proof.
  intros ca n. split; [apply changed_pairs_le|].
  destruct rest as [|second rest]; [done|].
  subst ca. cbn [_analyze_egressip_rule_changes].
  rewrite length_changes_between. fold n.
  cbn [changes_detected total_change_events reason].
  split; [done|]. split; [done|]. split; [done|].
  unfold _assess_egressip_rule_stability.
  cbn [changes_detected total_change_events default].
  destruct n as [|[|[|n']]]; reflexivity.
Qed.

Lemma count_diff_differs (a b : nat) (t : string) (c : count_change) :
  count_diff a b t = Some c →
  change_from c = a ∧ change_to c = b ∧ change_time c = t ∧ a ≠ b.
Proof.
  unfold count_diff. destruct (a =? b)%nat eqn:E; [done|].
  intros [= <-]. apply Nat.eqb_neq in E. done.
Qed.

(** X15. Every change event in the list of changes reports a change: it has
    one key at least, and a count it reports went from one value to another
    one, at the time of the later of the two snapshots, which is a snapshot
    after the first. *)
Theorem change_events_report_changes (first : snapshot)
  (rest : list snapshot) (e : change_event) :
  e ∈ changes_between first rest →
  has_changes e = true
  ∧ ∀ c, c ∈ count_changes_of e →
         change_from c ≠ change_to c
         ∧ ∃ curr, curr ∈ rest ∧ change_time c = timestamp curr.
Proof.
  revert first. induction rest as [|curr rest IH]; intros first.
  - by intros ?%elem_of_nil.
  - cbn [changes_between]. intros [H|H]%elem_of_app.
    + destruct (has_changes (snapshot_changes first curr)) eqn:E;
        [|by apply elem_of_nil in H].
      apply list_elem_of_singleton in H as ->. split; [done|].
      intros c Hc. unfold count_changes_of in Hc.
      apply list_elem_of_omap in Hc as (o & Ho & Hoc). cbn in Hoc. subst o.
      assert (∃ a b, count_diff a b (timestamp curr) = Some c) as (a & b & Hd).
      { cbn in Ho.
        repeat (apply elem_of_cons in Ho as [Ho|Ho]; [symmetry in Ho; by eauto|]).
        by apply elem_of_nil in Ho. }
      apply count_diff_differs in Hd as (-> & -> & -> & Hne).
      split; [done|]. exists curr. split; [|done]. apply elem_of_cons. by left.
    + destruct (IH curr H) as [H1 H2]. split; [done|].
      intros c Hc. destruct (H2 c Hc) as [Hne (s & Hs & Ht)].
      split; [done|]. exists s. split; [|done]. apply elem_of_cons. by right.
Qed.

End Changes.

Section Sampling.
Variables (sec : PyHash.secret) (w : session) (node_name : string).

(** The snapshots of the turns [i], ..., [i + n - 1] of the loop. *)
Lemma sampling_loop_uncancelled (remaining i : nat) (snapshots : list snapshot) :
  (∀ j, (i <= j < i + remaining)%nat → cancelled_in_sleep w j = false) →
  ∃ more, sampling_loop sec w remaining i snapshots = (snapshots ++ more, None)
          ∧ length more = remaining.
Proof.
  revert i snapshots.
  induction remaining as [|n IH]; intros i snapshots Hc; cbn [sampling_loop].
  - exists []. by rewrite app_nil_r.
  - rewrite (Hc i) by lia.
    destruct (IH (S i) (snapshots ++
      [_take_egressip_rule_snapshot sec (observe w (S i))])) as (more & -> & Hl).
    { intros j Hj. apply Hc. lia. }
    eexists (_ :: more). rewrite <- app_assoc. split; [done|]. simpl. lia.
Qed.

Lemma sampling_loop_cancelled (remaining i k : nat) (snapshots : list snapshot) :
  (k < remaining)%nat →
  (∀ j, (i <= j < i + k)%nat → cancelled_in_sleep w j = false) →
  cancelled_in_sleep w (i + k) = true →
  ∃ more, sampling_loop sec w remaining i snapshots
          = (snapshots ++ more, Some CancelledError)
          ∧ length more = k.
Proof.
  revert remaining i snapshots.
  induction k as [|k IH]; intros remaining i snapshots Hk Hc Hcancel.
  - destruct remaining as [|n]; [lia|]. cbn [sampling_loop].
    rewrite Nat.add_0_r in Hcancel. rewrite Hcancel.
    exists []. by rewrite app_nil_r.
  - destruct remaining as [|n]; [lia|]. cbn [sampling_loop].
    rewrite (Hc i) by lia.
    destruct (IH n (S i) (snapshots ++
      [_take_egressip_rule_snapshot sec (observe w (S i))])) as (more & -> & Hl).
    + lia.
    + intros j Hj. apply Hc. lia.
    + by replace (S i + k)%nat with (i + S k)%nat by lia.
    + eexists (_ :: more). rewrite <- app_assoc. split; [done|]. simpl. lia.
Qed.

Lemma monitor_runs_to_its_end (duration_seconds : Z) :
  Z.min 30 (duration_seconds / 10) ≠ 0 →
  (∀ i, cancelled_in_sleep w i = false) →
  ∃ snapshots,
    monitor_egressip_rule_changes sec w node_name duration_seconds
    = Returned (monitor_success node_name duration_seconds (end_time w) snapshots)
    ∧ Z.of_nat (length snapshots)
      = 1 + Z.max 0 (duration_seconds / Z.min 30 (duration_seconds / 10)).
Proof.
  intros Hi Hc. unfold monitor_egressip_rule_changes, monitor_sampling, floordiv.
  cbv zeta. apply Z.eqb_neq in Hi. rewrite Hi.
  destruct (sampling_loop_uncancelled
    (Z.to_nat (duration_seconds / Z.min 30 (duration_seconds / 10))) O
    [_take_egressip_rule_snapshot sec (observe w O)]) as (more & -> & Hl).
  { intros j _. apply Hc. }
  eexists. split; [reflexivity|]. rewrite length_app, Hl. simpl. lia.
Qed.

Lemma monitor_success_fields (duration_seconds : Z) (now : string)
  (snapshots : list snapshot) :
  let r := monitor_success node_name duration_seconds now snapshots in
  r !! "status" = Some (FStr "success")
  ∧ r !! "snapshots_taken" = Some (FInt (Z.of_nat (length snapshots)))
  ∧ r !! "detailed_snapshots" = Some (FSnapshots snapshots).
Proof. done. Qed.

(** X16. A session of 10 seconds or more that is not cancelled succeeds.
    The check interval is one tenth of the duration, rounded down, and at
    most 30 seconds; the checks are as many as intervals fit into the
    duration, ten at least, so that with the initial one eleven snapshots or
    more are taken, and the last is taken less than one interval before the
    duration is over. *)
Theorem monitor_takes_eleven_snapshots_or_more (duration_seconds : Z) :
  10 <= duration_seconds →
  (∀ i, cancelled_in_sleep w i = false) →
  let interval := Z.min 30 (duration_seconds / 10) in
  let checks := duration_seconds / interval in
  1 <= interval <= 30
  ∧ 10 <= checks
  ∧ checks * interval <= duration_seconds < (checks + 1) * interval
  ∧ ∃ r, monitor_egressip_rule_changes sec w node_name duration_seconds
         = Returned r
         ∧ r !! "status" = Some (FStr "success")
         ∧ r !! "snapshots_taken" = Some (FInt (1 + checks)).
Proof.
  intros Hd Hc interval checks.
  assert (Hq : 1 <= duration_seconds / 10).
  { apply Z.div_le_lower_bound; lia. }
  assert (Hint : 1 <= interval <= 30) by (subst interval; lia).
  assert (Hten : interval * 10 <= duration_seconds).
  { pose proof (Z.mul_div_le duration_seconds 10 ltac:(lia)).
    subst interval. lia. }
  assert (Hchecks : 10 <= checks).
  { subst checks. apply Z.div_le_lower_bound; lia. }
  split; [done|]. split; [done|]. split.
  { subst checks.
    pose proof (Z.mul_div_le duration_seconds interval ltac:(lia)).
    pose proof (Z.mul_succ_div_gt duration_seconds interval ltac:(lia)).
    lia. }
  destruct (monitor_runs_to_its_end duration_seconds) as (snapshots & -> & Hl).
  { fold interval. lia. }
  { done. }
  eexists. split; [reflexivity|].
  destruct (monitor_success_fields duration_seconds (end_time w) snapshots)
    as (H1 & H2 & _).
  split; [done|]. rewrite H2. fold interval checks in Hl.
  do 2 f_equal. lia.
Qed.

(** X17. A negative duration is not refused.  The interval is then the
    negative tenth, rounded down, the division by it gives between one and
    ten checks, and a session that is not cancelled succeeds with between
    two and eleven snapshots. *)
Theorem monitor_accepts_a_negative_duration (duration_seconds : Z) :
  duration_seconds < 0 →
  (∀ i, cancelled_in_sleep w i = false) →
  let interval := Z.min 30 (duration_seconds / 10) in
  let checks := duration_seconds / interval in
  interval < 0
  ∧ 1 <= checks <= 10
  ∧ ∃ r, monitor_egressip_rule_changes sec w node_name duration_seconds
         = Returned r
         ∧ r !! "status" = Some (FStr "success")
         ∧ r !! "monitoring_duration" = Some (FInt duration_seconds)
         ∧ r !! "snapshots_taken" = Some (FInt (1 + checks)).
Proof.
  intros Hd Hc interval checks.
  assert (Hq : duration_seconds / 10 < 0).
  { apply Z.div_lt_upper_bound; lia. }
  assert (Hint : interval = duration_seconds / 10) by (subst interval; lia).
  assert (Hlow : 10 * interval <= duration_seconds < 10 * interval + 10).
  { rewrite Hint.
    pose proof (Z.mul_div_le duration_seconds 10 ltac:(lia)).
    pose proof (Z.mul_succ_div_gt duration_seconds 10 ltac:(lia)). lia. }
  assert (Hchecks : 1 <= checks <= 10).
  { subst checks.
    pose proof (Z.div_mod duration_seconds interval ltac:(lia)) as Hdm.
    pose proof (Z.mod_neg_bound duration_seconds interval ltac:(lia)) as Hm.
    nia. }
  split; [lia|]. split; [done|].
  destruct (monitor_runs_to_its_end duration_seconds) as (snapshots & -> & Hl).
  { fold interval. lia. }
  { done. }
  eexists. split; [reflexivity|].
  destruct (monitor_success_fields duration_seconds (end_time w) snapshots)
    as (H1 & H2 & _).
  split; [done|]. split; [done|]. rewrite H2. fold interval checks in Hl.
  do 2 f_equal. lia.
Qed.

(** X18. A task cancelled while it sleeps before check [k + 1] gives its
    caller no result: the [k + 1] snapshots taken until then are dropped
    with the cancellation, which no handler of the function catches. *)
Theorem monitor_cancellation_drops_the_snapshots (duration_seconds : Z)
  (k : nat) :
  Z.min 30 (duration_seconds / 10) ≠ 0 →
  Z.of_nat k < duration_seconds / Z.min 30 (duration_seconds / 10) →
  (∀ j, (j < k)%nat → cancelled_in_sleep w j = false) →
  cancelled_in_sleep w k = true →
  (∃ snapshots,
     monitor_sampling sec w duration_seconds = (snapshots, Some CancelledError)
     ∧ length snapshots = S k)
  ∧ monitor_egressip_rule_changes sec w node_name duration_seconds
    = Propagated CancelledError.
Proof.
  intros Hi Hk Hc Hcancel.
  unfold monitor_egressip_rule_changes, monitor_sampling, floordiv.
  cbv zeta. apply Z.eqb_neq in Hi. rewrite Hi.
  destruct (sampling_loop_cancelled
    (Z.to_nat (duration_seconds / Z.min 30 (duration_seconds / 10))) O k
    [_take_egressip_rule_snapshot sec (observe w O)]) as (more & -> & Hl).
  { lia. }
  { intros j Hj. apply Hc. lia. }
  { done. }
  split; [|done]. eexists. split; [reflexivity|].
  rewrite length_app, Hl. simpl. lia.
Qed.

End Sampling.

(** ** The comparison across nodes *)

Section Dicts.
Context {V : Type}.

Lemma dict_set_keys (k : string) (v : V) (d : list (string * V)) :
  (dict_set k v d).*1 = if bool_decide (k ∈ d.*1) then d.*1 else d.*1 ++ [k].
Proof.
  induction d as [|[k0 v0] d IH]; [done|].
  cbn [dict_set]. destruct (String.eqb k k0) eqn:E.
  - apply String.eqb_eq in E as ->. rewrite !fmap_cons. cbn [fst].
    rewrite bool_decide_eq_true_2; [done|]. apply elem_of_cons. by left.
  - apply String.eqb_neq in E. rewrite !fmap_cons, IH. cbn [fst].
    destruct (decide (k ∈ d.*1)) as [Hin|Hin].
    + rewrite !bool_decide_eq_true_2; [done| |done].
      apply elem_of_cons. by right.
    + rewrite !bool_decide_eq_false_2; [done| |done].
      by intros [?|?]%elem_of_cons.
Qed.

Lemma dict_set_NoDup (k : string) (v : V) (d : list (string * V)) :
  NoDup d.*1 → NoDup (dict_set k v d).*1.
Proof.
  intros H. rewrite dict_set_keys. case_bool_decide as Hin; [done|].
  apply NoDup_app. split; [done|]. split; [|apply NoDup_singleton].
  intros x Hx ->%list_elem_of_singleton. done.
Qed.

Lemma dict_set_keys_elem (k k' : string) (v : V) (d : list (string * V)) :
  k' ∈ (dict_set k v d).*1 ↔ k' = k ∨ k' ∈ d.*1.
Proof.
  rewrite dict_set_keys. case_bool_decide as Hin.
  - split; [by right|]. by intros [->|?].
  - rewrite elem_of_app, list_elem_of_singleton. tauto.
Qed.

Lemma dict_set_elem (k k' : string) (v v' : V) (d : list (string * V)) :
  NoDup d.*1 → (k', v') ∈ dict_set k v d →
  (k' = k ∧ v' = v) ∨ (k' ≠ k ∧ (k', v') ∈ d).
Proof.
  induction d as [|[k0 v0] d IH]; intros Hnd H.
  - apply list_elem_of_singleton in H as [= -> ->]. by left.
  - rewrite fmap_cons in Hnd. apply NoDup_cons in Hnd as [Hk0 Hnd].
    cbn [fst] in Hk0. cbn [dict_set] in H.
    destruct (String.eqb k k0) eqn:E.
    + apply String.eqb_eq in E as ->.
      apply elem_of_cons in H as [[= -> ->]|H]; [by left|]. right. split.
      * intros ->. apply Hk0. apply list_elem_of_fmap. by exists (k0, v').
      * apply elem_of_cons. by right.
    + apply String.eqb_neq in E.
      apply elem_of_cons in H as [[= -> ->]|H].
      * right. split; [done|]. apply elem_of_cons. by left.
      * destruct (IH Hnd H) as [?|[? ?]]; [by left|].
        right. split; [done|]. apply elem_of_cons. by right.
Qed.

Lemma omap_keys {A B} (f : string * A → option (string * B))
  (d : list (string * A)) :
  (∀ x, x ∈ d → ∃ y, f x = Some y ∧ y.1 = x.1) → (omap f d).*1 = d.*1.
Proof.
  induction d as [|x d IH]; intros H; [done|]. cbn [omap list_omap].
  destruct (H x) as (y & -> & Hy); [apply elem_of_cons; by left|].
  rewrite !fmap_cons, Hy. f_equal. apply IH.
  intros z Hz. apply H. apply elem_of_cons. by right.
Qed.

End Dicts.

Section Decimal.

Lemma append_cons (c : ascii) (s t : string) :
  String c s +:+ t = String c (s +:+ t).
Proof. reflexivity. Qed.

Lemma append_assoc (a b c : string) : (a +:+ b) +:+ c = a +:+ (b +:+ c).
Proof.
  induction a as [|x a IH]; [done|]. rewrite !append_cons. by rewrite IH.
Qed.

Lemma digits_cons (c : ascii) (s : string) :
  digits (String c s) = isdigit c && digits s.
Proof. reflexivity. Qed.

Lemma digits_append (a b : string) : digits (a +:+ b) = digits a && digits b.
Proof.
  induction a as [|x a IH]; [done|].
  rewrite append_cons, !digits_cons, IH. by rewrite andb_assoc.
Qed.

Lemma pretty_N_char_digit (x : N) : isdigit (pretty_N_char x) = true.
Proof. unfold pretty_N_char. repeat case_match; reflexivity. Qed.

Lemma pretty_N_go_digits (x : N) (s : string) :
  ∃ d, pretty_N_go x s = d +:+ s ∧ digits d = true.
Proof.
  revert s. induction (N.lt_wf_0 x) as [x _ IH]; intros s.
  destruct (decide (x = 0)%N) as [->|Hx].
  - exists "". by rewrite pretty_N_go_0.
  - rewrite pretty_N_go_step by lia.
    destruct (IH (x `div` 10)%N) with (s := String (pretty_N_char (x `mod` 10)) s)
      as (d & -> & Hd).
    { apply N.div_lt; lia. }
    exists (d +:+ String (pretty_N_char (x `mod` 10)) "").
    split; [by rewrite append_assoc|].
    rewrite digits_append, Hd, digits_cons, pretty_N_char_digit. done.
Qed.

(** [str(n)] of a natural number is made of digits. *)
Lemma pretty_nat_digits (n : nat) : digits (pretty n) = true.
Proof.
  unfold pretty, pretty_nat, pretty, pretty_N.
  case_decide; [done|].
  destruct (pretty_N_go_digits (N.of_nat n) "") as (d & -> & Hd).
  by rewrite digits_append, Hd.
Qed.

Lemma digits_split (d d' : string) (c : ascii) (t t' : string) :
  digits d = true → digits d' = true → isdigit c = false →
  d +:+ String c t = d' +:+ String c t' → d = d' ∧ t = t'.
Proof.
  intros Hd Hd' Hc. revert d' Hd'.
  induction d as [|x d IH]; intros [|y d'] Hd' H.
  - injection H as ->. done.
  - rewrite append_cons in H. injection H as -> _.
    rewrite digits_cons, Hc in Hd'. done.
  - rewrite append_cons in H. injection H as -> _.
    rewrite digits_cons, Hc in Hd. done.
  - rewrite !append_cons in H. injection H as -> H.
    rewrite digits_cons in Hd, Hd'.
    apply andb_prop in Hd as [_ Hd]. apply andb_prop in Hd' as [_ Hd'].
    destruct (IH Hd d' Hd' H) as [-> ->]. done.
Qed.

(** Two dictionaries of counts with the same [str] hold the same counts. *)
Lemma str_rule_counts_inj (a b : rule_counts) :
  str_rule_counts a = str_rule_counts b → a = b.
Proof.
  destruct a as [a1 a2], b as [b1 b2]. unfold str_rule_counts.
  cbn [snat_rules lrp_rules]. intros H.
  apply (inj (String.append _)) in H.
  change (", 'lrp_rules': " +:+ ?x) with (String "," (" 'lrp_rules': " +:+ x)) in H.
  apply digits_split in H as [H1 H2];
    [|apply pretty_nat_digits|apply pretty_nat_digits|reflexivity].
  apply (inj (String.append _)) in H2.
  change "}" with (String "}" "") in H2.
  apply digits_split in H2 as [H2 _];
    [|apply pretty_nat_digits|apply pretty_nat_digits|reflexivity].
  apply (inj pretty) in H1, H2. by subst.
Qed.

End Decimal.

Section Nodes.
Import Reports.

Lemma size_list_to_set_gt1 (l : list string) :
  (1 < size (list_to_set l : gset string))%nat
  ↔ ∃ x y, x ∈ l ∧ y ∈ l ∧ x ≠ y.
Proof.
  split.
  - destruct l as [|x l]; [rewrite list_to_set_nil, size_empty; lia|].
    intros Hsize. destruct (decide (Forall (eq x) l)) as [Hall|Hnot].
    + exfalso. assert (E : (list_to_set (x :: l) : gset string) = {[x]}).
      { apply set_eq. intros y. rewrite elem_of_list_to_set, elem_of_singleton.
        rewrite elem_of_cons. split; [|by left].
        intros [->|Hy]; [done|]. rewrite Forall_forall in Hall.
        symmetry. by apply Hall. }
      rewrite E, size_singleton in Hsize. lia.
    + apply not_Forall_Exists in Hnot; [|apply _].
      apply Exists_exists in Hnot as (y & Hy & Hne).
      exists x, y. split; [apply elem_of_cons; by left|].
      split; [apply elem_of_cons; by right|done].
  - intros (x & y & Hx & Hy & Hne).
    assert (Hsub : ({[x]} ∪ {[y]} : gset string) ⊆ list_to_set l).
    { apply union_subseteq. split; apply singleton_subseteq_l;
        by apply elem_of_list_to_set. }
    apply subseteq_size in Hsub.
    rewrite size_union in Hsub by (by apply disjoint_singleton_l, not_elem_of_singleton).
    rewrite !size_singleton in Hsub. lia.
Qed.

Lemma count_mismatch_entry (rc : list (string * rule_counts))
  (content : list (string * node_content)) (d : list (string * rule_counts)) :
  rule_count_mismatch d ∈ _identify_egressip_inconsistencies rc content
  ↔ d = rc ∧ ∃ n1 c1 n2 c2, (n1, c1) ∈ rc ∧ (n2, c2) ∈ rc ∧ c1 ≠ c2.
Proof.
  unfold _identify_egressip_inconsistencies. rewrite elem_of_app.
  set (strs := map (λ '(_, c), str_rule_counts c) rc).
  assert (Hgt : (1 <? size (list_to_set strs : gset string))%nat = true
                ↔ ∃ n1 c1 n2 c2, (n1, c1) ∈ rc ∧ (n2, c2) ∈ rc ∧ c1 ≠ c2).
  { rewrite Nat.ltb_lt, size_list_to_set_gt1. subst strs. split.
    - intros (x & y & Hx & Hy & Hne).
      apply list_elem_of_fmap in Hx as ([n1 c1] & -> & H1).
      apply list_elem_of_fmap in Hy as ([n2 c2] & -> & H2).
      exists n1, c1, n2, c2. split; [done|]. split; [done|]. congruence.
    - intros (n1 & c1 & n2 & c2 & H1 & H2 & Hne).
      exists (str_rule_counts c1), (str_rule_counts c2).
      split; [apply list_elem_of_fmap; by exists (n1, c1)|].
      split; [apply list_elem_of_fmap; by exists (n2, c2)|].
      intros E. by apply str_rule_counts_inj in E. }
  split.
  - intros [H|H].
    + destruct (1 <? size _)%nat eqn:E; [|by apply elem_of_nil in H].
      apply list_elem_of_singleton in H as [= ->]. split; [done|]. by apply Hgt.
    + destruct (1 <? length content)%nat; [|by apply elem_of_nil in H].
      apply list_elem_of_omap in H as ([n data] & _ & H).
      case_bool_decide; discriminate H.
  - intros [-> H]. left. apply Hgt in H. rewrite H.
    by apply list_elem_of_singleton.
Qed.

(** X19. A mismatch of the rule counts is reported exactly when two of the
    compared nodes differ in their number of NAT rules or of policy rules:
    comparing the counts by their [str] loses nothing.  It is reported once,
    with the counts of all nodes as its details, and before every report of
    missing IPs. *)
Theorem count_mismatch_iff_two_nodes_differ
  (rc : list (string * rule_counts)) (content : list (string * node_content)) :
  let found := _identify_egressip_inconsistencies rc content in
  ((∃ d, rule_count_mismatch d ∈ found)
   ↔ ∃ n1 c1 n2 c2, (n1, c1) ∈ rc ∧ (n2, c2) ∈ rc
       ∧ (snat_rules c1 ≠ snat_rules c2 ∨ lrp_rules c1 ≠ lrp_rules c2))
  ∧ (∀ d, rule_count_mismatch d ∈ found → ∃ rest, found = rule_count_mismatch rc :: rest
           ∧ d = rc ∧ ∀ d', rule_count_mismatch d' ∉ rest).
Proof.
  intros found. split.
  - split.
    + intros [d (_ & n1 & c1 & n2 & c2 & H1 & H2 & Hne)%count_mismatch_entry].
      exists n1, c1, n2, c2. split; [done|]. split; [done|].
      destruct c1 as [a1 b1], c2 as [a2 b2]. cbn.
      destruct (decide (a1 = a2)) as [->|]; [|by left].
      right. intros ->. done.
    + intros (n1 & c1 & n2 & c2 & H1 & H2 & Hne). exists rc.
      apply count_mismatch_entry. split; [done|].
      exists n1, c1, n2, c2. split; [done|]. split; [done|].
      intros ->. by destruct Hne.
  - intros d Hd. pose proof Hd as [-> _]%count_mismatch_entry.
    subst found. unfold _identify_egressip_inconsistencies in *.
    destruct (1 <? size _)%nat.
    + eexists. split; [reflexivity|]. split; [done|].
      intros d' H. destruct (1 <? length content)%nat; [|by apply elem_of_nil in H].
      apply list_elem_of_omap in H as ([n data] & _ & H).
      case_bool_decide; discriminate H.
    + exfalso. cbn [app] in Hd.
      destruct (1 <? length content)%nat; [|by apply elem_of_nil in Hd].
      apply list_elem_of_omap in Hd as ([n data] & _ & H).
      case_bool_decide; discriminate H.
Qed.

Lemma analyze_node_rules_result (inp : node_input) :
  ∃ la check valid,
    analyze_node_rules inp
    = AnalysisSuccess
        {| snat_rules := length (_get_egressip_snat_rules (node_snat_output inp));
           lrp_rules := length (_get_egressip_lrp_rules (node_lrp_output inp)) |}
        (_analyze_egressip_snat_rules
           (_get_egressip_snat_rules (node_snat_output inp)))
        la check valid
    ∧ _analyze_egressip_lrp_rules (_get_egressip_lrp_rules (node_lrp_output inp))
      = Some la.
Proof.
  destruct (lrp_analysis_of_fetched (node_lrp_output inp)) as [la Hla].
  unfold analyze_node_rules. rewrite Hla. by eauto.
Qed.

Lemma foldl_snoc_calls (calls : list (string * node_input)) (n : string)
  (inp : node_input) :
  node_analyses_of (calls ++ [(n, inp)])
  = dict_set n (analyze_node_rules inp) (node_analyses_of calls).
Proof. unfold node_analyses_of. by rewrite foldl_app. Qed.

(** The dictionary of the analyses: one entry per node name, holding the
    analysis of the last call for it. *)
Lemma node_analyses_spec (calls : list (string * node_input)) :
  let d := node_analyses_of calls in
  NoDup d.*1
  ∧ (∀ n, n ∈ d.*1 ↔ n ∈ calls.*1)
  ∧ ∀ n a, (n, a) ∈ d →
      ∃ before inp after, calls = before ++ (n, inp) :: after
        ∧ (n ∉ after.*1) ∧ a = analyze_node_rules inp.
Proof.
  induction calls as [|[k i] calls IH] using rev_ind.
  - split; [apply NoDup_nil_2|]. split; [done|].
    intros n a H. by apply elem_of_nil in H.
  - cbv zeta in *. destruct IH as (Hnd & Hkeys & Hval).
    rewrite foldl_snoc_calls. split; [by apply dict_set_NoDup|]. split.
    + intros n. rewrite dict_set_keys_elem, fmap_app, elem_of_app, Hkeys.
      cbn. rewrite list_elem_of_singleton. tauto.
    + intros n a [[-> ->]|[Hne Hin]]%dict_set_elem; [| |done].
      * exists calls, i, []. split; [done|]. split; [|done].
        by intros ?%elem_of_nil.
      * destruct (Hval n a Hin) as (before & inp & after & -> & Hn & ->).
        exists before, inp, (after ++ [(k, i)]).
        split; [by rewrite <- app_assoc|]. split; [|done].
        rewrite fmap_app, elem_of_app. cbn. rewrite list_elem_of_singleton.
        tauto.
Qed.

(** X20. The comparison has one entry per node name given, in the order of
    the first mention; no node is left out, for the analysis of a node
    succeeds whatever the commands give.  A node named more than once is
    analysed each time, and the entry holds what the last analysis met: the
    number of rules fetched, and the external IPs of the NAT summary. *)
Theorem comparison_has_one_entry_per_node (calls : list (string * node_input)) :
  let c := compare_egressip_rules_across_nodes calls in
  NoDup (rule_count_comparison c).*1
  ∧ (rule_content_comparison c).*1 = (rule_count_comparison c).*1
  ∧ (∀ n, n ∈ (rule_count_comparison c).*1 ↔ n ∈ calls.*1)
  ∧ (∀ n rc, (n, rc) ∈ rule_count_comparison c →
       ∃ before inp after, calls = before ++ (n, inp) :: after
         ∧ (n ∉ after.*1)
         ∧ snat_rules rc
           = length (_get_egressip_snat_rules (node_snat_output inp))
         ∧ lrp_rules rc
           = length (_get_egressip_lrp_rules (node_lrp_output inp)))
  ∧ (∀ n data, (n, data) ∈ rule_content_comparison c →
       ∃ before inp after, calls = before ++ (n, inp) :: after
         ∧ (n ∉ after.*1)
         ∧ snat_external_ips data
           = external_ips (_analyze_egressip_snat_rules
               (_get_egressip_snat_rules (node_snat_output inp)))).
Proof.
  intros c. subst c. unfold compare_egressip_rules_across_nodes.
  cbn [rule_count_comparison rule_content_comparison].
  destruct (node_analyses_spec calls) as (Hnd & Hkeys & Hval).
  set (d := node_analyses_of calls) in *.
  assert (Hc : (_compare_egressip_rule_counts d).*1 = d.*1).
  { apply omap_keys. intros [n a] Hin.
    destruct (Hval n a Hin) as (before & inp & after & _ & _ & ->).
    destruct (analyze_node_rules_result inp) as (la & chk & v & -> & _).
    by eexists. }
  assert (Hk : (_compare_egressip_rule_content d).*1 = d.*1).
  { apply omap_keys. intros [n a] Hin.
    destruct (Hval n a Hin) as (before & inp & after & _ & _ & ->).
    destruct (analyze_node_rules_result inp) as (la & chk & v & -> & _).
    by eexists. }
  rewrite Hc, Hk. split; [done|]. split; [done|]. split; [done|]. split.
  - intros n rc Hin. apply list_elem_of_omap in Hin as ([n' a] & Hin & Hsome).
    destruct (Hval n' a Hin) as (before & inp & after & Hcalls & Hn & ->).
    destruct (analyze_node_rules_result inp) as (la & chk & v & E & _).
    rewrite E in Hsome. injection Hsome as -> <-.
    exists before, inp, after. done.
  - intros n data Hin. apply list_elem_of_omap in Hin as ([n' a] & Hin & Hsome).
    destruct (Hval n' a Hin) as (before & inp & after & Hcalls & Hn & ->).
    destruct (analyze_node_rules_result inp) as (la & chk & v & E & _).
    rewrite E in Hsome. injection Hsome as -> <-.
    exists before, inp, after. done.
Qed.

Lemma no_missing_entry (rc : list (string * rule_counts))
  (content : list (string * node_content)) :
  (∀ node m, missing_snat_ips node m ∉ _identify_egressip_inconsistencies rc content)
  ↔ ∀ n1 d1 n2 d2, (n1, d1) ∈ content → (n2, d2) ∈ content →
      snat_external_ips d1 = snat_external_ips d2.
Proof.
  split.
  - intros Hno n1 d1 n2 d2 H1 H2.
    destruct (decide (snat_external_ips d1 = snat_external_ips d2))
      as [|Hdiff]; [done|].
    assert (Hne : (n1, d1) ≠ (n2, d2)) by (intros [= -> ->]; done).
    pose proof (two_elements_length content _ _ H1 H2 Hne) as Hlen.
    assert (Hall : ∀ n d, (n, d) ∈ content →
              snat_external_ips d = all_snat_ips content).
    { intros n d Hin. apply set_eq. intros x. split.
      - intros Hx. apply elem_of_all_snat_ips. by exists n, d.
      - intros Hx. destruct (decide (x ∈ snat_external_ips d)) as [|Hnx]; [done|].
        exfalso. apply (Hno n (all_snat_ips content ∖ snat_external_ips d)).
        apply missing_entry_iff. split; [done|]. exists d.
        split; [done|]. split; [done|].
        intros E. assert (Hd : x ∈ all_snat_ips content ∖ snat_external_ips d)
          by (by apply elem_of_difference).
        rewrite E in Hd. by apply not_elem_of_empty in Hd. }
    by rewrite (Hall n1 d1 H1), (Hall n2 d2 H2).
  - intros Hsame node m (Hlen & data & Hin & -> & Hne)%missing_entry_iff.
    apply Hne. apply set_eq. intros x. rewrite elem_of_difference.
    split; [|by intros ?%not_elem_of_empty].
    intros [(n' & d' & Hin' & Hx)%elem_of_all_snat_ips Hnx].
    exfalso. apply Hnx. by rewrite (Hsame node data n' d' Hin Hin').
Qed.

Lemma inconsistency_kinds (l : list inconsistency) :
  l = [] ↔ (∀ d, rule_count_mismatch d ∉ l) ∧ (∀ n m, missing_snat_ips n m ∉ l).
Proof.
  split.
  - intros ->. split; intros; by intros ?%elem_of_nil.
  - intros [H1 H2]. destruct l as [|[d|n m] l]; [done| |]; exfalso.
    + apply (H1 d). apply elem_of_cons. by left.
    + apply (H2 n m). apply elem_of_cons. by left.
Qed.

Lemma multi_node_recommendations_spec (found : list inconsistency) :
  length (_generate_multi_node_egressip_recommendations found)
  = Nat.max 1 (length found)
  ∧ (_generate_multi_node_egressip_recommendations found
     = [consistent_across_nodes] ↔ found = []).
Proof.
  unfold _generate_multi_node_egressip_recommendations.
  destruct found as [|i found]; [done|]. split.
  - rewrite length_app, length_map. simpl. lia.
  - split; [|done]. rewrite app_nil_r. cbn [map].
    intros [= H1 H2]. destruct i; discriminate H1.
Qed.

(** X21. The nodes are reported as consistent exactly when all of them have
    the same two rule counts and the same set of external IPs in their NAT
    summary; the priorities collected with the IPs play no part.  The only
    recommendation is then the message that the rules are consistent;
    otherwise there is one recommendation for each inconsistency. *)
Theorem overall_consistency_iff_nodes_agree
  (calls : list (string * node_input)) :
  let c := compare_egressip_rules_across_nodes calls in
  (overall_consistency c = true
   ↔ (∀ n1 c1 n2 c2, (n1, c1) ∈ rule_count_comparison c →
        (n2, c2) ∈ rule_count_comparison c → c1 = c2)
     ∧ (∀ n1 d1 n2 d2, (n1, d1) ∈ rule_content_comparison c →
          (n2, d2) ∈ rule_content_comparison c →
          snat_external_ips d1 = snat_external_ips d2))
  ∧ (overall_consistency c = true
     ↔ recommendations c = [consistent_across_nodes])
  ∧ length (recommendations c) = Nat.max 1 (length (inconsistencies c)).
Proof.
  intros c. subst c. unfold compare_egressip_rules_across_nodes.
  cbn [rule_count_comparison rule_content_comparison overall_consistency
       recommendations inconsistencies].
  set (rc := _compare_egressip_rule_counts _).
  set (content := _compare_egressip_rule_content _).
  set (found := _identify_egressip_inconsistencies rc content).
  destruct (multi_node_recommendations_spec found) as [Hlen Hrec].
  assert (Hnil : (length found =? 0)%nat = true ↔ found = []).
  { rewrite Nat.eqb_eq. by destruct found. }
  split; [|split; [by rewrite Hnil, Hrec|done]].
  rewrite Hnil, inconsistency_kinds. subst found.
  rewrite no_missing_entry. split.
  - intros [H1 H2]. split; [|done]. intros n1 c1 n2 c2 Hin1 Hin2.
    assert (Hdec : c1 = c2 ∨ c1 ≠ c2).
    { destruct c1 as [a1 b1], c2 as [a2 b2].
      destruct (decide (a1 = a2)) as [->|]; [|right; congruence].
      destruct (decide (b1 = b2)) as [->|]; [by left|right; congruence]. }
    destruct Hdec as [|Hne]; [done|]. exfalso.
    apply (H1 rc). apply count_mismatch_entry. split; [done|].
    by exists n1, c1, n2, c2.
  - intros [H1 H2]. split; [|done].
    intros d (_ & n1 & c1 & n2 & c2 & Hin1 & Hin2 & Hne)%count_mismatch_entry.
    apply Hne. by apply (H1 n1 c1 n2 c2).
Qed.

End Nodes.

(** ** The metrics collector *)

Section CollectorFacts.
Import Reports Collector.

(** The key the collector reads is not one of the two keys of the counts. *)
Lemma node_metrics_key_error (inp : node_input) :
  _collect_egressip_node_ovn_metrics true inp
  = inl (KeyError "egressip_snat_rules").
Proof.
  unfold _collect_egressip_node_ovn_metrics.
  destruct (analyze_node_rules_result inp) as (la & chk & v & -> & _).
  reflexivity.
Qed.

Lemma collect_loop_mock (calls : list (string * node_input))
  (so_far : list (string * node_metric)) :
  collect_loop false calls so_far
  = inr (so_far ++ map (λ '(n, _), (n, mock_metric)) calls).
Proof.
  revert so_far. induction calls as [|[n inp] calls IH]; intros so_far.
  - cbn. by rewrite app_nil_r.
  - cbn [collect_loop _collect_egressip_node_ovn_metrics]. rewrite IH.
    by rewrite <- app_assoc.
Qed.

(** X22. The collection of the rule metrics never holds a metric measured
    on a node.  With the analyzer at hand the analysis of the first node
    succeeds, the collector then reads a count under a key the analysis does
    not give, and the collection ends as an error whose text is that key,
    with nothing stored.  It succeeds only without any node or when the
    analyzer cannot be imported, and every metric it then holds is the
    substitute made of zeros. *)
Theorem ovn_rule_metrics_are_never_measured (importable : bool)
  (calls : list (string * node_input)) :
  let c := collect_egressip_ovn_rule_metrics importable calls in
  (collect_status c = "success" ↔ importable = false ∨ calls = [])
  ∧ (collect_status c = "error" ↔ importable = true ∧ calls ≠ [])
  ∧ (collect_status c = "error" →
     collect_error c = Some "'egressip_snat_rules'"
     ∧ egressip_nodes_analyzed c = None)
  ∧ (collect_status c = "success" →
     egressip_nodes_analyzed c = Some (length calls)
     ∧ (egressip_ovn_metrics c).*1 = calls.*1)
  ∧ (∀ n m, (n, m) ∈ egressip_ovn_metrics c → m = mock_metric)
  ∧ stored_rows c = egressip_ovn_metrics c.
Proof.
  intros c. subst c. unfold collect_egressip_ovn_rule_metrics.
  destruct importable.
  - destruct calls as [|[n inp] calls].
    + cbn. split; [split; [by right|done]|].
      split; [split; [done|by intros [_ ?]]|].
      split; [done|]. split; [done|]. split; [|done].
      by intros n m ?%elem_of_nil.
    + cbn [collect_loop]. rewrite node_metrics_key_error.
      cbn [collect_status collect_error egressip_nodes_analyzed
           egressip_ovn_metrics stored_rows key_error_message].
      split; [split; [done|by intros [?|?]]|].
      split; [done|]. split; [intros _; split; [|done]; by vm_compute|].
      split; [done|]. split; [|done]. by intros n' m ?%elem_of_nil.
  - rewrite collect_loop_mock. cbn [app collect_status collect_error
      egressip_nodes_analyzed egressip_ovn_metrics stored_rows].
    split; [split; [by left|done]|].
    split; [split; [done|by intros [? _]]|].
    split; [done|]. split.
    + intros _. split; [done|].
      induction calls as [|[n inp] calls IH]; [done|].
      cbn [map]. rewrite !fmap_cons. by rewrite IH.
    + split; [|done]. intros n m Hin.
      apply list_elem_of_fmap in Hin as ([n' inp] & [= -> ->] & _). done.
Qed.

Lemma elem_of_truthy_values (f : status_item → option string)
  (items : list status_item) (x : string) :
  x ∈ truthy_values f items ↔ ∃ i, i ∈ items ∧ f i = Some x ∧ x ≠ "".
Proof.
  unfold truthy_values. rewrite elem_of_list_to_set, list_elem_of_omap. split.
  - intros (i & Hi & H). cbv beta in H. exists i. split; [done|].
    destruct (f i) as [y|]; [|done]. destruct y as [|c y]; [done|].
    cbn in H. injection H as <-. done.
  - intros (i & Hi & Hfi & Hne). exists i. split; [done|].
    cbv beta. rewrite Hfi. by destruct x.
Qed.

Lemma size_strings_le (l : list string) :
  (size (list_to_set l : gset string) <= length l)%nat.
Proof.
  induction l as [|x l IH]; cbn [list_to_set length]; [by rewrite size_empty|].
  rewrite size_union_alt, size_singleton.
  assert (size ((list_to_set l : gset string) ∖ {[x]})
          <= size (list_to_set l : gset string))%nat
    by (apply subseteq_size, subseteq_difference_l; reflexivity).
  lia.
Qed.

Lemma size_truthy_values (f : status_item → option string)
  (items : list status_item) :
  (size (truthy_values f items) <= length items)%nat.
Proof.
  unfold truthy_values. etrans; [apply size_strings_le|].
  induction items as [|i items IH]; [done|]. cbn [omap list_omap length].
  destruct (match f i with Some x => _ | None => _ end); simpl; lia.
Qed.

(** X23. The metrics of the EgressIP objects keep one entry per object, in
    order.  An entry without a name is the failure record of an object
    whose metadata or name is missing.  The pod count of every named entry
    is 0, whatever the cluster holds, for the pod assignments are the empty
    dictionary.  An entry is [pending] only without any assigned IP or
    node, and its assigned IPs and nodes are never more than its status
    items. *)
Theorem egressip_metrics_of_the_objects (objects : list egressip_object) :
  let metrics := collected_egressip_metrics objects in
  length metrics = length objects
  ∧ ∀ i o m, objects !! i = Some o → metrics !! i = Some m →
      (size (egressip_assigned_ips m) <= length (status_items o))%nat
      ∧ (size (egressip_assigned_nodes m) <= length (status_items o))%nat
      ∧ (egressip_status m = Some "pending" →
         egressip_assigned_ips m = ∅ ∧ egressip_assigned_nodes m = ∅
         ∧ spec_egressIPs o ≠ [])
      ∧ (egressip_status m = Some "ready" ↔
         (∃ n, metadata o = Some (Some n))
         ∧ length (status_items o) = length (spec_egressIPs o))
      ∧ match metadata o with
        | Some (Some name) =>
            egressip_name m = name ∧ egressip_pod_count m = Some 0%nat
            ∧ egressip_metric_error m = None
            ∧ ∀ x, x ∈ egressip_assigned_ips m
                   ↔ ∃ it, it ∈ status_items o ∧ item_egressIP it = Some x
                           ∧ x ≠ ""
        | _ =>
            egressip_name m = "unknown" ∧ egressip_status m = None
            ∧ egressip_pod_count m = None
            ∧ ∃ e, egressip_metric_error m = Some e
        end.
Proof.
  intros metrics. subst metrics. unfold collected_egressip_metrics.
  split; [by rewrite length_map|].
  intros i o m Ho Hm. rewrite list_lookup_fmap, Ho in Hm.
  injection Hm as <-. unfold _process_egressip_object, object_name.
  destruct (metadata o) as [[name|]|].
  - cbn [egressip_assigned_ips egressip_assigned_nodes egressip_status
         egressip_name egressip_pod_count egressip_metric_error].
    split; [apply size_truthy_values|]. split; [apply size_truthy_values|].
    split; [|split; [|split; [done|split; [done|split; [done|]]]]].
    + destruct (length (status_items o) =? length (spec_egressIPs o))%nat eqn:E;
        [done|].
      destruct (status_items o) as [|it its] eqn:Hits; [|done].
      intros _. split; [done|]. split; [done|].
      intros Hs. rewrite Hs in E. done.
    + destruct (length (status_items o) =? length (spec_egressIPs o))%nat eqn:E.
      * apply Nat.eqb_eq in E. split; [by eauto|done].
      * apply Nat.eqb_neq in E. split.
        -- by destruct (0 <? _)%nat.
        -- by intros [_ ?].
    + apply elem_of_truthy_values.
  - cbn. split; [by rewrite size_empty; lia|]. split; [by rewrite size_empty; lia|].
    split; [done|]. split; [split; [done|by intros [[? ?] _]]|]. by eauto.
  - cbn. split; [by rewrite size_empty; lia|]. split; [by rewrite size_empty; lia|].
    split; [done|]. split; [split; [done|by intros [[? ?] _]]|]. by eauto.
Qed.

(** X24. When every object has a name, the collector and the analyzer read
    the same assignment: an IP is among the assigned IPs of one of the
    collected metrics exactly when it is one of the assigned IPs of the
    EgressIP context of the analyzer and is not the empty string, which the
    context alone keeps. *)
Theorem collected_ips_are_the_context_ips (objects : list egressip_object)
  (x : string) :
  let ctx := _get_egressip_context (EgressIPItems objects) in
  available ctx = true →
  (∃ m, m ∈ collected_egressip_metrics objects ∧ x ∈ egressip_assigned_ips m)
  ↔ x ∈ total_assigned_ips ctx ∧ x ≠ "".
Proof.
  intros ctx Hav. subst ctx. unfold _get_egressip_context in *.
  pose proof (assigned_ips_of_spec objects ∅) as H.
  destruct (assigned_ips_of objects ∅) as [key|ips]; [done|].
  destruct H as [Hnames Hips]. cbn [total_assigned_ips].
  rewrite elem_of_elements, Hips. unfold collected_egressip_metrics. split.
  - intros (m & Hm & Hx). apply list_elem_of_fmap in Hm as (o & -> & Ho).
    destruct (Hnames o Ho) as [n Hn].
    unfold _process_egressip_object, object_name in Hx. rewrite Hn in Hx.
    cbn [egressip_assigned_ips] in Hx.
    apply elem_of_truthy_values in Hx as (it & Hit & Hx & Hne).
    split; [|done]. right. by exists o, it.
  - intros [[H0|(o & it & Ho & Hit & Hx)] Hne];
      [by apply not_elem_of_empty in H0|].
    exists (_process_egressip_object o _get_egressip_pod_assignments).
    split; [apply list_elem_of_fmap; by exists o|].
    destruct (Hnames o Ho) as [n Hn].
    unfold _process_egressip_object, object_name. rewrite Hn.
    cbn [egressip_assigned_ips]. apply elem_of_truthy_values. by exists it.
Qed.

End CollectorFacts.

(** ** Instances of the properties that have a premise *)

Section Instances.
Import Reports Collector.

Lemma priority_stats_witness :
  ∃ a, _analyze_egressip_lrp_rules
         [_parse_egressip_lrp_rule "100 ip4.src==192.168.1.10 reroute 10.0.0.5";
          _parse_egressip_lrp_rule "90 ip4.src==192.168.1.11 reroute 10.0.0.6"]
       = Some a
    ∧ let s := la_priority_stats a in
      (priorities a = [] → ps_min s = 0 ∧ ps_max s = 0 ∧ ps_unique_count s = O)
      ∧ (priorities a ≠ [] →
         ps_min s ∈ priorities a ∧ ps_max s ∈ priorities a
         ∧ (∀ p, p ∈ priorities a → ps_min s <= p <= ps_max s)
         ∧ (1 <= ps_unique_count s <= length (priorities a))%nat).
Proof.
  eexists. split; [reflexivity|].
  apply (priority_stats_bound_the_priorities
    [_parse_egressip_lrp_rule "100 ip4.src==192.168.1.10 reroute 10.0.0.5";
     _parse_egressip_lrp_rule "90 ip4.src==192.168.1.11 reroute 10.0.0.6"]).
  reflexivity.
Defined.

Lemma consistency_label_by_counts_witness :
  let snat := _get_egressip_snat_rules (node_snat_output half_covered_node) in
  let lrp := _get_egressip_lrp_rules (node_lrp_output half_covered_node) in
  let A := egressip_snat_external_ips snat in
  let B := egressip_lrp_ip_references lrp in
  let check := _check_egressip_rule_consistency snat lrp in
  let common := Z.of_nat (size (A ∩ B)) in
  let all := Z.of_nat (size A) in
  (snat_lrp_correlation check = "good" ↔ 4 * all < 5 * common)
  ∧ (snat_lrp_correlation check = "moderate"
     ↔ all < 2 * common ∧ 5 * common <= 4 * all)
  ∧ (snat_lrp_correlation check = "poor" ↔ 2 * common <= all)
  ∧ (issues_found check ≠ [] ↔ snat_lrp_correlation check = "poor")
  ∧ (A ⊆ B →
     consistency_score check = PyFloat (ratio (size A) (size A))
     ∧ (ratio (size A) (size A) == 1)%Q
     ∧ snat_lrp_correlation check = "good")
  ∧ (A ## B →
     consistency_score check = PyFloat (ratio 0 (size A))
     ∧ (ratio 0 (size A) == 0)%Q
     ∧ snat_lrp_correlation check = "poor"
     ∧ issues_found check = [low_correlation_issue]).
Proof.
  intros snat lrp.
  apply (consistency_label_by_counts snat lrp);
    apply nonempty_by_evaluation; by vm_compute.
Defined.

Lemma validation_counts_balance_witness :
  let snat := _get_egressip_snat_rules (CmdOk two_snat_lines) in
  let v := _validate_rules_against_egressips snat [] one_assigned_ip in
  let declared : gset string := list_to_set (total_assigned_ips one_assigned_ip) in
  let nat_ips := egressip_snat_external_ips snat in
  missing_snat_rules v ## unexpected_snat_rules v
  ∧ ∃ s, summary v = Some s
      ∧ (total_assigned_egressips s - missing_rules_count s
         = total_snat_external_ips s - unexpected_rules_count s)%nat
      ∧ (missing_rules_count s <= total_assigned_egressips s)%nat
      ∧ (unexpected_rules_count s <= total_snat_external_ips s)%nat
      ∧ (total_assigned_egressips s <= length (total_assigned_ips one_assigned_ip))%nat
      ∧ (validation_passed s = true ↔ declared = nat_ips).
Proof.
  intros snat.
  apply (validation_counts_balance snat [] one_assigned_ip). reflexivity.
Defined.

Lemma poor_correlation_below_half_witness :
  let snat := _get_egressip_snat_rules (node_snat_output half_covered_node) in
  let lrp := _get_egressip_lrp_rules (node_lrp_output half_covered_node) in
  let A := egressip_snat_external_ips snat in
  let B := egressip_lrp_ip_references lrp in
  let check := _check_egressip_rule_consistency snat lrp in
  ∃ recs, node_recommendations half_covered_node = Some recs
    ∧ (poor_correlation ∈ recs
       ↔ 2 * Z.of_nat (size (A ∩ B)) < Z.of_nat (size A))
    ∧ (2 * Z.of_nat (size (A ∩ B)) = Z.of_nat (size A) →
       snat_lrp_correlation check = "poor"
       ∧ issues_found check = [low_correlation_issue]
       ∧ poor_correlation ∉ recs).
Proof.
  apply (poor_correlation_recommended_below_half half_covered_node);
    apply nonempty_by_evaluation; by vm_compute.
Defined.

Lemma change_events_witness :
  let e := snapshot_changes snapshot_before snapshot_after in
  has_changes e = true
  ∧ ∀ c, c ∈ count_changes_of e →
         change_from c ≠ change_to c
         ∧ ∃ curr, curr ∈ [snapshot_after] ∧ change_time c = timestamp curr.
Proof.
  apply (change_events_report_changes snapshot_before [snapshot_after]).
  apply list_elem_of_here.
Defined.

Lemma monitor_eleven_snapshots_witness :
  let interval := Z.min 30 (10 / 10) in
  let checks := 10 / interval in
  1 <= interval <= 30
  ∧ 10 <= checks
  ∧ checks * interval <= 10 < (checks + 1) * interval
  ∧ ∃ r, monitor_egressip_rule_changes seed1 quiet_session "worker-0" 10
         = Returned r
         ∧ r !! "status" = Some (FStr "success")
         ∧ r !! "snapshots_taken" = Some (FInt (1 + checks)).
Proof.
  apply (monitor_takes_eleven_snapshots_or_more seed1 quiet_session "worker-0" 10).
  - lia.
  - intros i. reflexivity.
Defined.

Lemma monitor_negative_duration_witness :
  let interval := Z.min 30 (-1 / 10) in
  let checks := -1 / interval in
  interval < 0
  ∧ 1 <= checks <= 10
  ∧ ∃ r, monitor_egressip_rule_changes seed1 quiet_session "worker-0" (-1)
         = Returned r
         ∧ r !! "status" = Some (FStr "success")
         ∧ r !! "monitoring_duration" = Some (FInt (-1))
         ∧ r !! "snapshots_taken" = Some (FInt (1 + checks)).
Proof.
  apply (monitor_accepts_a_negative_duration seed1 quiet_session "worker-0" (-1)).
  - lia.
  - intros i. reflexivity.
Defined.

Lemma monitor_cancellation_witness :
  (∃ snapshots,
     monitor_sampling seed1 cancelled_session 100
     = (snapshots, Some CancelledError)
     ∧ length snapshots = 3%nat)
  ∧ monitor_egressip_rule_changes seed1 cancelled_session "worker-0" 100
    = Propagated CancelledError.
Proof.
  apply (monitor_cancellation_drops_the_snapshots seed1 cancelled_session
           "worker-0" 100 2).
  - discriminate.
  - reflexivity.
  - intros j Hj. destruct j as [|[|j]]; [reflexivity|reflexivity|lia].
  - reflexivity.
Defined.

Lemma collected_ips_witness :
  let ctx := _get_egressip_context (EgressIPItems [assigned_object]) in
  (∃ m, m ∈ collected_egressip_metrics [assigned_object]
        ∧ "10.0.0.5" ∈ egressip_assigned_ips m)
  ↔ "10.0.0.5" ∈ total_assigned_ips ctx ∧ "10.0.0.5" ≠ "".
Proof.
  apply (collected_ips_are_the_context_ips [assigned_object] "10.0.0.5").
  reflexivity.
Defined.

End Instances.
